(** * MD2D engine: a shallow embedding of [md2d.js] and its verified properties

    The engine of [src/lab/md2d/models/engine/md2d.js] is a closure over a
    few dozen mutable variables and parallel arrays.  The embedding keeps the
    closure variables in one record ([engine]), passes that record explicitly
    through every operation and gives every operation the outcome it has in
    JavaScript: it returns, it throws (with the state reached at the throw),
    or it loops for ever (modelled by a fuel bound on each loop).

    Numbers.  JavaScript numbers are modelled as exact rationals extended with
    [Infinity], [-Infinity] and [NaN]; rounding, overflow and the sign of zero
    are not modelled.  The result of an arithmetic operation is kept as a
    fraction in lowest terms.  Equality of two numbers in statements is
    [num_eq] (equality of rationals as fractions, [NaN] equal to itself).

    Arrays.  The typed arrays made by [arrays.create] are lists of numbers:
    a read outside the array gives [undefined] (which behaves as [NaN] in
    arithmetic and as false in a test), a write outside the array is ignored.
    The containers [atoms], [obstacles] and [elements] are JavaScript objects
    whose properties are arrays, hence finite maps from property names to
    arrays.

    Absent modules.  [constants], [lennardJones], [coulomb], [cell-list],
    [neighbor-list], [pressure-buffers] and [math] are required by the engine
    but are not part of the sources at hand; what the engine uses of them is
    a field of the record [externals]. *)

From Stdlib Require Import QArith Qround Qabs Lqa ZArith Lia.
From stdpp Require Import base option strings pretty list gmap.

Local Open Scope Q_scope.

(** ** JavaScript numbers *)

Module JS.

Inductive num : Type :=
| Fin (q : Q)
| PInf
| NInf
| NaN.

Definition zero : num := Fin 0.
Definition one : num := Fin 1.

Definition isNaN (a : num) : bool :=
  match a with NaN => true | _ => false end.

Definition isFinite (a : num) : bool :=
  match a with Fin _ => true | _ => false end.

Definition Qltb (p q : Q) : bool :=
  match p ?= q with Lt => true | _ => false end.

(** Sign of a number that is not [NaN]: used for products and quotients. *)
Definition sgn (a : num) : comparison :=
  match a with
  | Fin q => q ?= 0
  | PInf => Gt
  | NInf => Lt
  | NaN => Eq
  end.

Definition neg (a : num) : num :=
  match a with
  | Fin q => Fin (- q)
  | PInf => NInf
  | NInf => PInf
  | NaN => NaN
  end.

Definition add (a b : num) : num :=
  match a, b with
  | NaN, _ | _, NaN => NaN
  | Fin p, Fin q => Fin (Qred (p + q))
  | PInf, NInf | NInf, PInf => NaN
  | PInf, _ | _, PInf => PInf
  | NInf, _ | _, NInf => NInf
  end.

Definition sub (a b : num) : num := add a (neg b).

(** The infinity whose sign is the product of two signs; [0 * Infinity] is
    [NaN]. *)
Definition signed_inf (s t : comparison) : num :=
  match s, t with
  | Eq, _ | _, Eq => NaN
  | Gt, Gt | Lt, Lt => PInf
  | _, _ => NInf
  end.

Definition mul (a b : num) : num :=
  match a, b with
  | NaN, _ | _, NaN => NaN
  | Fin p, Fin q => Fin (Qred (p * q))
  | _, _ => signed_inf (sgn a) (sgn b)
  end.

(** Division: a finite number divided by zero is an infinity of its sign
    ([0/0] is [NaN]), a finite number divided by an infinity is zero. *)
Definition div (a b : num) : num :=
  match a, b with
  | NaN, _ | _, NaN => NaN
  | Fin p, Fin q =>
      if Qeq_bool q 0
      then match p ?= 0 with Eq => NaN | Gt => PInf | Lt => NInf end
      else Fin (Qred (p / q))
  | Fin _, _ => Fin 0
  | _, Fin q =>
      match q ?= 0 with
      | Lt => neg a
      | _ => a
      end
  | _, _ => NaN
  end.

(** Comparisons: every comparison with [NaN] is false. *)
Definition ltb (a b : num) : bool :=
  match a, b with
  | NaN, _ | _, NaN => false
  | Fin p, Fin q => Qltb p q
  | NInf, NInf | PInf, _ | _, NInf => false
  | _, _ => true
  end.

Definition leb (a b : num) : bool :=
  match a, b with
  | NaN, _ | _, NaN => false
  | Fin p, Fin q => Qle_bool p q
  | NInf, _ | _, PInf => true
  | _, _ => false
  end.

Definition gtb (a b : num) : bool := ltb b a.
Definition geb (a b : num) : bool := leb b a.

(** [a === b] on numbers. *)
Definition strict_eq (a b : num) : bool :=
  match a, b with
  | Fin p, Fin q => Qeq_bool p q
  | PInf, PInf | NInf, NInf => true
  | _, _ => false
  end.

(** A number in a boolean position: [0] and [NaN] are false. *)
Definition truthy (a : num) : bool :=
  match a with
  | Fin q => negb (Qeq_bool q 0)
  | NaN => false
  | _ => true
  end.

Definition Math_abs (a : num) : num :=
  match a with
  | Fin q => Fin (Qabs q)
  | PInf | NInf => PInf
  | NaN => NaN
  end.

Definition Math_floor (a : num) : num :=
  match a with
  | Fin q => Fin (inject_Z (Qfloor q))
  | other => other
  end.

(** [Math.sqrt].  On a rational [n/d] the model returns
    [Z.sqrt (n*d) / d]: the exact root when [n/d] is the square of a
    rational, and the root rounded down to a multiple of [1/d] otherwise
    (the JavaScript function rounds as well, to the nearest double). *)
Definition Math_sqrt (a : num) : num :=
  match a with
  | Fin q =>
      if Qltb q 0 then NaN
      else Fin (Qred (Z.sqrt (Qnum q * Z.pos (Qden q)) # Qden q))
  | PInf => PInf
  | NInf | NaN => NaN
  end.

(** Equality of two numbers as values. *)
Definition num_eq (a b : num) : Prop :=
  match a, b with
  | Fin p, Fin q => p == q
  | PInf, PInf | NInf, NInf | NaN, NaN => True
  | _, _ => False
  end.

Definition num_eqb (a b : num) : bool :=
  match a, b with
  | Fin p, Fin q => Qeq_bool p q
  | PInf, PInf | NInf, NInf | NaN, NaN => true
  | _, _ => false
  end.

(** The array index denoted by a number: only a non-negative integer is
    one. *)
Definition to_index (a : num) : option nat :=
  match a with
  | Fin q =>
      if Qle_bool 0 q && Qeq_bool (inject_Z (Qfloor q)) q
      then Some (Z.to_nat (Qfloor q)) else None
  | _ => None
  end.

Definition of_nat (n : nat) : num := Fin (inject_Z (Z.of_nat n)).

End JS.

Export JS.

Declare Scope js_scope.
Delimit Scope js_scope with js.
Bind Scope js_scope with num.
Infix "+" := add : js_scope.
Infix "-" := sub : js_scope.
Infix "*" := mul : js_scope.
Infix "/" := div : js_scope.
Notation "- a" := (neg a) : js_scope.
Infix "<?" := ltb : js_scope.
Infix "<=?" := leb : js_scope.
Infix ">?" := gtb : js_scope.
Infix ">=?" := geb : js_scope.
Infix "===" := strict_eq (at level 70, no associativity) : js_scope.
Infix "≈" := num_eq (at level 70, no associativity).

(** ** Outcomes of an operation *)

(** An operation on a state of type [S] returns a new state, throws an error
    (leaving the state it had reached), or does not come back within the
    number of loop iterations it was given. *)
Inductive outcome (S : Type) : Type :=
| Returned (s : S)
| Threw (msg : string) (s : S)
| OutOfFuel.

Arguments Returned {S} s.
Arguments Threw {S} msg s.
Arguments OutOfFuel {S}.

Definition andThen {S : Type} (r : outcome S) (k : S → outcome S) : outcome S :=
  match r with
  | Returned s => k s
  | other => other
  end.

Notation "r >>> k" := (andThen r k) (at level 61, left associativity).

(** A [for] loop over a list of indices whose body may throw. *)
Fixpoint forEach {S I : Type} (body : I → S → outcome S) (l : list I) (s : S)
  : outcome S :=
  match l with
  | [] => Returned s
  | i :: l' => body i s >>> forEach body l'
  end.

(** ** Arrays *)

(** [a[i]] for a typed array [a]; outside the array the read is
    [undefined], which every use below treats as [NaN]. *)
Definition rd (a : list num) (i : nat) : num := default NaN (a !! i).

(** [arrays.create(n, 0, type)]. *)
Definition arrays_create (n : nat) : list num := replicate n zero.

(** [arrays.extend(a, n)]: a longer copy, new slots zero. *)
Definition arrays_extend (a : list num) (n : nat) : list num :=
  a ++ replicate (n - length a) zero.

(** [String(n)] for the numbers that end up in error messages; a number
    that is not an integer is written as a fraction. *)
Definition String_of (a : num) : string :=
  match a with
  | Fin q =>
      if Qeq_bool (inject_Z (Qfloor q)) q then pretty (Qfloor q)
      else pretty (Qnum q) +:+ "/" +:+ pretty (Z.pos (Qden q))
  | PInf => "Infinity"
  | NInf => "-Infinity"
  | NaN => "NaN"
  end.

(** ** The state of an engine *)

Definition N_MIN : num := Fin 1.
Definition N_MAX : num := Fin 1000.

Section Engine.

(** The state kept inside the [pressure-buffers] module and inside a windowed
    averager made by [math.getWindowedAverager]. *)
Context {PB W : Type}.

(** The variables of the closure [createEngine].  A variable that starts
    out [undefined] and only ever holds numbers starts as [NaN] (both are
    false in a test and give [NaN] in arithmetic); [gravitationalField] is
    [false] or a number, and [false] is kept as [0]; a container that
    starts out [undefined] is an [option]. *)
Record engine : Type := mkEngine {
  sizeHasBeenInitialized : bool;
  atomsHaveBeenCreated : bool;
  elementsHaveBeenCreated : bool;
  hasChargedAtoms : bool;
  chargedAtomsList : list nat;
  useThermostat : bool;
  vdwLinesRatio : num;
  gravitationalField : num;
  temperatureChangeInProgress : bool;
  T_target : num;
  size : num * num;
  viscosity : num;
  time : num;
  dt : num;
  dt_sq : num;
  N : nat;
  atoms : option (gmap string (list num));
  elements : option (gmap string (list num));
  N_elements : nat;
  elementUsed : gmap nat bool;
  radialBondMatrix : option (gmap nat (gmap nat bool));
  N_radialBonds : nat;
  obstacles : option (gmap string (list num));
  N_obstacles : nat;
  pressureBuffers : PB;
  vdwPairs_COUNT : nat;
  N_vdwPairs : nat;
  vdwPairAtom1Index : option (list nat);
  vdwPairAtom2Index : option (list nat);
  springForces : option (list (list num));
  N_springForces : nat;
  T : num;
  T_windowed : option W
}.

Definition eta_engine (st : engine) : engine :=
  mkEngine (sizeHasBeenInitialized st) (atomsHaveBeenCreated st)
    (elementsHaveBeenCreated st) (hasChargedAtoms st) (chargedAtomsList st)
    (useThermostat st) (vdwLinesRatio st) (gravitationalField st)
    (temperatureChangeInProgress st) (T_target st) (size st) (viscosity st)
    (time st) (dt st) (dt_sq st) (N st) (atoms st) (elements st)
    (N_elements st) (elementUsed st) (radialBondMatrix st) (N_radialBonds st)
    (obstacles st) (N_obstacles st) (pressureBuffers st) (vdwPairs_COUNT st)
    (N_vdwPairs st) (vdwPairAtom1Index st) (vdwPairAtom2Index st)
    (springForces st) (N_springForces st) (T st) (T_windowed st).

(** [assign f] builds the assignment to the closure variable [f]: the
    record rebuilt from its own fields with the one for [f] replaced. *)
Ltac assign f :=
  let v := fresh "v" in
  let st := fresh "st" in
  intros v st;
  let whole := eval cbv beta delta [eta_engine] in (eta_engine st) in
  let parts := eval pattern (f st) in whole in
  match parts with
  | ?rebuild _ => let r := eval cbv beta in (rebuild v) in exact r
  end.

Definition set_sizeHasBeenInitialized : bool → engine → engine :=
  ltac:(assign sizeHasBeenInitialized).
Definition set_atomsHaveBeenCreated : bool → engine → engine :=
  ltac:(assign atomsHaveBeenCreated).
Definition set_elementsHaveBeenCreated : bool → engine → engine :=
  ltac:(assign elementsHaveBeenCreated).
Definition set_hasChargedAtoms : bool → engine → engine :=
  ltac:(assign hasChargedAtoms).
Definition set_chargedAtomsList : list nat → engine → engine :=
  ltac:(assign chargedAtomsList).
Definition set_useThermostat : bool → engine → engine :=
  ltac:(assign useThermostat).
Definition set_vdwLinesRatio : num → engine → engine :=
  ltac:(assign vdwLinesRatio).
Definition set_gravitationalField : num → engine → engine :=
  ltac:(assign gravitationalField).
Definition set_temperatureChangeInProgress : bool → engine → engine :=
  ltac:(assign temperatureChangeInProgress).
Definition set_T_target : num → engine → engine :=
  ltac:(assign T_target).
Definition set_size : num * num → engine → engine :=
  ltac:(assign size).
Definition set_viscosity : num → engine → engine :=
  ltac:(assign viscosity).
Definition set_time : num → engine → engine :=
  ltac:(assign time).
Definition set_dt : num → engine → engine :=
  ltac:(assign dt).
Definition set_dt_sq : num → engine → engine :=
  ltac:(assign dt_sq).
Definition set_N : nat → engine → engine :=
  ltac:(assign N).
Definition set_atoms : option (gmap string (list num)) → engine → engine :=
  ltac:(assign atoms).
Definition set_elements : option (gmap string (list num)) → engine → engine :=
  ltac:(assign elements).
Definition set_N_elements : nat → engine → engine :=
  ltac:(assign N_elements).
Definition set_elementUsed : gmap nat bool → engine → engine :=
  ltac:(assign elementUsed).
Definition set_radialBondMatrix :
  option (gmap nat (gmap nat bool)) → engine → engine :=
  ltac:(assign radialBondMatrix).
Definition set_N_radialBonds : nat → engine → engine :=
  ltac:(assign N_radialBonds).
Definition set_obstacles : option (gmap string (list num)) → engine → engine :=
  ltac:(assign obstacles).
Definition set_N_obstacles : nat → engine → engine :=
  ltac:(assign N_obstacles).
Definition set_pressureBuffers : PB → engine → engine :=
  ltac:(assign pressureBuffers).
Definition set_vdwPairs_COUNT : nat → engine → engine :=
  ltac:(assign vdwPairs_COUNT).
Definition set_N_vdwPairs : nat → engine → engine :=
  ltac:(assign N_vdwPairs).
Definition set_vdwPairAtom1Index : option (list nat) → engine → engine :=
  ltac:(assign vdwPairAtom1Index).
Definition set_vdwPairAtom2Index : option (list nat) → engine → engine :=
  ltac:(assign vdwPairAtom2Index).
Definition set_springForces : option (list (list num)) → engine → engine :=
  ltac:(assign springForces).
Definition set_N_springForces : nat → engine → engine :=
  ltac:(assign N_springForces).
Definition set_T : num → engine → engine :=
  ltac:(assign T).
Definition set_T_windowed : option W → engine → engine :=
  ltac:(assign T_windowed).

(** *** What the engine uses of the absent modules *)

(** [constants.convert] is taken to multiply by a fixed factor, one per pair
    of units; [pairAndBondForces] stands for what [updateShortRangeForces],
    [updateLongRangeForces], [updateRadialBondForces],
    [updateAngularBondForces] and [updateRestraintForces] add to [ax[i]] and
    [ay[i]] (they read positions through the Lennard-Jones and Coulomb
    kernels and the two neighbour structures and write nothing else of the
    engine record). *)
Record externals : Type := mkExternals {
  JOULES_PER_MW_ENERGY_UNIT : num;
  BOLTZMANN_CONSTANT_IN_JOULES : num;
  MW_FORCE_UNITS_PER_EV_PER_NM : num;
  lennardJones_radius : num → num;
  pairAndBondForces : engine → nat → num * num;
  initializeBuffers : option (gmap string (list num)) → nat → PB → PB;
  updateBuffers : num → PB → PB;
  getWindowedAverager : nat → W;
  windowedAverage : W → num → num * W
}.

Variable ext : externals.

(** *** Containers of parallel arrays *)

(** [c[k]] for a container [c]; an absent container or property gives the
    empty array, every read of which is [undefined]. *)
Definition field (c : option (gmap string (list num))) (k : string) : list num :=
  match c with
  | Some m => default [] (m !! k)
  | None => []
  end.

(** [c[k][i] = v]. *)
Definition store (k : string) (i : nat) (v : num)
    (c : option (gmap string (list num))) : option (gmap string (list num)) :=
  alter (<[i:=v]>) k <$> c.

(** [extendArrays(c, newLength)] on a container object. *)
Definition extendArrays (c : option (gmap string (list num))) (newLength : nat)
  : option (gmap string (list num)) :=
  (λ m : gmap string (list num), (λ a, arrays_extend a newLength) <$> m) <$> c.

(** The shortcut references [x], [vx], ... are the arrays of [atoms];
    [aget k i st] is [k[i]] and [aset k i v st] is [k[i] = v]. *)
Definition aget (k : string) (i : nat) (st : engine) : num :=
  rd (field (atoms st) k) i.
Definition aset (k : string) (i : nat) (v : num) (st : engine) : engine :=
  set_atoms (store k i v (atoms st)) st.

(** The same for the shortcut references of [obstacles] (the key is the
    property name: [obstacleVX] is [obstacles.vx]) and of [elements]. *)
Definition oget (k : string) (i : nat) (st : engine) : num :=
  rd (field (obstacles st) k) i.
Definition oset (k : string) (i : nat) (v : num) (st : engine) : engine :=
  set_obstacles (store k i v (obstacles st)) st.
Definition eget (k : string) (i : nat) (st : engine) : num :=
  rd (field (elements st) k) i.
Definition eset (k : string) (i : nat) (v : num) (st : engine) : engine :=
  set_elements (store k i v (elements st)) st.

(** A container with the given properties, each an array of [n] zeros. *)
Definition createArrays (keys : list string) (n : nat) : gmap string (list num) :=
  list_to_map ((λ k, (k, arrays_create n)) <$> keys).

Definition ATOM_PROPERTY_LIST : list string :=
  ["radius"; "px"; "py"; "x"; "y"; "vx"; "vy"; "speed"; "ax"; "ay"; "charge";
   "friction"; "element"; "pinned"; "mass"; "marked"; "visible"; "draggable"].

Definition ELEMENT_PROPERTY_LIST : list string :=
  ["mass"; "epsilon"; "sigma"; "radius"].

Definition OBSTACLE_PROPERTY_LIST : list string :=
  ["x"; "y"; "width"; "height"; "mass"; "vx"; "vy"; "externalFx";
   "externalFy"; "friction"; "westProbe"; "northProbe"; "eastProbe";
   "southProbe"; "wProbeValue"; "nProbeValue"; "eProbeValue"; "sProbeValue";
   "xPrev"; "yPrev"; "colorR"; "colorG"; "colorB"; "visible"].

(** *** Temperature *)

Definition KE_to_T (totalKEinMWUnits : num) (n : nat) : num :=
  let N_df := (Fin 2 * of_nat n)%js in
  let averageKEinMWUnits := ((Fin 2 / N_df) * totalKEinMWUnits)%js in
  let averageKEinJoules :=
    (averageKEinMWUnits * JOULES_PER_MW_ENERGY_UNIT ext)%js in
  (averageKEinJoules / BOLTZMANN_CONSTANT_IN_JOULES ext)%js.

(** [validateTemperature(t)]: the message of the error it throws, if any.
    The argument is a number ([undefined] being [NaN]), which [parseFloat]
    gives back unchanged. *)
Definition validateTemperature (t : num) : option string :=
  let temperature := t in
  if isNaN temperature then
    Some ("md2d: requested temperature " +:+ String_of t
          +:+ " could not be understood.")
  else if (temperature <? Fin 0)%js then
    Some ("md2d: requested temperature " +:+ String_of temperature
          +:+ " was less than zero")
  else if (temperature === PInf)%js then
    Some "md2d: requested temperature was Infinity!"
  else None.

(** *** Configuration *)

Definition setTargetTemperature (v : num) (st : engine) : outcome engine :=
  match validateTemperature v with
  | Some msg => Threw msg st
  | None => Returned (set_T_target v st)
  end.

Definition setTime (t : num) (st : engine) : engine := set_time t st.

Definition setViscosity (v : num) (st : engine) : engine := set_viscosity v st.

Definition setGravitationalField (gf : num) (st : engine) : engine :=
  if negb (gf === Fin 0)%js then set_gravitationalField gf st
  else set_gravitationalField (Fin 0) st.

(** [setSize(v)] for [v = [v0, v1]]. *)
Definition setSize (v : num * num) (st : engine) : outcome engine :=
  if sizeHasBeenInitialized st then
    Threw "The molecular model's size has already been set, and cannot be reset." st
  else
    let width := if truthy (fst v) && (fst v >? Fin 0)%js then fst v else Fin 10 in
    let height := if truthy (snd v) && (snd v >? Fin 0)%js then snd v else Fin 10 in
    Returned (set_size (width, height) st).

Definition getSize (st : engine) : num * num := (fst (size st), snd (size st)).

(** [createAtomsArray(num)]; [None] is a call without argument. *)
Definition createAtomsArray (num : option num) (st : engine) : outcome engine :=
  if negb (elementsHaveBeenCreated st) then
    Threw "md2d: createAtoms was called before setElements." st
  else if atomsHaveBeenCreated st then
    Threw "md2d: createAtoms was called even though the particles have already been created for this model instance." st
  else
    let st := set_atomsHaveBeenCreated true st in
    let st := set_sizeHasBeenInitialized true st in
    match num with
    | None =>
        Threw "md2d: createAtoms was called without the required 'num' option specifying the number of atoms to create." st
    | Some num =>
        if negb (num === Math_floor num)%js then
          Threw "md2d: createAtoms was passed a non-integral 'num' option." st
        else if (num <? N_MIN)%js then
          Threw ("md2d: createAtoms was passed an 'num' option equal to: "
                 +:+ String_of num
                 +:+ " which is less than the minimum allowable value: N_MIN = "
                 +:+ String_of N_MIN +:+ ".") st
        else if (num >? N_MAX)%js then
          Threw ("md2d: createAtoms was passed an 'N' option equal to: "
                 +:+ String_of num
                 +:+ " which is greater than the minimum allowable value: N_MAX = "
                 +:+ String_of N_MAX +:+ ".") st
        else
          let n := default 0%nat (to_index num) in
          let st := set_atoms (Some (createArrays ATOM_PROPERTY_LIST n)) st in
          Returned (set_N 0%nat st)
    end.

(** *** Elements *)

Record elementProps : Type := mkElementProps {
  ep_mass : option num;
  ep_epsilon : option num;
  ep_sigma : option num
}.

(** A property that was not given reads as [undefined]. *)
Definition orUndefined (o : option num) : num := default NaN o.

Definition createElementsArray (n : nat) (st : engine) : engine :=
  set_elements (Some (createArrays ELEMENT_PROPERTY_LIST n)) st.

(** [addElement(props)].  When the arrays are full the source extends them
    and then calls [assignShortcutReferences.N_elements], which does not
    exist.  The tables of pairwise Lennard-Jones coefficients are not part
    of the model. *)
Definition addElement (props : elementProps) (st : engine) : outcome engine :=
  match elements st with
  | None => Threw "TypeError: Cannot read property 'length' of undefined" st
  | Some _ =>
      if (length (field (elements st) "epsilon") <=? N_elements st)%nat then
        Threw "TypeError: assignShortcutReferences.N_elements is not a function"
          (set_elements (extendArrays (elements st) (N_elements st + 10)) st)
      else
        let n := N_elements st in
        let st := eset "mass" n (orUndefined (ep_mass props)) st in
        let st := eset "epsilon" n (orUndefined (ep_epsilon props)) st in
        let st := eset "sigma" n (orUndefined (ep_sigma props)) st in
        let st := eset "radius" n
                    (lennardJones_radius ext (orUndefined (ep_sigma props))) st in
        let st := set_elementsHaveBeenCreated true st in
        Returned (set_N_elements (S n) st)
  end.

Definition initializeElements (elems : list elementProps) (st : engine)
  : outcome engine :=
  let num := length elems in
  forEach addElement elems (createElementsArray num st)
  >>> (λ st, Returned (set_elementsHaveBeenCreated true st)).

(** *** Atoms *)

(** A JavaScript object literal of numeric properties, in the order its
    keys were added. *)
Fixpoint getProp (k : string) (props : list (string * num)) : option num :=
  match props with
  | [] => None
  | (k', v) :: rest => if String.eqb k k' then Some v else getProp k rest
  end.

(** [props[k] = v]. *)
Fixpoint setProp (k : string) (v : num) (props : list (string * num))
  : list (string * num) :=
  match props with
  | [] => [(k, v)]
  | (k', v') :: rest =>
      if String.eqb k k' then (k, v) :: rest else (k', v') :: setProp k v rest
  end.

(** [elementUsed[el] = true]. *)
Definition markElementUsed (el : num) (st : engine) : engine :=
  match to_index el with
  | Some e => set_elementUsed (<[e:=true]> (elementUsed st)) st
  | None => st
  end.

(** [elementMass[el]], [elementRadius[el]], ... for a number [el]. *)
Definition elementProperty (k : string) (el : num) (st : engine) : num :=
  match to_index el with
  | Some e => eget k e st
  | None => NaN
  end.

(** [chargedAtomsList.indexOf(i)]. *)
Definition indexOf (i : nat) (l : list nat) : option nat :=
  fst <$> list_find (λ j, j = i) l.

(** The body of [for (key in props) atoms[key][i] = props[key]]. *)
Definition setAtomProperty (i : nat) (kv : string * num) (st : engine)
  : outcome engine :=
  match atoms st with
  | Some m =>
      if bool_decide (is_Some (m !! kv.1)) then Returned (aset kv.1 i kv.2 st)
      else Threw "TypeError: Cannot set property of undefined" st
  | None => Threw "TypeError: Cannot read property of undefined" st
  end.

Definition setAtomProperties (i : nat) (props : list (string * num))
    (st : engine) : outcome engine :=
  let el := getProp "element" props in
  (* Mark element as used by some atom. *)
  let st := match el with Some e => markElementUsed e st | None => st end in
  if bool_decide (is_Some el) && bool_decide (elements st = None) then
    Threw "TypeError: Cannot read property of undefined" st
  else
    (* Update mass and radius when element is changed. *)
    let props :=
      match el with
      | Some e =>
          setProp "radius" (elementProperty "radius" e st)
            (setProp "mass" (elementProperty "mass" e st) props)
      | None => props
      end in
    match atoms st with
    | None => Threw "TypeError: Cannot read property of undefined" st
    | Some _ =>
        (* Update charged atoms list. *)
        let c := aget "charge" i st in
        let pc := getProp "charge" props in
        let charged :=
          if (c === Fin 0)%js
             && match pc with Some v => negb (v === Fin 0)%js | None => false end
          then Some (chargedAtomsList st ++ [i])
          else if negb (c === Fin 0)%js
                  && match pc with Some v => (v === Fin 0)%js | None => false end
          then
            match indexOf i (chargedAtomsList st) with
            | Some idx =>
                Some (take idx (chargedAtomsList st)
                      ++ drop (S idx) (chargedAtomsList st))
            | None => None
            end
          else Some (chargedAtomsList st) in
        match charged with
        | None => Threw "RangeError: Invalid array length" st
        | Some l =>
            let st := set_chargedAtomsList l st in
            let st := set_hasChargedAtoms (negb (length l =? 0)%nat) st in
            (* Set all properties from props hash. *)
            forEach (setAtomProperty i) props st >>> (λ st,
            (* Update properties which depend on other properties. *)
            let st := aset "px" i (aget "vx" i st * aget "mass" i st)%js st in
            let st := aset "py" i (aget "vy" i st * aget "mass" i st)%js st in
            Returned
              (aset "speed" i
                 (Math_sqrt (aget "vx" i st * aget "vx" i st
                             + aget "vy" i st * aget "vy" i st)%js) st))
        end
    end.

(** [addAtom(props)]; the index it returns is [N - 1] of the new state.
    The cell list and the neighbour list it re-initialises are not part of
    the model. *)
Definition addAtom (props : list (string * num)) (st : engine) : outcome engine :=
  match atoms st with
  | None => Threw "TypeError: Cannot read property 'x' of undefined" st
  | Some _ =>
      let st :=
        if (length (field (atoms st) "x") <? N st + 1)%nat
        then set_atoms (extendArrays (atoms st) (N st + 10)) st
        else st in
      (* Set acceleration of new atom to zero. *)
      let props := setProp "ay" (Fin 0) (setProp "ax" (Fin 0) props) in
      (* Increase number of atoms. *)
      let st := set_N (S (N st)) st in
      setAtomProperties (N st - 1) props st
  end.

(** The loop [for (j = 0; j < N; j++) if (element[j] === i) k[j] = v] of
    [setElementProperties]. *)
Definition propagateToAtoms (k : string) (i : nat) (v : num) (st : engine)
  : engine :=
  foldl (λ st j,
           if (aget "element" j st === of_nat i)%js then aset k j v st else st)
        st (seq 0 (N st)).

(** [setElementProperties(i, properties)], without the recomputation of the
    pairwise Lennard-Jones coefficients. *)
Definition setElementProperties (i : nat) (properties : elementProps)
    (st : engine) : outcome engine :=
  match elements st with
  | None =>
      match ep_mass properties, ep_sigma properties, ep_epsilon properties with
      | None, None, None => Returned st
      | _, _, _ => Threw "TypeError: Cannot read property of undefined" st
      end
  | Some _ =>
      let st :=
        match ep_mass properties with
        | Some m =>
            if negb (m === eget "mass" i st)%js
            then propagateToAtoms "mass" i m (eset "mass" i m st)
            else st
        | None => st
        end in
      let st :=
        match ep_sigma properties with
        | Some s =>
            let st := eset "sigma" i s st in
            let newRadius := lennardJones_radius ext s in
            if negb (eget "radius" i st === newRadius)%js
            then propagateToAtoms "radius" i newRadius
                   (eset "radius" i newRadius st)
            else st
        | None => st
        end in
      let st :=
        match ep_epsilon properties with
        | Some e => eset "epsilon" i e st
        | None => st
        end in
      Returned st
  end.

(** *** Thermostat *)

Definition tempTolerance : num := Fin (1 # 1000).

Definition getWindowSize (st : engine) : nat := 1000.

Definition beginTransientTemperatureChange (st : engine) : engine :=
  let st := set_temperatureChangeInProgress true st in
  set_T_windowed (Some (getWindowedAverager ext (getWindowSize st))) st.

(** Calculates the instantaneous temperature of the system. *)
Definition computeTemperature (st : engine) : num :=
  let twoKE :=
    foldl (λ twoKE i,
             twoKE + aget "mass" i st
                     * (aget "vx" i st * aget "vx" i st
                        + aget "vy" i st * aget "vy" i st))%js
          (Fin 0) (seq 0 (N st)) in
  let twoKE :=
    foldl (λ twoKE i,
             if negb (oget "mass" i st === PInf)%js
             then (twoKE + oget "mass" i st
                           * (oget "vx" i st * oget "vx" i st
                              + oget "vy" i st * oget "vy" i st))%js
             else twoKE)
          twoKE (seq 0 (N_obstacles st)) in
  KE_to_T (twoKE / Fin 2)%js (N st).

(** Scales the velocity vector of particle i by [factor]. *)
Definition scaleParticleVelocity (i : nat) (factor : num) (st : engine) : engine :=
  let st := aset "vx" i (aget "vx" i st * factor)%js st in
  let st := aset "vy" i (aget "vy" i st * factor)%js st in
  let st := aset "px" i (aget "px" i st * factor)%js st in
  aset "py" i (aget "py" i st * factor)%js st.

(** Scales the velocity vector of obstacle i by [factor]. *)
Definition scaleObstacleVelocity (i : nat) (factor : num) (st : engine) : engine :=
  let st := oset "vx" i (oget "vx" i st * factor)%js st in
  oset "vy" i (oget "vy" i st * factor)%js st.

(** The rescaling branch of [adjustTemperature]. *)
Definition rescaleVelocities (target : num) (st : engine) : engine :=
  let rescalingFactor := Math_sqrt (target / T st)%js in
  let st := foldl (λ st i, scaleParticleVelocity i rescalingFactor st)
                  st (seq 0 (N st)) in
  let st := foldl (λ st i, scaleObstacleVelocity i rescalingFactor st)
                  st (seq 0 (N_obstacles st)) in
  set_T target st.

(** [adjustTemperature(target, forceAdjustment)]; [None] is an omitted
    target. *)
Definition adjustTemperature (target : option num) (forceAdjustment : bool)
    (st : engine) : outcome engine :=
  let target := default (T_target st) target in
  let st := set_T (computeTemperature st) st in
  let windowed :=
    if temperatureChangeInProgress st then
      match T_windowed st with
      | Some w =>
          let '(avg, w') := windowedAverage ext w (T st) in
          let st := set_T_windowed (Some w') st in
          Returned
            (if (Math_abs (avg - target) <=? target * tempTolerance)%js
             then set_temperatureChangeInProgress false st else st)
      | None => Threw "TypeError: T_windowed is not a function" st
      end
    else Returned st in
  windowed >>> (λ st,
  if forceAdjustment || useThermostat st
     || temperatureChangeInProgress st && (T st >? Fin 0)%js
  then Returned (rescaleVelocities target st)
  else Returned st).

(** *** Collisions *)

(** [while (cond) body], given [fuel] iterations. *)
Fixpoint while {S : Type} (fuel : nat) (cond : S → bool) (body : S → S) (s : S)
  : outcome S :=
  if cond s then
    match fuel with
    | O => OutOfFuel
    | Datatypes.S fuel' => while fuel' cond body (body s)
    end
  else Returned s.

(** Constrain obstacle i to the area between the walls by simulating
    perfectly elastic collisions with the walls. *)
Definition bounceObstacleOffWalls (fuel : nat) (i : nat) (st : engine)
  : outcome engine :=
  let leftwall := Fin 0 in
  let bottomwall := Fin 0 in
  let width := fst (size st) in
  let height := snd (size st) in
  let rightwall := (width - oget "width" i st)%js in
  let topwall := (height - oget "height" i st)%js in
  (* Bounce off vertical walls. *)
  (if (oget "x" i st <? leftwall)%js then
     while fuel (λ st, oget "x" i st <? leftwall - width)%js
                (λ st, oset "x" i (oget "x" i st + width)%js st) st
     >>> (λ st,
       let st := oset "x" i (leftwall + (leftwall - oget "x" i st))%js st in
       Returned (oset "vx" i (oget "vx" i st * Fin (-1))%js st))
   else if (oget "x" i st >? rightwall)%js then
     while fuel (λ st, oget "x" i st >? rightwall + width)%js
                (λ st, oset "x" i (oget "x" i st - width)%js st) st
     >>> (λ st,
       let st := oset "x" i (rightwall - (oget "x" i st - rightwall))%js st in
       Returned (oset "vx" i (oget "vx" i st * Fin (-1))%js st))
   else Returned st)
  >>> (λ st,
  (* Bounce off horizontal walls. *)
  if (oget "y" i st <? bottomwall)%js then
    while fuel (λ st, oget "y" i st <? bottomwall - height)%js
               (λ st, oset "y" i (oget "y" i st + height)%js st) st
    >>> (λ st,
      let st := oset "y" i (bottomwall + (bottomwall - oget "y" i st))%js st in
      Returned (oset "vy" i (oget "vy" i st * Fin (-1))%js st))
  else if (oget "y" i st >? topwall)%js then
    while fuel (λ st, oget "y" i st >? topwall + width)%js
               (λ st, oset "y" i (oget "y" i st - width)%js st) st
    >>> (λ st,
      let st := oset "y" i (topwall - (oget "y" i st - topwall))%js st in
      Returned (oset "vy" i (oget "vy" i st * Fin (-1))%js st))
  else Returned st).

(** Constrain particle i to the area between the walls by simulating
    perfectly elastic collisions with the walls. *)
Definition bounceParticleOffWalls (fuel : nat) (i : nat) (st : engine)
  : outcome engine :=
  let r := aget "radius" i st in
  let leftwall := r in
  let bottomwall := r in
  let width := fst (size st) in
  let height := snd (size st) in
  let rightwall := (width - r)%js in
  let topwall := (height - r)%js in
  (* Bounce off vertical walls. *)
  (if (aget "x" i st <? leftwall)%js then
     while fuel (λ st, aget "x" i st <? leftwall - width)%js
                (λ st, aset "x" i (aget "x" i st + width)%js st) st
     >>> (λ st,
       let st := aset "x" i (leftwall + (leftwall - aget "x" i st))%js st in
       let st := aset "vx" i (aget "vx" i st * Fin (-1))%js st in
       Returned (aset "px" i (aget "px" i st * Fin (-1))%js st))
   else if (aget "x" i st >? rightwall)%js then
     while fuel (λ st, aget "x" i st >? rightwall + width)%js
                (λ st, aset "x" i (aget "x" i st - width)%js st) st
     >>> (λ st,
       let st := aset "x" i (rightwall - (aget "x" i st - rightwall))%js st in
       let st := aset "vx" i (aget "vx" i st * Fin (-1))%js st in
       Returned (aset "px" i (aget "px" i st * Fin (-1))%js st))
   else Returned st)
  >>> (λ st,
  (* Bounce off horizontal walls. *)
  if (aget "y" i st <? bottomwall)%js then
    while fuel (λ st, aget "y" i st <? bottomwall - height)%js
               (λ st, aset "y" i (aget "y" i st + height)%js st) st
    >>> (λ st,
      let st := aset "y" i (bottomwall + (bottomwall - aget "y" i st))%js st in
      let st := aset "vy" i (aget "vy" i st * Fin (-1))%js st in
      Returned (aset "py" i (aget "py" i st * Fin (-1))%js st))
  else if (aget "y" i st >? topwall)%js then
    while fuel (λ st, aget "y" i st >? topwall + height)%js
               (λ st, aset "y" i (aget "y" i st - height)%js st) st
    >>> (λ st,
      let st := aset "y" i (topwall - (aget "y" i st - topwall))%js st in
      let st := aset "vy" i (aget "vy" i st * Fin (-1))%js st in
      Returned (aset "py" i (aget "py" i st * Fin (-1))%js st))
  else Returned st).

(** The local variables of [bounceParticleOffObstacles] that keep their
    value from one obstacle of the loop to the next; both start out
    [undefined]. *)
Record bounceLocals : Type := mkBounceLocals {
  vxPrev : option num;
  vyPrev : option num
}.

(** [vPrev ? vPrev : -v]. *)
Definition prevOrMinus (vPrev : option num) (v : num) : num :=
  match vPrev with
  | Some p => if truthy p then p else (- v)%js
  | None => (- v)%js
  end.

(** One turn of the loop over the obstacles in [bounceParticleOffObstacles],
    for obstacle j. *)
Definition bounceOffObstacle (i : nat) (r xi yi x_prev y_prev : num)
    (updatePressure : bool) (sl : engine * bounceLocals) (j : nat)
  : engine * bounceLocals :=
  let '(st, loc) := sl in
  let x_left := (oget "x" j st - r)%js in
  let x_right := (oget "x" j st + oget "width" j st + r)%js in
  let y_top := (oget "y" j st + oget "height" j st + r)%js in
  let y_bottom := (oget "y" j st - r)%js in
  let x_left_prev := (oget "xPrev" j st - r)%js in
  let x_right_prev := (oget "xPrev" j st + oget "width" j st + r)%js in
  let y_top_prev := (oget "yPrev" j st + oget "height" j st + r)%js in
  let y_bottom_prev := (oget "yPrev" j st - r)%js in
  (* Check all possibilities for a collision with the rectangular obstacle. *)
  let '(st, bounceDirection) :=
    if (xi >? x_left)%js && (xi <? x_right)%js
       && (yi >? y_bottom)%js && (yi <? y_top)%js then
      if (x_prev <=? x_left_prev)%js then
        (aset "x" i (x_left - (xi - x_left))%js st, 1%Z)
      else if (x_prev >=? x_right_prev)%js then
        (aset "x" i (x_right + (x_right - xi))%js st, 2%Z)
      else if (y_prev <=? y_bottom_prev)%js then
        (aset "y" i (y_bottom - (yi - y_bottom))%js st, (-1)%Z)
      else if (y_prev >=? y_top_prev)%js then
        (aset "y" i (y_top + (y_top - yi))%js st, (-2)%Z)
      else (st, 0%Z)
    else (st, 0%Z) in
  let obs_mass := oget "mass" j st in
  if (bounceDirection =? 0)%Z then (st, loc)
  else
    let '(st, loc) :=
      if negb (obs_mass === PInf)%js then
        (* real mass: a perfectly-elastic collision *)
        let atom_mass := aget "mass" i st in
        let totalMass := (obs_mass + atom_mass)%js in
        if (0 <? bounceDirection)%Z then
          let vxPrev' := aget "vx" i st in
          let obs_vxPrev := oget "vx" j st in
          let st :=
            aset "vx" i
              ((vxPrev' * (atom_mass - obs_mass)
                + Fin 2 * obs_mass * obs_vxPrev) / totalMass)%js st in
          let st :=
            oset "vx" j
              ((obs_vxPrev * (obs_mass - atom_mass)
                + Fin 2 * aget "px" i st) / totalMass)%js st in
          (st, mkBounceLocals (Some vxPrev') (vyPrev loc))
        else
          let vyPrev' := aget "vy" i st in
          let obs_vyPrev := oget "vy" j st in
          let st :=
            aset "vy" i
              ((vyPrev' * (atom_mass - obs_mass)
                + Fin 2 * obs_mass * obs_vyPrev) / totalMass)%js st in
          let st :=
            oset "vy" j
              ((obs_vyPrev * (obs_mass - atom_mass)
                + Fin 2 * aget "py" i st) / totalMass)%js st in
          (st, mkBounceLocals (vxPrev loc) (Some vyPrev'))
      else
        (* infinite mass: just reflect (like a wall) *)
        if (0 <? bounceDirection)%Z
        then (aset "vx" i (aget "vx" i st * Fin (-1))%js st, loc)
        else (aset "vy" i (aget "vy" i st * Fin (-1))%js st, loc) in
    if updatePressure then
      (* Update pressure probes if there are any. *)
      if truthy (oget "westProbe" j st) && (bounceDirection =? 1)%Z then
        (oset "wProbeValue" j
           (oget "wProbeValue" j st
            + aget "mass" i st
              * (prevOrMinus (vxPrev loc) (aget "vx" i st) - aget "vx" i st))%js
           st, loc)
      else if truthy (oget "eastProbe" j st) && (bounceDirection =? 2)%Z then
        (oset "eProbeValue" j
           (oget "eProbeValue" j st
            + aget "mass" i st
              * (aget "vx" i st - prevOrMinus (vxPrev loc) (aget "vx" i st)))%js
           st, loc)
      else if truthy (oget "southProbe" j st) && (bounceDirection =? -1)%Z then
        (oset "sProbeValue" j
           (oget "sProbeValue" j st
            + aget "mass" i st
              * (prevOrMinus (vyPrev loc) (aget "vy" i st) - aget "vy" i st))%js
           st, loc)
      else if truthy (oget "northProbe" j st) && (bounceDirection =? -2)%Z then
        (oset "nProbeValue" j
           (oget "nProbeValue" j st
            + aget "mass" i st
              * (aget "vy" i st - prevOrMinus (vyPrev loc) (aget "vy" i st)))%js
           st, loc)
      else (st, loc)
    else (st, loc).

Definition bounceParticleOffObstacles (i : nat) (x_prev y_prev : num)
    (updatePressure : bool) (st : engine) : engine :=
  (* fast path if no obstacles *)
  if (N_obstacles st <? 1)%nat then st
  else
    let r := aget "radius" i st in
    let xi := aget "x" i st in
    let yi := aget "y" i st in
    fst (foldl (bounceOffObstacle i r xi yi x_prev y_prev updatePressure)
               (st, mkBounceLocals None None) (seq 0 (N_obstacles st))).

(** *** Spring forces *)

(** [springForces[k][i]]: [k] is 0 for the atom index, 1 and 2 for the
    anchor, 3 for the strength. *)
Definition sget (k i : nat) (st : engine) : num :=
  rd (default [] (default [] (springForces st) !! k)) i.
Definition sset (k i : nat) (v : num) (st : engine) : engine :=
  set_springForces (alter (<[i:=v]>) k <$> springForces st) st.

Definition createSpringForcesArray (n : nat) (st : engine) : engine :=
  set_springForces (Some (replicate 4 (arrays_create n))) st.

(** [addSpringForce(atomIndex, x, y, strength)]; the index it returns is
    [N_springForces] of the state it is called in. *)
Definition addSpringForce (atomIndex x y strength : num) (st : engine) : engine :=
  let st :=
    match springForces st with
    | None => createSpringForcesArray 1 st
    | Some _ => st
    end in
  (* conservatively just add one spring force *)
  let st :=
    if (length (default [] (default [] (springForces st) !! 0%nat))
        <? N_springForces st)%nat
    then set_springForces
           ((λ l : list (list num),
               (λ a, arrays_extend a (N_springForces st + 1)) <$> l)
              <$> springForces st) st
    else st in
  let n := N_springForces st in
  let st := sset 0 n atomIndex st in
  let st := sset 1 n x st in
  let st := sset 2 n y st in
  let st := sset 3 n strength st in
  set_N_springForces (S n) st.

Definition updateSpringForce (i : nat) (x y : num) (st : engine) : engine :=
  sset 2 i y (sset 1 i x st).

Definition removeSpringForce (i : nat) (st : engine) : engine :=
  if (N_springForces st <=? i)%nat then st
  else set_N_springForces (N_springForces st - 1) st.

(** The indices over which [updateSpringForces] runs: the spring forces
    that act on the atoms in the next evaluation of the accelerations. *)
Definition appliedSpringForces (st : engine) : list nat :=
  seq 0 (N_springForces st).

(** [k[a] += v] on an array of [atoms], for an index [a] read from an
    array. *)
Definition addTo (k : string) (a : num) (v : num) (st : engine) : engine :=
  match to_index a with
  | Some a => aset k a (aget k a st + v)%js st
  | None => st
  end.

Definition atNum (k : string) (a : num) (st : engine) : num :=
  match to_index a with
  | Some a => aget k a st
  | None => NaN
  end.

(** The body of the loop of [updateSpringForces], for spring force i. *)
Definition applySpringForce (st : engine) (i : nat) : engine :=
  let a := sget 0 i st in
  let dx := (sget 1 i st - atNum "x" a st)%js in
  let dy := (sget 2 i st - atNum "y" a st)%js in
  if (dx === Fin 0)%js && (dy === Fin 0)%js then st
  else
    let r_sq := (dx * dx + dy * dy)%js in
    let r := Math_sqrt r_sq in
    let k := sget 3 i st in
    let f_over_r := ((k * r) * MW_FORCE_UNITS_PER_EV_PER_NM ext / r)%js in
    let fx := (f_over_r * dx)%js in
    let fy := (f_over_r * dy)%js in
    addTo "ay" a fy (addTo "ax" a fx st).

Definition updateSpringForces (st : engine) : engine :=
  if (N_springForces st <? 1)%nat then st
  else foldl applySpringForce st (appliedSpringForces st).

(** *** The integrator *)

Definition updateFrictionForces (st : engine) : engine :=
  if negb (truthy (viscosity st)) then st
  else
    foldl (λ st i,
             let drag := (viscosity st * aget "friction" i st)%js in
             let st := aset "ax" i (aget "ax" i st + (- aget "vx" i st) * drag)%js st in
             aset "ay" i (aget "ay" i st + (- aget "vy" i st) * drag)%js st)
          st (seq 0 (N st)).

Definition updateGravitationalAccelerations (st : engine) : engine :=
  if negb (truthy (gravitationalField st)) then st
  else
    foldl (λ st i, aset "ay" i (aget "ay" i st - gravitationalField st)%js st)
          st (seq 0 (N st)).

(** Accumulate acceleration into a(t + dt) from all possible interactions,
    fields and forces connected with atoms.  The upkeep of the cell list
    and of the neighbour list is not part of the model. *)
Definition updateParticlesAccelerations (st : engine) : engine :=
  (* Zero out a(t) for accumulation of forces into a(t + dt). *)
  let st := foldl (λ st i, aset "ay" i (Fin 0) (aset "ax" i (Fin 0) st))
                  st (seq 0 (N st)) in
  (* ax and ay are FORCES below this point *)
  let forces := pairAndBondForces ext st in
  let st := foldl (λ st i,
                     let st := aset "ax" i (aget "ax" i st + fst (forces i))%js st in
                     aset "ay" i (aget "ay" i st + snd (forces i))%js st)
                  st (seq 0 (N st)) in
  let st := updateSpringForces st in
  let st := updateFrictionForces st in
  (* Convert ax, ay from forces to accelerations! *)
  let st := foldl (λ st i,
                     let inverseMass := (Fin 1 / aget "mass" i st)%js in
                     let st := aset "ax" i (aget "ax" i st * inverseMass)%js st in
                     aset "ay" i (aget "ay" i st * inverseMass)%js st)
                  st (seq 0 (N st)) in
  (* ax and ay are ACCELERATIONS below this point *)
  updateGravitationalAccelerations st.

(** Half of the update of v(t + dt) and p(t + dt) using a. *)
Definition halfUpdateVelocity (st : engine) : engine :=
  foldl (λ st i,
           let m := aget "mass" i st in
           let st := aset "vx" i (aget "vx" i st + Fin (1 # 2) * aget "ax" i st * dt st)%js st in
           let st := aset "px" i (m * aget "vx" i st)%js st in
           let st := aset "vy" i (aget "vy" i st + Fin (1 # 2) * aget "ay" i st * dt st)%js st in
           aset "py" i (m * aget "vy" i st)%js st)
        st (seq 0 (N st)).

(** The test of [updateParticlesPosition] on the new position of atom i. *)
Definition hasDiverged (i : nat) (st : engine) : bool :=
  let width100 := (fst (size st) * Fin 100)%js in
  let height100 := (snd (size st) * Fin 100)%js in
  isNaN (aget "x" i st) || isNaN (aget "y" i st)
  || (Math_abs (aget "x" i st) >? width100)%js
  || (Math_abs (aget "y" i st) >? height100)%js.

(** [x[i] += vx[i] * dt; y[i] += vy[i] * dt]. *)
Definition driftAtom (i : nat) (st : engine) : engine :=
  let st := aset "x" i (aget "x" i st + aget "vx" i st * dt st)%js st in
  aset "y" i (aget "y" i st + aget "vy" i st * dt st)%js st.

(** The body of the loop of [updateParticlesPosition], for atom i. *)
Definition updateParticlePosition (fuel : nat) (i : nat) (st : engine)
  : outcome engine :=
  let xPrev := aget "x" i st in
  let yPrev := aget "y" i st in
  let st := driftAtom i st in
  (* Simple check if model has diverged. *)
  if hasDiverged i st then Threw "Model has diverged!" st
  else
    (* Bounce off walls. *)
    bounceParticleOffWalls fuel i st >>> (λ st,
    (* Bounce off obstacles, update pressure probes. *)
    Returned (bounceParticleOffObstacles i xPrev yPrev true st)).

(** Calculate r(t + dt, i) from v(t + 0.5 * dt). *)
Definition updateParticlesPosition (fuel : nat) (st : engine) : outcome engine :=
  forEach (updateParticlePosition fuel) (seq 0 (N st)) st.

(** Removes velocity and acceleration from pinned atoms. *)
Definition pinAtoms (st : engine) : engine :=
  foldl (λ st i,
           if truthy (aget "pinned" i st)
           then aset "vx" i (Fin 0) (aset "vy" i (Fin 0)
                  (aset "ax" i (Fin 0) (aset "ay" i (Fin 0) st)))
           else st)
        st (seq 0 (N st)).

(** Update speed using velocities. *)
Definition updateParticlesSpeed (st : engine) : engine :=
  foldl (λ st i,
           aset "speed" i
             (Math_sqrt (aget "vx" i st * aget "vx" i st
                         + aget "vy" i st * aget "vy" i st)%js) st)
        st (seq 0 (N st)).

(** The body of the loop of [updateObstaclesPosition], for obstacle i. *)
Definition updateObstaclePosition (fuel : nat) (i : nat) (st : engine)
  : outcome engine :=
  (* Fast path when obstacle isn't movable. *)
  if (oget "mass" i st === PInf)%js then Returned st
  else
    let vx := oget "vx" i st in
    let vy := oget "vy" i st in
    let extFx := oget "externalFx" i st in
    let extFy := oget "externalFy" i st in
    if truthy vx || truthy vy || truthy extFx || truthy extFy
       || truthy (gravitationalField st) then
      let drag := (viscosity st * oget "friction" i st)%js in
      let ax := (extFx - drag * vx)%js in
      let ay := (extFy - drag * vy - gravitationalField st)%js in
      let st := oset "xPrev" i (oget "x" i st) st in
      let st := oset "yPrev" i (oget "y" i st) st in
      (* Update positions. *)
      let st := oset "x" i (oget "x" i st
                            + (vx * dt st + Fin (1 # 2) * ax * dt_sq st))%js st in
      let st := oset "y" i (oget "y" i st
                            + (vy * dt st + Fin (1 # 2) * ay * dt_sq st))%js st in
      (* Update velocities. *)
      let st := oset "vx" i (oget "vx" i st + ax * dt st)%js st in
      let st := oset "vy" i (oget "vy" i st + ay * dt st)%js st in
      bounceObstacleOffWalls fuel i st
    else Returned st.

(** Calculate new obstacles position using simple integration method. *)
Definition updateObstaclesPosition (fuel : nat) (st : engine) : outcome engine :=
  forEach (updateObstaclePosition fuel) (seq 0 (N_obstacles st)) st.

(** The body of the loop of [integrate] for the loop counter [iloop]. *)
Definition integrationStep (fuel : nat) (tStart : num) (iloop : nat)
    (st : engine) : outcome engine :=
  let st := set_time (tStart + of_nat iloop * dt st)%js st in
  (* Calculate v(t + 0.5 * dt) using v(t) and a(t). *)
  let st := halfUpdateVelocity st in
  (* Update r(t + dt) using v(t + 0.5 * dt). *)
  updateParticlesPosition fuel st >>> (λ st,
  (* Accumulate accelerations into a(t + dt). *)
  let st := updateParticlesAccelerations st in
  let st := pinAtoms st in
  (* Calculate v(t + dt) using v(t + 0.5 * dt) and a(t + dt). *)
  let st := halfUpdateVelocity st in
  (* Now that we have velocity v(t + dt), update speed. *)
  let st := updateParticlesSpeed st in
  (* Move obstacles using very simple integration. *)
  updateObstaclesPosition fuel st >>> (λ st,
  (* Adjust temperature, e.g. when heat bath is enabled. *)
  adjustTemperature None false st)).

(** [for (iloop = ...; iloop <= steps; iloop++) body], given [fuel]
    iterations. *)
Fixpoint integrationLoop (fuel : nat) (body : nat → engine → outcome engine)
    (steps : num) (iloop : nat) (st : engine) : outcome engine :=
  if (of_nat iloop <=? steps)%js then
    match fuel with
    | O => OutOfFuel
    | S fuel' =>
        body iloop st >>> integrationLoop fuel' body steps (S iloop)
    end
  else Returned st.

(** [integrate(duration, _dt)]; [None] is an omitted argument.  Every
    loop of the call is given [fuel] iterations. *)
Definition integrate (fuel : nat) (duration _dt : option num) (st : engine)
  : outcome engine :=
  let tStart := time st in
  if negb (atomsHaveBeenCreated st) then
    Threw "md2d: integrate called before atoms created." st
  else
    (* How much time to integrate over, in fs. *)
    let duration := default (Fin 100) duration in
    (* The length of an integration timestep, in fs. *)
    let _dt := default (Fin 1) _dt in
    let st := set_dt _dt st in
    let st := set_dt_sq (dt st * dt st)%js st in
    (* Calculate accelerations a(t), where t = 0. *)
    let st := if (time st === Fin 0)%js
              then updateParticlesAccelerations st else st in
    (* Number of steps. *)
    let steps := Math_floor (duration / dt st)%js in
    integrationLoop fuel (integrationStep fuel tStart) steps 1 st >>> (λ st,
    Returned
      (set_pressureBuffers (updateBuffers ext duration (pressureBuffers st)) st)).

(** [relaxToTemperature(T)]; [None] is an omitted argument. *)
Definition relaxToTemperature (fuel : nat) (T : option num) (st : engine)
  : outcome engine :=
  let st := match T with Some t => set_T_target t st | None => st end in
  match validateTemperature (T_target st) with
  | Some msg => Threw msg st
  | None =>
      let st := beginTransientTemperatureChange st in
      (fix relax (n : nat) (st : engine) : outcome engine :=
         if temperatureChangeInProgress st then
           match n with
           | O => OutOfFuel
           | S n' => integrate fuel None None st >>> relax n'
           end
         else Returned st) fuel st
  end.

(** *** Obstacles *)

(** The method [useThermostat(v)] of the engine. *)
Definition engine_useThermostat (v : bool) (st : engine) : engine :=
  set_useThermostat v st.

Definition createObstaclesArray (n : nat) (st : engine) : engine :=
  set_obstacles (Some (createArrays OBSTACLE_PROPERTY_LIST n)) st.

(** The body of [for (key in props) obstacles[key][i] = props[key]]. *)
Definition setObstacleProperty (i : nat) (kv : string * num) (st : engine)
  : outcome engine :=
  match obstacles st with
  | Some m =>
      if bool_decide (is_Some (m !! kv.1)) then Returned (oset kv.1 i kv.2 st)
      else Threw "TypeError: Cannot set property of undefined" st
  | None => Threw "TypeError: Cannot read property of undefined" st
  end.

(** [setObstacleProperties(i, props)], for properties that are numbers. *)
Definition setObstacleProperties (i : nat) (props : list (string * num))
    (st : engine) : outcome engine :=
  (* If position is manually changed, update previous position also. *)
  let props :=
    match getProp "x" props with
    | Some v => setProp "xPrev" v props
    | None => props
    end in
  let props :=
    match getProp "y" props with
    | Some v => setProp "yPrev" v props
    | None => props
    end in
  forEach (setObstacleProperty i) props st >>> (λ st,
  let probe k := truthy (default NaN (getProp k props)) in
  if probe "westProbe" || probe "northProbe" || probe "eastProbe"
     || probe "southProbe"
  then Returned
         (set_pressureBuffers
            (initializeBuffers ext (obstacles st) (N_obstacles st)
               (pressureBuffers st)) st)
  else Returned st).

Definition addObstacle (props : list (string * num)) (st : engine)
  : outcome engine :=
  let st := if (N_obstacles st =? 0)%nat then createObstaclesArray 1 st else st in
  let st :=
    if (length (field (obstacles st) "x") <? N_obstacles st + 1)%nat
    then set_obstacles (extendArrays (obstacles st) (N_obstacles st + 1)) st
    else st in
  let st := set_N_obstacles (S (N_obstacles st)) st in
  setObstacleProperties (N_obstacles st - 1) props st.

(** *** Van der Waals pairs *)

(** A value stored in a [Uint16Array]. *)
Definition uint16 (n : nat) : nat := Z.to_nat (Z.of_nat n mod 65536).

(** [radialBondMatrix[i] && radialBondMatrix[i][j]]. *)
Definition radiallyBonded (st : engine) (i j : nat) : bool :=
  match radialBondMatrix st with
  | Some m =>
      match m !! i with
      | Some row => default false (row !! j)
      | None => false
      end
  | None => false
  end.

(** [vdwPairAtom1Index[N_vdwPairs] = i; vdwPairAtom2Index[N_vdwPairs] = j;
    N_vdwPairs++]. *)
Definition recordVdwPair (i j : nat) (st : engine) : engine :=
  let n := N_vdwPairs st in
  let st := set_vdwPairAtom1Index (<[n:=uint16 i]> <$> vdwPairAtom1Index st) st in
  let st := set_vdwPairAtom2Index (<[n:=uint16 j]> <$> vdwPairAtom2Index st) st in
  set_N_vdwPairs (S n) st.

(** The test that [updateVdwPairsArray] makes on the pair (i, j) once it
    has passed the test on radial bonds. *)
Definition vdwPairIsClose (st : engine) (i j : nat) : bool :=
  let distanceCutoff_sq := (vdwLinesRatio st * vdwLinesRatio st)%js in
  let index_i := aget "element" i st in
  let sigma_i := elementProperty "sigma" index_i st in
  let epsilon_i := elementProperty "sigma" index_i st in
  let x_i := aget "x" i st in
  let y_i := aget "y" i st in
  let index_j := aget "element" j st in
  let sigma_j := elementProperty "sigma" index_j st in
  let epsilon_j := elementProperty "sigma" index_j st in
  if (aget "charge" i st * aget "charge" j st <=? Fin 0)%js then
    let dx := (aget "x" j st - x_i)%js in
    let dy := (aget "y" j st - y_i)%js in
    let r_sq := (dx * dx + dy * dy)%js in
    let sig := (Fin (1 # 2) * (sigma_i + sigma_j))%js in
    let sig := (sig * sig)%js in
    let eps := (epsilon_i * epsilon_j)%js in
    (r_sq <? sig * distanceCutoff_sq)%js && (eps >? Fin 0)%js
  else false.

(** The body of the inner loop of [updateVdwPairsArray]. *)
Definition visitVdwPair (st : engine) (ij : nat * nat) : engine :=
  let '(i, j) := ij in
  if negb (N_radialBonds st =? 0)%nat && radiallyBonded st i j then st
  else if vdwPairIsClose st i j then recordVdwPair i j st
  else st.

(** The pairs (i, j) in the order the two nested loops visit them. *)
Definition atomPairs (n : nat) : list (nat * nat) :=
  i ← seq 0 n; (λ j, (i, j)) <$> seq (S i) (n - S i).

Definition updateVdwPairsArray (st : engine) : outcome engine :=
  let st := set_N_vdwPairs 0 st in
  match vdwPairAtom1Index st, vdwPairAtom2Index st with
  | Some _, Some _ =>
      let st := foldl visitVdwPair st (atomPairs (N st)) in
      Returned (set_vdwPairs_COUNT (N_vdwPairs st) st)
  | _, _ => Threw "TypeError: Cannot set property of undefined" st
  end.

Definition createVdwPairsArray (st : engine) : outcome engine :=
  let maxNumPairs := (N st * (N st - 1) / 2)%nat in
  let st := set_vdwPairs_COUNT (N_vdwPairs st) st in
  let st := set_vdwPairAtom1Index (Some (replicate maxNumPairs 0%nat)) st in
  let st := set_vdwPairAtom2Index (Some (replicate maxNumPairs 0%nat)) st in
  updateVdwPairsArray st.

(** The pairs that the arrays of [vdwPairs] hold: the first
    [vdwPairs[COUNT]] entries of the two index arrays. *)
Definition recordedVdwPairs (st : engine) : list (nat * nat) :=
  zip (take (vdwPairs_COUNT st) (default [] (vdwPairAtom1Index st)))
      (take (vdwPairs_COUNT st) (default [] (vdwPairAtom2Index st))).

End Engine.

Arguments engine : clear implicits.
Arguments externals : clear implicits.

(** ** A concrete engine *)

(** A fresh engine, as [createEngine] leaves its variables. *)
Definition createEngine {PB W : Type} (pb : PB) : engine PB W :=
  {| sizeHasBeenInitialized := false;
     atomsHaveBeenCreated := false;
     elementsHaveBeenCreated := false;
     hasChargedAtoms := false;
     chargedAtomsList := [];
     useThermostat := false;
     vdwLinesRatio := Fin (167 # 100);
     gravitationalField := Fin 0;
     temperatureChangeInProgress := false;
     T_target := NaN;
     size := (Fin 10, Fin 10);
     viscosity := NaN;
     time := Fin 0;
     dt := NaN;
     dt_sq := NaN;
     N := 0;
     atoms := None;
     elements := None;
     N_elements := 0;
     elementUsed := ∅;
     radialBondMatrix := None;
     N_radialBonds := 0;
     obstacles := None;
     N_obstacles := 0;
     pressureBuffers := pb;
     vdwPairs_COUNT := 0;
     N_vdwPairs := 0;
     vdwPairAtom1Index := None;
     vdwPairAtom2Index := None;
     springForces := None;
     N_springForces := 0;
     T := NaN;
     T_windowed := None |}.

(** Stand-ins for the absent modules, used to run the engine on examples:
    the pressure buffers keep the total time they were advanced by, a
    windowed averager gives back the last value, no pair or bond forces,
    every unit factor is 1 and the radius of an element is half its sigma. *)
Definition plainExternals : externals num unit :=
  {| JOULES_PER_MW_ENERGY_UNIT := Fin 1;
     BOLTZMANN_CONSTANT_IN_JOULES := Fin 1;
     MW_FORCE_UNITS_PER_EV_PER_NM := Fin 1;
     lennardJones_radius := λ sigma, (Fin (1 # 2) * sigma)%js;
     pairAndBondForces := λ _ _, (Fin 0, Fin 0);
     initializeBuffers := λ _ _ pb, pb;
     updateBuffers := λ duration pb, (pb + duration)%js;
     getWindowedAverager := λ _, tt;
     windowedAverage := λ w t, (t, w) |}.

(** The state an operation leaves, whether it returned or threw. *)
Definition stateOf {S : Type} (fallback : S) (r : outcome S) : S :=
  match r with
  | Returned s | Threw _ s => s
  | OutOfFuel => fallback
  end.

Definition hasReturned {S : Type} (r : outcome S) : bool :=
  match r with Returned _ => true | _ => false end.

Definition hasThrown {S : Type} (r : outcome S) : bool :=
  match r with Threw _ _ => true | _ => false end.

(** *** Engines built through the public operations *)

Definition freshEngine : engine num unit := createEngine (Fin 0).

(** One element of mass 1 and sigma 0.2 (so of radius 0.1). *)
Definition lightElement : elementProps :=
  mkElementProps (Some (Fin 1)) (Some (Fin (-1 # 100))) (Some (Fin (2 # 10))).

Definition withElements : engine num unit :=
  stateOf freshEngine (initializeElements plainExternals [lightElement] freshEngine).

(** One atom in the middle of the default 10 x 10 domain, moving along x. *)
Definition oneMovingAtom : engine num unit :=
  stateOf freshEngine
    (createAtomsArray (Some (Fin 1)) withElements
     >>> addAtom
           [("element", Fin 0); ("x", Fin 5); ("y", Fin 5);
            ("vx", Fin 1); ("vy", Fin 0)]).


(** One atom with velocity (2, 0) and mass 1, the thermostat on with a
    target four times the temperature the atom has. *)
Definition oneWarmAtom : engine num unit :=
  stateOf freshEngine
    (createAtomsArray (Some (Fin 1)) withElements
     >>> addAtom
           [("element", Fin 0); ("x", Fin 5); ("y", Fin 5);
            ("vx", Fin 2); ("vy", Fin 0)]
     >>> setTargetTemperature (Fin 8)
     >>> (λ st, Returned (engine_useThermostat true st))).

(** An atom at rest just west of a movable obstacle of the same mass that
    moves west at 0.1 nm/fs and has its west probe enabled. *)
Definition atomInFrontOfObstacle : engine num unit :=
  stateOf freshEngine
    (createAtomsArray (Some (Fin 1)) withElements
     >>> addAtom
           [("element", Fin 0); ("x", Fin (485 # 100)); ("y", Fin 5);
            ("vx", Fin 0); ("vy", Fin 0)]
     >>> addObstacle plainExternals
           [("x", Fin 5); ("y", Fin (45 # 10)); ("width", Fin 1);
            ("height", Fin 1); ("mass", Fin 1); ("vx", Fin (-1 # 10));
            ("vy", Fin 0); ("westProbe", Fin 1)]
     >>> (λ st, Returned (setViscosity (Fin 0) st))).

(** The same engine one step of 1 fs later: the obstacle has moved onto the
    atom, the atom has not been moved yet. *)
Definition obstacleOverAtom : engine num unit :=
  stateOf freshEngine
    (integrate plainExternals 10 (Some (Fin 1)) (Some (Fin 1))
       atomInFrontOfObstacle).


Definition wideElement : elementProps :=
  mkElementProps (Some (Fin 1)) (Some (Fin (-1 # 100))) (Some (Fin 1)).


(** Three uncharged atoms of the element of sigma 1. *)
Definition threeWideAtoms : engine num unit :=
  stateOf freshEngine
    (initializeElements plainExternals [wideElement] freshEngine
     >>> createAtomsArray (Some (Fin 3))
     >>> addAtom
           [("element", Fin 0); ("x", Fin 5); ("y", Fin 5)]
     >>> addAtom
           [("element", Fin 0); ("x", Fin (11 # 2)); ("y", Fin 5)]
     >>> addAtom
           [("element", Fin 0); ("x", Fin 9); ("y", Fin 9)]).

(** The same engine with its VdW pair arrays allocated. *)
Definition threeWideAtomsPaired : engine num unit :=
  stateOf freshEngine (createVdwPairsArray threeWideAtoms).

(** Three spring forces on the moving atom. *)
Definition threeSprings : engine num unit :=
  addSpringForce (Fin 0) (Fin 3) (Fin 3) (Fin 30)
    (addSpringForce (Fin 0) (Fin 2) (Fin 2) (Fin 20)
       (addSpringForce (Fin 0) (Fin 1) (Fin 1) (Fin 10) oneMovingAtom)).

(** The moving atom after one step of 1 fs: the time step is set and the
    atom is at x = 6. *)
Definition oneDriftingAtom : engine num unit :=
  stateOf oneMovingAtom
    (integrate plainExternals 101 (Some (Fin 1)) (Some (Fin 1)) oneMovingAtom).

(** One atom that crosses 200 domain widths in one step of 1 fs. *)
Definition fastAtom : engine num unit :=
  stateOf freshEngine
    (createAtomsArray (Some (Fin 1)) withElements
     >>> addAtom
           [("element", Fin 0); ("x", Fin 5); ("y", Fin 5);
            ("vx", Fin 2000); ("vy", Fin 0)]).

(** ** The claims in the words of the specification *)



(** [px[i] = mass[i]*vx[i]] and [py[i] = mass[i]*vy[i]]. *)
Definition momentumConsistent {PB W : Type} (st : engine PB W) (i : nat) : Prop :=
  aget "px" i st ≈ (aget "mass" i st * aget "vx" i st)%js
  ∧ aget "py" i st ≈ (aget "mass" i st * aget "vy" i st)%js.

(** The divergence condition for atom i of the state before the drift: a
    new coordinate [x + vx*dt] or [y + vy*dt] that is [NaN] or larger in
    absolute value than 100 times the width, respectively the height. *)
Definition divergedAsSpecified {PB W : Type} (st : engine PB W) (i : nat) : bool :=
  let x' := (aget "x" i st + aget "vx" i st * dt st)%js in
  let y' := (aget "y" i st + aget "vy" i st * dt st)%js in
  isNaN x' || isNaN y'
  || (Math_abs x' >? Fin 100 * fst (size st))%js
  || (Math_abs y' >? Fin 100 * snd (size st))%js.


Local Close Scope Q_scope.

(** ** Notions used in the statements and proofs *)

(** The sign of a product. *)
Definition smul (s t : comparison) : comparison :=
  match s, t with
  | Eq, _ | _, Eq => Eq
  | Gt, Gt | Lt, Lt => Gt
  | _, _ => Lt
  end.

(** [modifies P Q st st']: from [st] to [st'] nothing has changed but
    cells [k[i]] of [atoms] with [P k i] and cells of [obstacles] with
    [Q k i]; no array has changed its length. *)
Definition modifies {PB W : Type} (P Q : string → nat → Prop)
    (st st' : engine PB W) : Prop :=
  st' = set_obstacles (obstacles st') (set_atoms (atoms st') st)
  ∧ (∀ k i, ¬ P k i → aget k i st' = aget k i st)
  ∧ (∀ k i, ¬ Q k i → oget k i st' = oget k i st)
  ∧ (∀ k, length (field (atoms st') k) = length (field (atoms st) k)).






(** [st'] is [st] with the velocity and the momentum of every atom and the
    velocity of every obstacle multiplied by [f], the masses unchanged. *)
Definition velocitiesScaled {PB W : Type} (f : num) (st st' : engine PB W)
  : Prop :=
  N st' = N st ∧ N_obstacles st' = N_obstacles st
  ∧ (∀ i, i < N st →
       aget "mass" i st' = aget "mass" i st
       ∧ aget "vx" i st' = (aget "vx" i st * f)%js
       ∧ aget "vy" i st' = (aget "vy" i st * f)%js
       ∧ aget "px" i st' = (aget "px" i st * f)%js
       ∧ aget "py" i st' = (aget "py" i st * f)%js)
  ∧ (∀ j, j < N_obstacles st →
       oget "mass" j st' = oget "mass" j st
       ∧ oget "vx" j st' = (oget "vx" j st * f)%js
       ∧ oget "vy" j st' = (oget "vy" j st * f)%js).

Definition isVelocityKey (k : string) : Prop :=
  k = "vx" ∨ k = "vy" ∨ k = "px" ∨ k = "py".

(** The arrays of an atom that a drift and its bounces write. *)
Definition isMotionKey (k : string) : Prop :=
  k = "x" ∨ k = "y" ∨ k = "vx" ∨ k = "vy" ∨ k = "px" ∨ k = "py".

(** One axis of [bounceParticleOffWalls]: the position [pos[i]] is kept
    between [r] and [extent - r], the velocity [vel[i]] and the momentum
    [mom[i]] change sign on a bounce. *)
Definition bounceAxis {PB W : Type} (fuel : nat) (i : nat) (pos vel mom : string)
    (r extent : num) (st : engine PB W) : outcome (engine PB W) :=
  if (aget pos i st <? r)%js then
    while fuel (λ st, aget pos i st <? r - extent)%js
               (λ st, aset pos i (aget pos i st + extent)%js st) st
    >>> (λ st,
      let st := aset pos i (r + (r - aget pos i st))%js st in
      let st := aset vel i (aget vel i st * Fin (-1))%js st in
      Returned (aset mom i (aget mom i st * Fin (-1))%js st))
  else if (aget pos i st >? extent - r)%js then
    while fuel (λ st, aget pos i st >? extent - r + extent)%js
               (λ st, aset pos i (aget pos i st - extent)%js st) st
    >>> (λ st,
      let st := aset pos i (extent - r - (aget pos i st - (extent - r)))%js st in
      let st := aset vel i (aget vel i st * Fin (-1))%js st in
      Returned (aset mom i (aget mom i st * Fin (-1))%js st))
  else Returned st.

(** The body of the loop of [updateParticlesPosition] without the
    divergence check: move atom i, bounce it off the walls, then off the
    obstacles with the position before the move and the pressure probes
    updated. *)
Definition driftAndBounce {PB W : Type} (fuel : nat) (i : nat)
    (st : engine PB W) : outcome (engine PB W) :=
  bounceParticleOffWalls fuel i (driftAtom i st)
  >>> (λ st', Returned (bounceParticleOffObstacles i (aget "x" i st)
                          (aget "y" i st) true st')).

(** In [s] the atoms before [a] have been moved, the others are as in
    [st]. *)
Definition moved {PB W : Type} (st : engine PB W) (a : nat) (s : engine PB W)
  : Prop :=
  modifies (λ k j, j < a ∧ isMotionKey k) (λ _ _, True) st s.


(** ** Further functions of the engine, loop bodies and invariants *)

(** [atomInBounds(_x, _y, i)]: whether atom i, were it at (_x, _y), would
    lie between the walls and outside every obstacle. *)
Definition atomInBounds {PB W : Type} (_x _y : num) (i : nat)
    (st : engine PB W) : bool :=
  let r := aget "radius" i st in
  if (_x <? r)%js || (_x >? fst (size st) - r)%js
     || (_y <? r)%js || (_y >? snd (size st) - r)%js
  then false
  else
    forallb
      (λ j,
         negb ((_x >? oget "x" j st - r)%js
               && (_x <? oget "x" j st + oget "width" j st + r)%js
               && (_y >? oget "y" j st - r)%js
               && (_y <? oget "y" j st + oget "height" j st + r)%js))
      (seq 0 (N_obstacles st)).

(** The arrays of [elements] all have room for [c] elements. *)
Definition elementsCapacity {PB W : Type} (st : engine PB W) (c : nat)
  : Prop :=
  is_Some (elements st)
  ∧ ∀ k, k ∈ ELEMENT_PROPERTY_LIST → length (field (elements st) k) = c.

(** The list of charged atoms after [setAtomProperties(i, props)], from
    the charge [c] of atom i before the call, the charge [pc] given in
    [props] and the list [l] before the call; [None] when the removal of an
    index that is not in the list fails. *)
Definition chargedAtomsAfter (i : nat) (c : num) (pc : option num)
    (l : list nat) : option (list nat) :=
  if (c === Fin 0)%js
     && match pc with Some v => negb (v === Fin 0)%js | None => false end
  then Some (l ++ [i])
  else if negb (c === Fin 0)%js
          && match pc with Some v => (v === Fin 0)%js | None => false end
  then
    match indexOf i l with
    | Some idx => Some (take idx l ++ drop (S idx) l)
    | None => None
    end
  else Some l.

(** The properties written by [setAtomProperties(i, props)]: those of
    [props], with the mass and the radius of the element when [props] names
    one. *)
Definition atomPropsWritten {PB W : Type} (props : list (string * num))
    (st : engine PB W) : list (string * num) :=
  match getProp "element" props with
  | Some e =>
      setProp "radius" (elementProperty "radius" e st)
        (setProp "mass" (elementProperty "mass" e st) props)
  | None => props
  end.

(** [chargedAtomsList] lists, without repetition, the atoms whose charge is
    not zero, and [hasChargedAtoms] tells whether there is one. *)
Definition chargedAtomsListed {PB W : Type} (st : engine PB W) : Prop :=
  NoDup (chargedAtomsList st)
  ∧ ∀ j, j ∈ chargedAtomsList st
         ↔ j < length (field (atoms st) "charge")
           ∧ (aget "charge" j st === Fin 0)%js = false.

(** Every property array of the atoms has room for [c] atoms. *)
Definition atomArrays {PB W : Type} (st : engine PB W) (c : nat) : Prop :=
  0 < c ∧ ∀ k, k ∈ ATOM_PROPERTY_LIST → length (field (atoms st) k) = c.

(** The properties of an atom that the integrator writes. *)
Definition isDynamicKey (k : string) : Prop :=
  k = "x" ∨ k = "y" ∨ k = "vx" ∨ k = "vy" ∨ k = "px" ∨ k = "py"
  ∨ k = "ax" ∨ k = "ay" ∨ k = "speed".

(** From [st] to [s] the set-up of the model is as it was: the number of
    atoms and of obstacles, the size of the domain, the elements, the
    lengths of the arrays of the atoms, and every property of an atom that
    is not written by the integrator. *)
Definition setupKept {PB W : Type} (st s : engine PB W) : Prop :=
  N s = N st ∧ N_obstacles s = N_obstacles st ∧ size s = size st
  ∧ elements s = elements st
  ∧ (∀ k, length (field (atoms s) k) = length (field (atoms st) k))
  ∧ ∀ k j, ¬ isDynamicKey k → aget k j s = aget k j st.

(** One turn of the loop of [halfUpdateVelocity]. *)
Definition halfUpdateAtom {PB W : Type} (s : engine PB W) (i : nat)
  : engine PB W :=
  let m := aget "mass" i s in
  let s := aset "vx" i (aget "vx" i s + Fin (1 # 2) * aget "ax" i s * dt s)%js s in
  let s := aset "px" i (m * aget "vx" i s)%js s in
  let s := aset "vy" i (aget "vy" i s + Fin (1 # 2) * aget "ay" i s * dt s)%js s in
  aset "py" i (m * aget "vy" i s)%js s.

(** [px[i] = mass[i]*vx[i]] and [py[i] = mass[i]*vy[i]] for every atom. *)
Definition momentaConsistent {PB W : Type} (s : engine PB W) : Prop :=
  ∀ i, i < N s → momentumConsistent s i.

(** One turn of the loop of [pinAtoms]. *)
Definition pinAtom {PB W : Type} (st : engine PB W) (i : nat) : engine PB W :=
  if truthy (aget "pinned" i st)
  then aset "vx" i (Fin 0) (aset "vy" i (Fin 0)
         (aset "ax" i (Fin 0) (aset "ay" i (Fin 0) st)))
  else st.

(** The properties of an atom that [pinAtoms] writes. *)
Definition isPinKey (k : string) : Prop :=
  k = "vx" ∨ k = "vy" ∨ k = "ax" ∨ k = "ay".

(** The position [q] of the centre of an atom of radius [ρ] mirrored at the
    wall it has crossed, for walls at 0 and [w], and the velocity that goes
    with it. *)
Definition reflected (ρ w q : Q) : Q :=
  if Qltb q ρ then 2 * ρ - q
  else if Qltb (w - ρ) q then 2 * (w - ρ) - q
  else q.

Definition flipped (ρ w q : Q) (v : num) : num :=
  if Qltb q ρ || Qltb (w - ρ) q then (v * Fin (-1))%js else v.

(** The accumulators of the pressure probes of an obstacle. *)
Definition isProbeValueKey (k : string) : Prop :=
  k = "wProbeValue" ∨ k = "eProbeValue" ∨ k = "sProbeValue" ∨ k = "nProbeValue".

(** The three parts of one turn of the loop of [bounceParticleOffObstacles]:
    the test for a collision of atom i with obstacle j, which moves the
    atom back and gives the side that was hit (0 for no collision); the
    exchange of velocities; the update of the pressure probes. *)
Definition obstacleHit {PB W : Type} (i : nat) (r xi yi x_prev y_prev : num)
    (j : nat) (st : engine PB W) : engine PB W * Z :=
  let x_left := (oget "x" j st - r)%js in
  let x_right := (oget "x" j st + oget "width" j st + r)%js in
  let y_top := (oget "y" j st + oget "height" j st + r)%js in
  let y_bottom := (oget "y" j st - r)%js in
  let x_left_prev := (oget "xPrev" j st - r)%js in
  let x_right_prev := (oget "xPrev" j st + oget "width" j st + r)%js in
  let y_top_prev := (oget "yPrev" j st + oget "height" j st + r)%js in
  let y_bottom_prev := (oget "yPrev" j st - r)%js in
  if (xi >? x_left)%js && (xi <? x_right)%js
     && (yi >? y_bottom)%js && (yi <? y_top)%js then
    if (x_prev <=? x_left_prev)%js then
      (aset "x" i (x_left - (xi - x_left))%js st, 1%Z)
    else if (x_prev >=? x_right_prev)%js then
      (aset "x" i (x_right + (x_right - xi))%js st, 2%Z)
    else if (y_prev <=? y_bottom_prev)%js then
      (aset "y" i (y_bottom - (yi - y_bottom))%js st, (-1)%Z)
    else if (y_prev >=? y_top_prev)%js then
      (aset "y" i (y_top + (y_top - yi))%js st, (-2)%Z)
    else (st, 0%Z)
  else (st, 0%Z).

Definition exchangeVelocities {PB W : Type} (i j : nat) (bounceDirection : Z)
    (st : engine PB W) (loc : bounceLocals) : engine PB W * bounceLocals :=
  let obs_mass := oget "mass" j st in
  if negb (obs_mass === PInf)%js then
    let atom_mass := aget "mass" i st in
    let totalMass := (obs_mass + atom_mass)%js in
    if (0 <? bounceDirection)%Z then
      let vxPrev' := aget "vx" i st in
      let obs_vxPrev := oget "vx" j st in
      let st :=
        aset "vx" i
          ((vxPrev' * (atom_mass - obs_mass)
            + Fin 2 * obs_mass * obs_vxPrev) / totalMass)%js st in
      let st :=
        oset "vx" j
          ((obs_vxPrev * (obs_mass - atom_mass)
            + Fin 2 * aget "px" i st) / totalMass)%js st in
      (st, mkBounceLocals (Some vxPrev') (vyPrev loc))
    else
      let vyPrev' := aget "vy" i st in
      let obs_vyPrev := oget "vy" j st in
      let st :=
        aset "vy" i
          ((vyPrev' * (atom_mass - obs_mass)
            + Fin 2 * obs_mass * obs_vyPrev) / totalMass)%js st in
      let st :=
        oset "vy" j
          ((obs_vyPrev * (obs_mass - atom_mass)
            + Fin 2 * aget "py" i st) / totalMass)%js st in
      (st, mkBounceLocals (vxPrev loc) (Some vyPrev'))
  else
    if (0 <? bounceDirection)%Z
    then (aset "vx" i (aget "vx" i st * Fin (-1))%js st, loc)
    else (aset "vy" i (aget "vy" i st * Fin (-1))%js st, loc).

Definition updateProbes {PB W : Type} (i j : nat) (bounceDirection : Z)
    (st : engine PB W) (loc : bounceLocals) : engine PB W * bounceLocals :=
  if truthy (oget "westProbe" j st) && (bounceDirection =? 1)%Z then
    (oset "wProbeValue" j
       (oget "wProbeValue" j st
        + aget "mass" i st
          * (prevOrMinus (vxPrev loc) (aget "vx" i st) - aget "vx" i st))%js
       st, loc)
  else if truthy (oget "eastProbe" j st) && (bounceDirection =? 2)%Z then
    (oset "eProbeValue" j
       (oget "eProbeValue" j st
        + aget "mass" i st
          * (aget "vx" i st - prevOrMinus (vxPrev loc) (aget "vx" i st)))%js
       st, loc)
  else if truthy (oget "southProbe" j st) && (bounceDirection =? -1)%Z then
    (oset "sProbeValue" j
       (oget "sProbeValue" j st
        + aget "mass" i st
          * (prevOrMinus (vyPrev loc) (aget "vy" i st) - aget "vy" i st))%js
       st, loc)
  else if truthy (oget "northProbe" j st) && (bounceDirection =? -2)%Z then
    (oset "nProbeValue" j
       (oget "nProbeValue" j st
        + aget "mass" i st
          * (aget "vy" i st - prevOrMinus (vyPrev loc) (aget "vy" i st)))%js
       st, loc)
  else (st, loc).

(** The length of the array [springForces[k]]; 0 when there is none. *)
Definition springLength {PB W : Type} (k : nat) (st : engine PB W) : nat :=
  length (default [] (default [] (springForces st) !! k)).

(** The four arrays of the spring forces exist and have room for [c]
    spring forces. *)
Definition springArrays {PB W : Type} (st : engine PB W) (c : nat) : Prop :=
  ∃ l, springForces st = Some l ∧ length l = 4 ∧ ∀ a, a ∈ l → length a = c.


(** *** Further example engines *)

(** Room for two atoms, none added yet. *)
Definition twoAtomSlots : engine num unit :=
  stateOf freshEngine (createAtomsArray (Some (Fin 2)) withElements).

(** The moving atom put a quarter of a nanometre beyond the west wall. *)
Definition atomBeyondWall : engine num unit :=
  stateOf oneMovingAtom
    (setAtomProperties 0 [("x", Fin (-1 # 4))] oneMovingAtom).

(** One pinned atom that was given a velocity. *)
Definition onePinnedAtom : engine num unit :=
  stateOf freshEngine
    (createAtomsArray (Some (Fin 1)) withElements
     >>> addAtom
           [("element", Fin 0); ("x", Fin 5); ("y", Fin 5);
            ("vx", Fin 1); ("vy", Fin 0); ("pinned", Fin 1)]).

(** One spring force of strength 2 that pulls the moving atom, at (5, 5),
    towards (8, 9). *)
Definition oneSpring : engine num unit :=
  addSpringForce (Fin 0) (Fin 8) (Fin 9) (Fin 2) oneMovingAtom.
(** * Properties *)

(** ** Lifecycle: [setSize], [createAtomsArray], temperatures *)

Section Lifecycle.

Context {PB W : Type}.
Implicit Types st : engine PB W.

Lemma createAtomsArray_ordering_unchanged st num :
  elementsHaveBeenCreated st = false ∨ atomsHaveBeenCreated st = true →
  ∃ msg, createAtomsArray num st = Threw msg st.
Proof.
  intros [H|H]; unfold createAtomsArray; rewrite H; simpl; [by eexists|].
  destruct (elementsHaveBeenCreated st); simpl; by eexists.
Qed.

Lemma createAtomsArray_sets_flags_first st num :
  elementsHaveBeenCreated st = true →
  atomsHaveBeenCreated st = false →
  sizeHasBeenInitialized (stateOf st (createAtomsArray num st)) = true
  ∧ atomsHaveBeenCreated (stateOf st (createAtomsArray num st)) = true.
Proof.
  intros He Ha. unfold createAtomsArray. rewrite He, Ha. simpl.
  destruct num as [n|]; [|done].
  repeat case_match; done.
Qed.

Lemma validateTemperature_rejects v :
  isNaN v = true ∨ (v <? Fin 0)%js = true ∨ v = PInf →
  is_Some (validateTemperature v).
Proof.
  intros H. unfold validateTemperature.
  destruct H as [H|[H| ->]]; [by rewrite H| |done].
  rewrite H. by destruct (isNaN v).
Qed.

Lemma setTargetTemperature_invalid_unchanged st v :
  isNaN v = true ∨ (v <? Fin 0)%js = true ∨ v = PInf →
  ∃ msg, setTargetTemperature v st = Threw msg st.
Proof.
  intros H. unfold setTargetTemperature.
  destruct (validateTemperature_rejects v H) as [msg ->]. by eexists.
Qed.

(** C9, as amended.  The size is locked by [createAtomsArray], not by
    [setSize]: once [createAtomsArray] has been called with elements present
    and no atoms yet (whether it then returns or fails on its count),
    [setSize] throws and leaves the state, hence the stored size, as it is;
    as long as the size is not locked, [setSize] returns with the stored
    size replaced and the size still not locked. *)
Theorem setSize_locked_by_createAtomsArray st num v :
  (elementsHaveBeenCreated st = true →
   atomsHaveBeenCreated st = false →
   setSize v (stateOf st (createAtomsArray num st))
   = Threw "The molecular model's size has already been set, and cannot be reset."
       (stateOf st (createAtomsArray num st)))
  ∧ (sizeHasBeenInitialized st = false →
     ∃ st', setSize v st = Returned st'
            ∧ sizeHasBeenInitialized st' = false
            ∧ size st' =
                (if truthy v.1 && (v.1 >? Fin 0)%js then v.1 else Fin 10,
                 if truthy v.2 && (v.2 >? Fin 0)%js then v.2 else Fin 10)).
Proof.
  split.
  - intros He Ha.
    destruct (createAtomsArray_sets_flags_first st num He Ha) as [Hs _].
    unfold setSize. by rewrite Hs.
  - intros Hs. unfold setSize. rewrite Hs. by eexists.
Qed.

End Lifecycle.

Lemma setSize_locked_by_createAtomsArray_witness :
  setSize (Fin 7, Fin 7)
    (stateOf withElements (createAtomsArray (Some (Fin 1)) withElements))
  = Threw "The molecular model's size has already been set, and cannot be reset."
      (stateOf withElements (createAtomsArray (Some (Fin 1)) withElements))
  ∧ ∃ st', setSize (Fin 7, Fin 7) withElements = Returned st'
           ∧ sizeHasBeenInitialized st' = false
           ∧ size st' = (Fin 7, Fin 7).
Proof.
  destruct (setSize_locked_by_createAtomsArray withElements (Some (Fin 1))
              (Fin 7, Fin 7)) as [Hlocked Hopen].
  split.
  - apply Hlocked; reflexivity.
  - apply Hopen; reflexivity.
Defined.

(** C9 as stated fails: on a fresh engine a second [setSize] returns and
    replaces the size stored by the first. *)
Lemma setSize_twice_before_atoms :
  ∃ st1 st2,
    setSize (Fin 5, Fin 5) freshEngine = Returned st1
    ∧ size st1 = (Fin 5, Fin 5)
    ∧ setSize (Fin 7, Fin 7) st1 = Returned st2
    ∧ size st2 = (Fin 7, Fin 7).
Proof. do 2 eexists. repeat split. Qed.

(** C3 at its failing inputs.  With elements present and no atoms yet,
    [createAtomsArray(1.5)] throws, but only after it has set
    [atomsHaveBeenCreated] and [sizeHasBeenInitialized]: a later
    [createAtomsArray(5)] and a later [setSize], which both return on the
    state before the failing call, now throw.  [relaxToTemperature(-1)]
    throws, but only after it has stored -1 as the target temperature. *)
Theorem createAtomsArray_bad_count_changes_state :
  createAtomsArray (Some (Fin (3 # 2))) withElements
  = Threw "md2d: createAtoms was passed a non-integral 'num' option."
      (set_sizeHasBeenInitialized true
         (set_atomsHaveBeenCreated true withElements))
  ∧ atomsHaveBeenCreated withElements = false
  ∧ sizeHasBeenInitialized withElements = false
  ∧ hasReturned (createAtomsArray (Some (Fin 5)) withElements) = true
  ∧ hasThrown
      (createAtomsArray (Some (Fin 5))
         (stateOf withElements
            (createAtomsArray (Some (Fin (3 # 2))) withElements))) = true
  ∧ hasReturned (setSize (Fin 5, Fin 5) withElements) = true
  ∧ hasThrown
      (setSize (Fin 5, Fin 5)
         (stateOf withElements
            (createAtomsArray (Some (Fin (3 # 2))) withElements))) = true
  ∧ hasThrown
      (relaxToTemperature plainExternals 10 (Some (Fin (-1))) oneMovingAtom)
    = true
  ∧ T_target oneMovingAtom = NaN
  ∧ T_target
      (stateOf oneMovingAtom
         (relaxToTemperature plainExternals 10 (Some (Fin (-1))) oneMovingAtom))
    = Fin (-1).
Proof. vm_compute. repeat split; reflexivity. Qed.


(** ** Arithmetic of the number model *)

Section Numbers.

Local Open Scope Q_scope.

Lemma Qcompare_cases (p q : Q) : CompareSpec (p == q) (p < q) (q < p) (p ?= q).
Proof.
  destruct (p ?= q) eqn:H; constructor.
  - by apply Qeq_alt.
  - by apply Qlt_alt.
  - by apply Qgt_alt.
Qed.

Lemma Qmul_neg_pos (p q : Q) : p < 0 → 0 < q → p * q < 0.
Proof.
  intros Hp Hq. apply Qlt_le_trans with (0 * q).
  - by apply Qmult_lt_compat_r.
  - rewrite Qmult_0_l. apply Qle_refl.
Qed.

Lemma Qmul_neg_neg (p q : Q) : p < 0 → q < 0 → 0 < p * q.
Proof.
  intros Hp Hq. assert (E : p * q == (- p) * (- q)) by ring.
  rewrite E. apply Qmult_lt_0_compat; lra.
Qed.

Lemma sgn_mul (p q : Q) : (Qred (p * q) ?= 0) = smul (p ?= 0) (q ?= 0).
Proof.
  rewrite Qred_correct.
  destruct (Qcompare_cases p 0) as [Hp|Hp|Hp],
           (Qcompare_cases q 0) as [Hq|Hq|Hq]; simpl.
  all: try (apply Qeq_alt; rewrite ?Hp, ?Hq; ring).
  - apply Qgt_alt. by apply Qmul_neg_neg.
  - apply Qlt_alt. by apply Qmul_neg_pos.
  - apply Qlt_alt. rewrite Qmult_comm. by apply Qmul_neg_pos.
  - apply Qgt_alt. by apply Qmult_lt_0_compat.
Qed.

#[export] Instance num_eq_equiv : Equivalence num_eq.
Proof.
  split.
  - intros [q| | |]; simpl; done.
  - intros [p| | |] [q| | |]; simpl; try done.
  - intros [p| | |] [q| | |] [r| | |]; simpl; try done. apply Qeq_trans.
Qed.

Lemma num_eq_of_eq (a b : num) : a = b → a ≈ b.
Proof. intros ->. reflexivity. Qed.

Lemma num_eqb_eq (a b : num) : num_eqb a b = true ↔ a ≈ b.
Proof.
  destruct a as [p| | |], b as [q| | |]; simpl; try done.
  apply Qeq_bool_iff.
Qed.

End Numbers.

(** Settles an equation between products in which an operand is infinite,
    by cases on the signs of the finite operands. *)
Ltac by_signs :=
  repeat (simpl; rewrite ?sgn_mul;
          repeat match goal with
                 | H : (?x ?= 0)%Q = _ |- context [(?x ?= 0)%Q] => rewrite H
                 end;
          match goal with
          | |- context [(?x ?= 0)%Q] => is_var x; destruct (x ?= 0)%Q eqn:?
          end);
  simpl;
  repeat match goal with
         | H : (?x ?= 0)%Q = _ |- context [(?x ?= 0)%Q] => rewrite H; simpl
         end;
  try done.

Section NumberAlgebra.

Local Open Scope Q_scope.

Lemma mul_comm (a b : num) : (a * b)%js ≈ (b * a)%js.
Proof.
  destruct a as [p| | |], b as [q| | |]; simpl; try done.
  all: try (rewrite !Qred_correct; ring).
  all: by_signs.
Qed.

Lemma mul_assoc (a b c : num) : (a * (b * c))%js ≈ ((a * b) * c)%js.
Proof.
  destruct a as [p| | |], b as [q| | |], c as [r| | |]; simpl; try done.
  all: try (rewrite !Qred_correct; ring).
  all: by_signs.
Qed.

Lemma mul_proper (a a' b b' : num) :
  a ≈ a' → b ≈ b' → (a * b)%js ≈ (a' * b')%js.
Proof.
  destruct a as [p| | |], a' as [p'| | |]; simpl; try done;
  destruct b as [q| | |], b' as [q'| | |]; simpl; try done; intros Ha Hb.
  all: rewrite ?Qred_correct, ?Ha, ?Hb; try reflexivity.
  all: by_signs.
Qed.


Lemma ltb_proper (a a' b b' : num) :
  a ≈ a' → b ≈ b' → (a <? b)%js = (a' <? b')%js.
Proof.
  destruct a as [p| | |], a' as [p'| | |]; simpl; try done;
  destruct b as [q| | |], b' as [q'| | |]; simpl; try done; intros Ha Hb.
  unfold Qltb. by rewrite Ha, Hb.
Qed.




Lemma Qeq_bool_false (q : Q) : ¬ q == 0 → Qeq_bool q 0 = false.
Proof.
  intros H. destruct (Qeq_bool q 0) eqn:E; [|done].
  by apply Qeq_bool_iff in E.
Qed.


Lemma div_Fin (p r : Q) : ¬ r == 0 → (Fin p / Fin r)%js = Fin (Qred (p / r)).
Proof. intros H. simpl. by rewrite Qeq_bool_false. Qed.






End NumberAlgebra.

(** ** Reading and writing the parallel arrays *)

Section Frames.

Context {PB W : Type}.
Implicit Types st : engine PB W.

Lemma rd_insert (l : list num) (i j : nat) (v : num) :
  rd (<[i:=v]> l) j = if decide (i = j ∧ i < length l) then v else rd l j.
Proof.
  unfold rd. rewrite list_lookup_insert. by case_decide.
Qed.

Lemma field_store (c : option (gmap string (list num))) (k k' : string)
    (i : nat) (v : num) :
  field (store k i v c) k'
  = if decide (k = k') then <[i:=v]> (field c k') else field c k'.
Proof.
  destruct c as [m|]; simpl; [|by case_decide].
  rewrite lookup_alter. case_decide as Hk; [|done].
  subst k'. by destruct (m !! k).
Qed.

(** A read of [k'[j]] after the write [k[i] = v]. *)
Lemma aget_aset st (k k' : string) (i j : nat) (v : num) :
  aget k' j (aset k i v st)
  = if decide (k = k' ∧ i = j ∧ i < length (field (atoms st) k))
    then v else aget k' j st.
Proof.
  unfold aget, aset. simpl. rewrite field_store.
  destruct (decide (k = k')) as [->|Hk].
  - rewrite rd_insert. repeat case_decide; intuition congruence.
  - case_decide; intuition congruence.
Qed.

Lemma oget_oset st (k k' : string) (i j : nat) (v : num) :
  oget k' j (oset k i v st)
  = if decide (k = k' ∧ i = j ∧ i < length (field (obstacles st) k))
    then v else oget k' j st.
Proof.
  unfold oget, oset. simpl. rewrite field_store.
  destruct (decide (k = k')) as [->|Hk].
  - rewrite rd_insert. repeat case_decide; intuition congruence.
  - case_decide; intuition congruence.
Qed.

Lemma aget_aset_other st (k k' : string) (i j : nat) (v : num) :
  ¬ (k = k' ∧ i = j) → aget k' j (aset k i v st) = aget k' j st.
Proof. intros H. rewrite aget_aset. case_decide; intuition congruence. Qed.

Lemma oget_oset_other st (k k' : string) (i j : nat) (v : num) :
  ¬ (k = k' ∧ i = j) → oget k' j (oset k i v st) = oget k' j st.
Proof. intros H. rewrite oget_oset. case_decide; intuition congruence. Qed.

(** A cell that holds a number other than [NaN] lies inside its array. *)
Lemma aget_inside st (k : string) (i : nat) :
  aget k i st ≠ NaN → i < length (field (atoms st) k).
Proof.
  unfold aget, rd. intros H.
  destruct (field (atoms st) k !! i) eqn:Hl; [|done].
  by eapply lookup_lt_Some.
Qed.

Lemma aget_aset_same st (k : string) (i : nat) (v : num) :
  aget k i st ≠ NaN → aget k i (aset k i v st) = v.
Proof.
  intros H. rewrite aget_aset. apply aget_inside in H.
  case_decide; intuition congruence.
Qed.

Lemma length_field_aset st (k k' : string) (i : nat) (v : num) :
  length (field (atoms (aset k i v st)) k') = length (field (atoms st) k').
Proof.
  unfold aset. simpl. rewrite field_store.
  case_decide; [by rewrite length_insert|done].
Qed.

(** *** What an operation may change *)

Lemma modifies_refl P Q st : modifies P Q st st.
Proof. split_and!; try done. by destruct st. Qed.

Lemma modifies_trans P Q st1 st2 st3 :
  modifies P Q st1 st2 → modifies P Q st2 st3 → modifies P Q st1 st3.
Proof.
  intros (E1 & A1 & O1 & L1) (E2 & A2 & O2 & L2). split_and!.
  - rewrite E2 at 1. rewrite E1 at 1. done.
  - intros k i H. rewrite A2, A1; done.
  - intros k i H. rewrite O2, O1; done.
  - intros k. by rewrite L2, L1.
Qed.

Lemma modifies_aset P Q st st1 k i v :
  P k i → modifies P Q st st1 → modifies P Q st (aset k i v st1).
Proof.
  intros HP H. eapply modifies_trans; [exact H|]. split_and!.
  - by destruct st1.
  - intros k' j HnP. apply aget_aset_other. intros [-> ->]. done.
  - done.
  - intros k'. apply length_field_aset.
Qed.

Lemma modifies_oset P Q st st1 k i v :
  Q k i → modifies P Q st st1 → modifies P Q st (oset k i v st1).
Proof.
  intros HQ H. eapply modifies_trans; [exact H|]. split_and!.
  - by destruct st1.
  - done.
  - intros k' j HnQ. apply oget_oset_other. intros [-> ->]. done.
  - done.
Qed.

Lemma modifies_foldl {I : Type} P Q st (f : engine PB W → I → engine PB W)
    (l : list I) st1 :
  (∀ s j, modifies P Q st s → modifies P Q st (f s j)) →
  modifies P Q st st1 → modifies P Q st (foldl f st1 l).
Proof.
  intros Hf. revert st1. induction l as [|j l IH]; intros st1 H; simpl; auto.
Qed.

Lemma modifies_while P Q st fuel (cond : engine PB W → bool)
    (body : engine PB W → engine PB W) st1 st2 :
  (∀ s, modifies P Q st s → modifies P Q st (body s)) →
  modifies P Q st st1 →
  while fuel cond body st1 = Returned st2 → modifies P Q st st2.
Proof.
  intros Hbody. revert st1. induction fuel as [|fuel IH]; intros st1 H; simpl.
  - destruct (cond st1); [done|]. by intros [= <-].
  - destruct (cond st1); [|by intros [= <-]]. apply IH. auto.
Qed.

Lemma modifies_weaken (P P' Q Q' : string → nat → Prop) st st' :
  (∀ k i, P k i → P' k i) → (∀ k i, Q k i → Q' k i) →
  modifies P Q st st' → modifies P' Q' st st'.
Proof.
  intros HP HQ (E & A & O & L). split_and!; try done.
  - intros k i H. apply A. auto.
  - intros k i H. apply O. auto.
Qed.

(** The variables of the closure other than the two containers. *)
Lemma modifies_scalars P Q st st' :
  modifies P Q st st' →
  size st' = size st ∧ dt st' = dt st ∧ dt_sq st' = dt_sq st
  ∧ N st' = N st ∧ N_obstacles st' = N_obstacles st
  ∧ time st' = time st ∧ T st' = T st ∧ T_target st' = T_target st
  ∧ useThermostat st' = useThermostat st
  ∧ temperatureChangeInProgress st' = temperatureChangeInProgress st
  ∧ pressureBuffers st' = pressureBuffers st
  ∧ gravitationalField st' = gravitationalField st
  ∧ viscosity st' = viscosity st
  ∧ elements st' = elements st
  ∧ springForces st' = springForces st
  ∧ N_springForces st' = N_springForces st.
Proof. intros (E & _). rewrite E. by split_and!. Qed.

End Frames.

(** Proves a goal [modifies P Q st (f ... st)] for an operation [f] made
    of writes to cells, loops and tests. *)
Ltac frame_step :=
  first
    [ assumption
    | apply modifies_refl
    | apply modifies_aset; [try done|]
    | apply modifies_oset; [try done|]
    | apply modifies_foldl; [intros ? ? ?|]
    | match goal with
      | |- modifies _ _ _ (if ?b then _ else _) => destruct b
      | |- modifies _ _ _ (match ?o with _ => _ end) => destruct o
      | |- modifies _ _ _ (let _ := _ in _) => cbv zeta
      end ].

Ltac frame := repeat frame_step.
(** ** Spring forces *)

Section Springs.

Context {PB W : Type} (ext : externals PB W).
Implicit Types st : engine PB W.

(** C10.  For an index below the count, [removeSpringForce(i)] changes
    nothing but [N_springForces], which it lowers by one: the stored entries
    of every spring force, those of spring i included, stay as they are, the
    spring force of the highest index is no longer among those that
    [updateSpringForces] applies, and spring i itself still is unless it
    was the highest.  For an index at or above the count the call changes
    nothing. *)
Theorem removeSpringForce_drops_highest st i :
  (i < N_springForces st →
   removeSpringForce i st = set_N_springForces (N_springForces st - 1) st
   ∧ N_springForces (removeSpringForce i st) = N_springForces st - 1
   ∧ springForces (removeSpringForce i st) = springForces st
   ∧ updateSpringForces ext (removeSpringForce i st)
     = foldl (applySpringForce ext) (removeSpringForce i st)
         (seq 0 (N_springForces st - 1))
   ∧ ¬ (N_springForces st - 1 ∈ appliedSpringForces (removeSpringForce i st))
   ∧ (i < N_springForces st - 1 →
      i ∈ appliedSpringForces (removeSpringForce i st)))
  ∧ (N_springForces st ≤ i → removeSpringForce i st = st).
Proof.
  split.
  - intros Hi. unfold removeSpringForce.
    destruct (Nat.leb_spec (N_springForces st) i) as [Hle|_]; [lia|].
    split_and!; try done.
    + unfold updateSpringForces, appliedSpringForces. simpl.
      destruct (Nat.ltb_spec (N_springForces st - 1) 1) as [Hlt|_]; [|done].
      by replace (N_springForces st - 1) with 0 by lia.
    + unfold appliedSpringForces. simpl. rewrite elem_of_seq. lia.
    + intros Hlt. unfold appliedSpringForces. simpl. rewrite elem_of_seq. lia.
  - intros Hge. unfold removeSpringForce.
    by destruct (Nat.leb_spec (N_springForces st) i) as [_|Hlt]; [|lia].
Qed.

End Springs.

Lemma removeSpringForce_drops_highest_witness :
  removeSpringForce 0 threeSprings = set_N_springForces 2 threeSprings
  ∧ sget 3 0 (removeSpringForce 0 threeSprings) = Fin 10
  ∧ ¬ (2 ∈ appliedSpringForces (removeSpringForce 0 threeSprings))
  ∧ 0 ∈ appliedSpringForces (removeSpringForce 0 threeSprings)
  ∧ removeSpringForce 3 threeSprings = threeSprings.
Proof.
  destruct (removeSpringForce_drops_highest plainExternals threeSprings 0)
    as [Hbelow _].
  destruct (removeSpringForce_drops_highest plainExternals threeSprings 3)
    as [_ Habove].
  assert (Hcount : N_springForces threeSprings = 3) by reflexivity.
  destruct Hbelow as (Heq & _ & _ & _ & Hlast & Hkept); [rewrite Hcount; lia|].
  rewrite Hcount in Hlast, Hkept.
  split_and!.
  - exact Heq.
  - reflexivity.
  - exact Hlast.
  - apply Hkept. simpl. lia.
  - apply Habove. rewrite Hcount. lia.
Defined.

(** ** Momenta *)

(** C2 at its failing input.  The engine holds one atom of mass 1 moving
    at 1 nm/fs, with [px = mass * vx].  [setElementProperties(0, {mass: 2})]
    returns with the mass of the atom raised to 2 and its momentum left at
    1: [px[0]] is no longer [mass[0] * vx[0]]. *)
Theorem setElementProperties_leaves_momentum_stale :
  let before := oneMovingAtom in
  let call :=
    setElementProperties plainExternals 0
      (mkElementProps (Some (Fin 2)) None None) before in
  let after := stateOf before call in
  hasReturned call = true
  ∧ momentumConsistent before 0
  ∧ aget "mass" 0 after = Fin 2
  ∧ aget "vx" 0 after = Fin 1
  ∧ aget "px" 0 after = Fin 1
  ∧ ¬ momentumConsistent after 0.
Proof.
  vm_compute. split_and!; try reflexivity. intros [H _]. discriminate H.
Qed.

(** ** Collisions *)

(** C7 at its failing input.  A movable obstacle of mass 1 with its west
    probe enabled moves west at 0.1 nm/fs onto an atom of mass 1 at rest.
    The collision leaves the atom at -0.1 nm/fs, so the atom's normal
    velocity changed by 0.1 and [m*(v_before - v_after)] is 0.1; the west
    probe accumulates 0.2, because the source takes a pre-collision
    velocity of zero for an absent one and puts [-v_after] in its place.
    The same value is reached through [integrate]. *)
Theorem obstacle_probe_counts_resting_atom_twice :
  let before := obstacleOverAtom in
  let after :=
    bounceParticleOffObstacles 0 (aget "x" 0 before) (aget "y" 0 before) true
      before in
  truthy (oget "westProbe" 0 before) = true
  ∧ oget "mass" 0 before = Fin 1
  ∧ aget "mass" 0 before = Fin 1
  ∧ aget "vx" 0 before = Fin 0
  ∧ aget "vx" 0 after = Fin (-1 # 10)
  ∧ (aget "mass" 0 before * (aget "vx" 0 before - aget "vx" 0 after))%js
    = Fin (1 # 10)
  ∧ oget "wProbeValue" 0 before = Fin 0
  ∧ oget "wProbeValue" 0 after = Fin (1 # 5)
  ∧ oget "wProbeValue" 0
      (stateOf before
         (integrate plainExternals 10 (Some (Fin 1)) (Some (Fin 1)) before))
    = Fin (1 # 5).
Proof. vm_compute. split_and!; reflexivity. Qed.


(** ** The thermostat *)

Section Thermostat.
Context {PB W : Type} (ext : externals PB W).
Implicit Types st : engine PB W.









Lemma aget_outside st (k : string) (i : nat) :
  ¬ i < length (field (atoms st) k) → aget k i st = NaN.
Proof.
  intros H. unfold aget, rd. rewrite lookup_ge_None_2; [done|lia].
Qed.

Lemma oget_outside st (k : string) (i : nat) :
  ¬ i < length (field (obstacles st) k) → oget k i st = NaN.
Proof.
  intros H. unfold oget, rd. rewrite lookup_ge_None_2; [done|lia].
Qed.

(** Scaling a cell in place: outside of the array the cell reads [NaN] before and after. *)
Lemma aget_aset_scaled st st0 (k : string) (i : nat) (f : num) :
  aget k i st = aget k i st0 →
  aget k i (aset k i (aget k i st * f)%js st) = (aget k i st0 * f)%js.
Proof.
  intros H. rewrite aget_aset.
  destruct (decide (i < length (field (atoms st) k))) as [Hin|Hout].
  - rewrite decide_True by done. by rewrite H.
  - rewrite decide_False by tauto. rewrite <- H.
    by rewrite (aget_outside st k i Hout).
Qed.

Lemma oget_oset_scaled st st0 (k : string) (i : nat) (f : num) :
  oget k i st = oget k i st0 →
  oget k i (oset k i (oget k i st * f)%js st) = (oget k i st0 * f)%js.
Proof.
  intros H. rewrite oget_oset.
  destruct (decide (i < length (field (obstacles st) k))) as [Hin|Hout].
  - rewrite decide_True by done. by rewrite H.
  - rewrite decide_False by tauto. rewrite <- H.
    by rewrite (oget_outside st k i Hout).
Qed.

Lemma scaleParticleVelocity_get st (i : nat) (f : num) :
  aget "vx" i (scaleParticleVelocity i f st) = (aget "vx" i st * f)%js
  ∧ aget "vy" i (scaleParticleVelocity i f st) = (aget "vy" i st * f)%js
  ∧ aget "px" i (scaleParticleVelocity i f st) = (aget "px" i st * f)%js
  ∧ aget "py" i (scaleParticleVelocity i f st) = (aget "py" i st * f)%js
  ∧ modifies (λ k j, j = i ∧ isVelocityKey k) (λ _ _, False) st
      (scaleParticleVelocity i f st).
Proof.
  unfold scaleParticleVelocity, isVelocityKey. cbv zeta. split_and!.
  - rewrite !(aget_aset_other _ _ "vx") by (intros [? _]; done).
    by apply aget_aset_scaled.
  - rewrite !(aget_aset_other _ _ "vy") by (intros [? _]; done).
    apply aget_aset_scaled. by rewrite aget_aset_other by (intros [? _]; done).
  - rewrite !(aget_aset_other _ _ "px") by (intros [? _]; done).
    apply aget_aset_scaled.
    by rewrite !aget_aset_other by (intros [? _]; done).
  - apply aget_aset_scaled.
    by rewrite !aget_aset_other by (intros [? _]; done).
  - frame; auto.
Qed.

Lemma scaleObstacleVelocity_get st (i : nat) (f : num) :
  oget "vx" i (scaleObstacleVelocity i f st) = (oget "vx" i st * f)%js
  ∧ oget "vy" i (scaleObstacleVelocity i f st) = (oget "vy" i st * f)%js
  ∧ modifies (λ _ _, False) (λ k j, j = i ∧ (k = "vx" ∨ k = "vy")) st
      (scaleObstacleVelocity i f st).
Proof.
  unfold scaleObstacleVelocity. cbv zeta. split_and!.
  - rewrite !(oget_oset_other _ _ "vx") by (intros [? _]; done).
    by apply oget_oset_scaled.
  - apply oget_oset_scaled. by rewrite oget_oset_other by (intros [? _]; done).
  - frame; auto.
Qed.

Lemma scaleParticles_fold st (f : num) (n : nat) :
  let s := foldl (λ s i, scaleParticleVelocity i f s) st (seq 0 n) in
  modifies (λ k j, j < n ∧ isVelocityKey k) (λ _ _, False) st s
  ∧ ∀ i, i < n →
      aget "vx" i s = (aget "vx" i st * f)%js
      ∧ aget "vy" i s = (aget "vy" i st * f)%js
      ∧ aget "px" i s = (aget "px" i st * f)%js
      ∧ aget "py" i s = (aget "py" i st * f)%js.
Proof.
  induction n as [|n [IHm IHv]]; cbv zeta.
  - split; [apply modifies_refl|lia].
  - rewrite seq_S, foldl_snoc. simpl.
    set (s := foldl (λ s i, scaleParticleVelocity i f s) st (seq 0 n)) in *.
    destruct (scaleParticleVelocity_get s n f) as (Hvx & Hvy & Hpx & Hpy & Hm).
    split.
    + eapply modifies_trans.
      * eapply modifies_weaken; [| |exact IHm]; simpl; intros; [|done].
        split; [lia|tauto].
      * eapply modifies_weaken; [| |exact Hm]; simpl; intros; [|done].
        split; [lia|tauto].
    + intros i Hi. destruct (decide (i = n)) as [->|Hne].
      * destruct IHm as (_ & Hsame & _).
        rewrite Hvx, Hvy, Hpx, Hpy.
        rewrite !Hsame by (intros [? _]; lia). done.
      * destruct Hm as (_ & Hsame & _).
        rewrite !Hsame by (intros [? _]; lia). apply IHv. lia.
Qed.

Lemma scaleObstacles_fold st (f : num) (n : nat) :
  let s := foldl (λ s i, scaleObstacleVelocity i f s) st (seq 0 n) in
  modifies (λ _ _, False) (λ k j, j < n ∧ (k = "vx" ∨ k = "vy")) st s
  ∧ ∀ i, i < n →
      oget "vx" i s = (oget "vx" i st * f)%js
      ∧ oget "vy" i s = (oget "vy" i st * f)%js.
Proof.
  induction n as [|n [IHm IHv]]; cbv zeta.
  - split; [apply modifies_refl|lia].
  - rewrite seq_S, foldl_snoc. simpl.
    set (s := foldl (λ s i, scaleObstacleVelocity i f s) st (seq 0 n)) in *.
    destruct (scaleObstacleVelocity_get s n f) as (Hvx & Hvy & Hm).
    split.
    + eapply modifies_trans.
      * eapply modifies_weaken; [| |exact IHm]; simpl; intros; [done|].
        split; [lia|tauto].
      * eapply modifies_weaken; [| |exact Hm]; simpl; intros; [done|].
        split; [lia|tauto].
    + intros i Hi. destruct (decide (i = n)) as [->|Hne].
      * destruct IHm as (_ & _ & Hsame & _).
        rewrite Hvx, Hvy.
        rewrite !Hsame by (intros [? _]; lia). done.
      * destruct Hm as (_ & _ & Hsame & _).
        rewrite !Hsame by (intros [? _]; lia). apply IHv. lia.
Qed.

Lemma rescaleVelocities_scaled st (target : num) :
  velocitiesScaled (Math_sqrt (target / T st)%js) st
    (rescaleVelocities target st).
Proof.
  unfold rescaleVelocities. cbv zeta.
  set (f := Math_sqrt (target / T st)%js).
  destruct (scaleParticles_fold st f (N st)) as [Hm1 Hv1]. cbv zeta in *.
  set (s1 := foldl (λ s i, scaleParticleVelocity i f s) st (seq 0 (N st))) in *.
  destruct (modifies_scalars _ _ _ _ Hm1) as (_ & _ & _ & HN1 & HNo1 & _).
  destruct (scaleObstacles_fold s1 f (N_obstacles s1)) as [Hm2 Hv2].
  cbv zeta in *.
  set (s2 := foldl (λ s i, scaleObstacleVelocity i f s) s1
               (seq 0 (N_obstacles s1))) in *.
  destruct (modifies_scalars _ _ _ _ Hm2) as (_ & _ & _ & HN2 & HNo2 & _).
  destruct Hm1 as (_ & Ha1 & Ho1 & _). destruct Hm2 as (_ & Ha2 & Ho2 & _).
  unfold velocitiesScaled. simpl.
  change (aget ?k ?i (set_T target s2)) with (aget k i s2).
  change (oget ?k ?i (set_T target s2)) with (oget k i s2).
  split_and!.
  - congruence.
  - congruence.
  - intros i Hi. rewrite !Ha2 by tauto.
    destruct (Hv1 i Hi) as (-> & -> & -> & ->).
    split_and!; try done.
    apply Ha1. unfold isVelocityKey. intros [_ [?|[?|[?|?]]]]; done.
  - intros j Hj. rewrite HNo1 in Hv2.
    destruct (Hv2 j Hj) as (-> & ->).
    rewrite (Ho2 "mass") by (intros [_ [?|?]]; done).
    rewrite !Ho1 by tauto. done.
Qed.






End Thermostat.


(** The atom of that engine goes from 2 nm/fs to 4 nm/fs, and the
    temperature from 2 K to the target of 8 K. *)
Example oneWarmAtom_rescaled :
  let after :=
    stateOf oneWarmAtom
      (adjustTemperature plainExternals None false oneWarmAtom) in
  computeTemperature plainExternals oneWarmAtom = Fin 2
  ∧ aget "vx" 0 oneWarmAtom = Fin 2
  ∧ aget "vx" 0 after = Fin 4
  ∧ aget "px" 0 after = Fin 4
  ∧ computeTemperature plainExternals after = Fin 8.
Proof. vm_compute. split_and!; reflexivity. Qed.

(** ** The drift and its divergence check *)

Section Drift.
Context {PB W : Type}.
Implicit Types st : engine PB W.

Lemma Qltb_lt (p q : Q) : Qltb p q = true ↔ (p < q)%Q.
Proof.
  unfold Qltb. rewrite Qlt_alt. destruct (p ?= q)%Q; split; done.
Qed.

Lemma inject_nat_S (n : nat) :
  (inject_Z (Z.of_nat (S n)) == inject_Z (Z.of_nat n) + 1)%Q.
Proof. rewrite Nat2Z.inj_succ. unfold Z.succ. by rewrite inject_Z_plus. Qed.

(** [while (k[i] < b) k[i] += w] ends when the gap to [b] is at most [fuel] times [w]. *)
Lemma while_up_returns (k : string) (i fuel : nat) (b w : Q) st (q : Q) :
  aget k i st = Fin q → (0 < w)%Q →
  (b - q <= inject_Z (Z.of_nat fuel) * w)%Q →
  ∃ st' q',
    while fuel (λ s, aget k i s <? Fin b)%js
      (λ s, aset k i (aget k i s + Fin w)%js s) st = Returned st'
    ∧ aget k i st' = Fin q'
    ∧ modifies (λ k' j, k' = k ∧ j = i) (λ _ _, False) st st'.
Proof.
  intros Hq Hw. revert st q Hq.
  induction fuel as [|fuel IH]; intros st q Hq Hgap.
  - simpl. rewrite Hq. simpl.
    destruct (Qltb q b) eqn:Hlt.
    + apply Qltb_lt in Hlt. change (inject_Z (Z.of_nat 0)) with 0%Q in Hgap. lra.
    + exists st, q. split_and!; [done|done|apply modifies_refl].
  - cbn [while]. cbv beta. rewrite Hq. simpl (Fin q <? Fin b)%js.
    destruct (Qltb q b) eqn:Hlt.
    + destruct (IH (aset k i (Fin q + Fin w)%js st) (Qred (q + w)))
        as (st' & q' & Hret & Hq' & Hm).
      * by rewrite aget_aset_same by (rewrite Hq; done).
      * rewrite Qred_correct. rewrite inject_nat_S in Hgap. lra.
      * exists st', q'. split_and!; [done|done|].
        eapply modifies_trans; [|exact Hm].
        apply modifies_aset; [done|apply modifies_refl].
    + exists st, q. split_and!; [done|done|apply modifies_refl].
Qed.

Lemma while_down_returns (k : string) (i fuel : nat) (b w : Q) st (q : Q) :
  aget k i st = Fin q → (0 < w)%Q →
  (q - b <= inject_Z (Z.of_nat fuel) * w)%Q →
  ∃ st' q',
    while fuel (λ s, aget k i s >? Fin b)%js
      (λ s, aset k i (aget k i s - Fin w)%js s) st = Returned st'
    ∧ aget k i st' = Fin q'
    ∧ modifies (λ k' j, k' = k ∧ j = i) (λ _ _, False) st st'.
Proof.
  intros Hq Hw. revert st q Hq.
  induction fuel as [|fuel IH]; intros st q Hq Hgap.
  - simpl. rewrite Hq. simpl.
    destruct (Qltb b q) eqn:Hlt.
    + apply Qltb_lt in Hlt. change (inject_Z (Z.of_nat 0)) with 0%Q in Hgap. lra.
    + exists st, q. split_and!; [done|done|apply modifies_refl].
  - cbn [while]. cbv beta. rewrite Hq. simpl (Fin q >? Fin b)%js.
    destruct (Qltb b q) eqn:Hlt.
    + destruct (IH (aset k i (Fin q - Fin w)%js st) (Qred (q + - w)))
        as (st' & q' & Hret & Hq' & Hm).
      * by rewrite aget_aset_same by (rewrite Hq; done).
      * rewrite Qred_correct. rewrite inject_nat_S in Hgap. lra.
      * exists st', q'. split_and!; [done|done|].
        eapply modifies_trans; [|exact Hm].
        apply modifies_aset; [done|apply modifies_refl].
    + exists st, q. split_and!; [done|done|apply modifies_refl].
Qed.

Lemma bounceParticleOffWalls_axes fuel i st :
  bounceParticleOffWalls fuel i st
  = (bounceAxis fuel i "x" "vx" "px" (aget "radius" i st) (fst (size st)) st
     >>> bounceAxis fuel i "y" "vy" "py" (aget "radius" i st) (snd (size st))).
Proof. reflexivity. Qed.

Lemma bounceAxis_returns fuel i (pos vel mom : string) (ρ w q : Q) st :
  aget pos i st = Fin q → (0 < w)%Q → (Qabs q <= 100 * w)%Q →
  (ρ + 100 * w <= inject_Z (Z.of_nat fuel) * w)%Q →
  ∃ st',
    bounceAxis fuel i pos vel mom (Fin ρ) (Fin w) st = Returned st'
    ∧ modifies (λ k j, j = i ∧ (k = pos ∨ k = vel ∨ k = mom)) (λ _ _, False)
        st st'.
Proof.
  intros Hq Hw Habs Hfuel. apply Qabs_Qle_condition in Habs as [Hlo Hhi].
  unfold bounceAxis.
  destruct (aget pos i st <? Fin ρ)%js.
  - simpl (Fin ρ - Fin w)%js.
    destruct (while_up_returns pos i fuel (Qred (ρ + - w)) w st q Hq Hw)
      as (s1 & q1 & -> & _ & Hm).
    { rewrite Qred_correct. lra. }
    eexists. split; [reflexivity|].
    eapply modifies_trans.
    + eapply modifies_weaken; [| |exact Hm]; simpl; intros; [|done].
      intuition.
    + frame; auto.
  - destruct (aget pos i st >? Fin w - Fin ρ)%js.
    + simpl (Fin w - Fin ρ + Fin w)%js.
      destruct (while_down_returns pos i fuel (Qred (Qred (w + - ρ) + w)) w
                  st q Hq Hw) as (s1 & q1 & -> & _ & Hm).
      { rewrite !Qred_correct. lra. }
      eexists. split; [reflexivity|].
      eapply modifies_trans.
      * eapply modifies_weaken; [| |exact Hm]; simpl; intros; [|done].
        intuition.
      * frame; auto.
    + eexists. split; [reflexivity|apply modifies_refl].
Qed.


Lemma bounceOffObstacle_modifies st0 i (r xi yi xp yp : num) (up : bool)
    (sl : engine PB W * bounceLocals) (j : nat) :
  modifies (λ k j, j = i ∧ isMotionKey k) (λ _ _, True) st0 sl.1 →
  modifies (λ k j, j = i ∧ isMotionKey k) (λ _ _, True) st0
    (bounceOffObstacle i r xi yi xp yp up sl j).1.
Proof.
  destruct sl as [s loc]. simpl. intros H. unfold bounceOffObstacle, isMotionKey.
  repeat match goal with
         | |- context [if ?b then _ else _] => destruct b; simpl
         end;
    frame; auto 10.
Qed.

Lemma bounceParticleOffObstacles_modifies st i (xp yp : num) (up : bool) :
  modifies (λ k j, j = i ∧ isMotionKey k) (λ _ _, True) st
    (bounceParticleOffObstacles i xp yp up st).
Proof.
  unfold bounceParticleOffObstacles.
  destruct (N_obstacles st <? 1); [apply modifies_refl|].
  cbv zeta.
  generalize (seq 0 (N_obstacles st)).
  generalize (aget "radius" i st) (aget "x" i st) (aget "y" i st).
  intros r xi yi l.
  assert (Hgen : ∀ sl : engine PB W * bounceLocals,
            modifies (λ k j, j = i ∧ isMotionKey k) (λ _ _, True) st sl.1 →
            modifies (λ k j, j = i ∧ isMotionKey k) (λ _ _, True) st
              (foldl (bounceOffObstacle i r xi yi xp yp up) sl l).1).
  { induction l as [|j l IH]; intros sl Hsl; simpl; [done|].
    apply IH. by apply bounceOffObstacle_modifies. }
  apply Hgen. apply modifies_refl.
Qed.


Lemma updateParticlePosition_cases fuel i st :
  updateParticlePosition fuel i st
  = if hasDiverged i (driftAtom i st)
    then Threw "Model has diverged!" (driftAtom i st)
    else driftAndBounce fuel i st.
Proof. reflexivity. Qed.

Lemma driftAtom_modifies i st :
  modifies (λ k j, j = i ∧ isMotionKey k) (λ _ _, True) st (driftAtom i st).
Proof. unfold driftAtom, isMotionKey. frame; auto. Qed.

(** The divergence check of atom i reads nothing but the cells of atom i,
    the time step and the size of the domain. *)
Lemma hasDiverged_drift_eq i (s1 s2 : engine PB W) :
  size s1 = size s2 → dt s1 = dt s2 →
  (∀ k, aget k i s1 = aget k i s2) →
  (∀ k, length (field (atoms s1) k) = length (field (atoms s2) k)) →
  hasDiverged i (driftAtom i s1) = hasDiverged i (driftAtom i s2).
Proof.
  intros Hsize Hdt Hget Hlen.
  unfold hasDiverged, driftAtom. cbv zeta.
  change (size (aset "y" i ?v (aset "x" i ?u ?s))) with (size s).
  assert (Hdt' : ∀ k j v (s : engine PB W), dt (aset k j v s) = dt s) by done.
  rewrite !aget_aset, !length_field_aset, !Hdt', !Hget, !Hlen, Hsize, Hdt.
  done.
Qed.

Lemma hasDiverged_false i st (w h : Q) :
  size st = (Fin w, Fin h) → hasDiverged i st = false →
  ∃ qx qy, aget "x" i st = Fin qx ∧ aget "y" i st = Fin qy
    ∧ (Qabs qx <= 100 * w)%Q ∧ (Qabs qy <= 100 * h)%Q.
Proof.
  unfold hasDiverged. intros ->. cbv zeta. cbn [fst snd].
  intros H.
  apply orb_false_elim in H as [H Hy].
  apply orb_false_elim in H as [H Hx].
  apply orb_false_elim in H as [Nx Ny].
  destruct (aget "x" i st) as [qx| | |]; try done.
  destruct (aget "y" i st) as [qy| | |]; try done.
  exists qx, qy. simpl in Hx, Hy.
  split_and!; try done.
  - destruct (Qlt_le_dec (Qred (w * 100)) (Qabs qx)) as [Hlt|Hle].
    + apply Qltb_lt in Hlt. congruence.
    + rewrite Qred_correct in Hle. lra.
  - destruct (Qlt_le_dec (Qred (h * 100)) (Qabs qy)) as [Hlt|Hle].
    + apply Qltb_lt in Hlt. congruence.
    + rewrite Qred_correct in Hle. lra.
Qed.

Section Loop.

Variable fuel : nat.
Variable st : engine PB W.
Variables w h : Q.
Hypothesis Hsize : size st = (Fin w, Fin h).
Hypothesis Hw : (0 < w)%Q.
Hypothesis Hh : (0 < h)%Q.
Hypothesis Hradius : ∀ i, i < N st →
  ∃ ρ, aget "radius" i st = Fin ρ
    ∧ (ρ + 100 * w <= inject_Z (Z.of_nat fuel) * w)%Q
    ∧ (ρ + 100 * h <= inject_Z (Z.of_nat fuel) * h)%Q.

Lemma moved_diverged a s :
  moved st a s →
  hasDiverged a (driftAtom a s) = hasDiverged a (driftAtom a st).
Proof.
  intros Hm. pose proof (modifies_scalars _ _ _ _ Hm) as (Hs & Hdt & _).
  destruct Hm as (_ & Hget & _ & Hlen).
  apply hasDiverged_drift_eq; try done.
  intros k. apply Hget. lia.
Qed.

Lemma driftAndBounce_returns a s :
  moved st a s → a < N st →
  hasDiverged a (driftAtom a st) = false →
  ∃ s', driftAndBounce fuel a s = Returned s' ∧ moved st (S a) s'.
Proof.
  intros Hm Ha HD. rewrite <- (moved_diverged a s Hm) in HD.
  pose proof (driftAtom_modifies a s) as Hd.
  assert (Hmd : modifies (λ k j, j < S a ∧ isMotionKey k) (λ _ _, True)
                  st (driftAtom a s)).
  { eapply modifies_trans.
    - eapply modifies_weaken; [| |exact Hm]; simpl; intros; [|done].
      intuition lia.
    - eapply modifies_weaken; [| |exact Hd]; simpl; intros; [|done].
      intuition lia. }
  pose proof (modifies_scalars _ _ _ _ Hmd) as (Hs & _).
  rewrite Hsize in Hs.
  destruct (hasDiverged_false a _ w h Hs HD) as (qx & qy & Hx & Hy & Ax & Ay).
  destruct (Hradius a Ha) as (ρ & Hρ & Fw & Fh).
  assert (Hr : aget "radius" a (driftAtom a s) = Fin ρ).
  { destruct Hmd as (_ & Hget & _). rewrite Hget; [done|].
    unfold isMotionKey. intros [_ H]. intuition congruence. }
  unfold driftAndBounce. rewrite bounceParticleOffWalls_axes.
  rewrite Hr, Hs. cbn [fst snd].
  destruct (bounceAxis_returns fuel a "x" "vx" "px" ρ w qx _ Hx Hw Ax Fw)
    as (s1 & -> & M1).
  cbn [andThen].
  assert (Hy1 : aget "y" a s1 = Fin qy).
  { destruct M1 as (_ & Hget & _). rewrite Hget; [done|].
    intros [_ H]. intuition congruence. }
  destruct (bounceAxis_returns fuel a "y" "vy" "py" ρ h qy _ Hy1 Hh Ay Fh)
    as (s2 & -> & M2).
  cbn [andThen].
  eexists. split; [reflexivity|].
  unfold moved.
  eapply modifies_trans; [exact Hmd|].
  eapply modifies_trans.
  { eapply modifies_weaken; [| |exact M1]; simpl; intros; [|done].
    unfold isMotionKey. intuition lia. }
  eapply modifies_trans.
  { eapply modifies_weaken; [| |exact M2]; simpl; intros; [|done].
    unfold isMotionKey. intuition lia. }
  eapply modifies_weaken; [| |apply bounceParticleOffObstacles_modifies];
    simpl; intros; [|done].
  intuition lia.
Qed.

(** With no diverged atom among [a .. a+n-1] the loop over them returns,
    and it is the loop of the drifts and bounces. *)
Lemma loop_returns n : ∀ a s,
  moved st a s → a + n ≤ N st →
  (∀ i, a ≤ i < a + n → hasDiverged i (driftAtom i st) = false) →
  ∃ s', forEach (updateParticlePosition fuel) (seq a n) s = Returned s'
      ∧ forEach (driftAndBounce fuel) (seq a n) s = Returned s'
      ∧ moved st (a + n) s'.
Proof.
  induction n as [|n IH]; intros a s Hm Hn HD.
  - exists s. rewrite Nat.add_0_r. done.
  - cbn [seq forEach]. rewrite updateParticlePosition_cases.
    rewrite (moved_diverged a s Hm), (HD a) by lia.
    destruct (driftAndBounce_returns a s Hm) as (s1 & -> & Hm1);
      [lia|apply HD; lia|].
    cbn [andThen].
    destruct (IH (S a) s1 Hm1) as (s' & E1 & E2 & Hm'); [lia| |].
    { intros i Hi. apply HD. lia. }
    exists s'. rewrite Nat.add_succ_r. done.
Qed.

(** With a diverged atom among them the loop throws. *)
Lemma loop_throws n : ∀ a s,
  moved st a s → a + n ≤ N st →
  (∃ i, a ≤ i < a + n ∧ hasDiverged i (driftAtom i st) = true) →
  ∃ s', forEach (updateParticlePosition fuel) (seq a n) s
        = Threw "Model has diverged!" s'.
Proof.
  induction n as [|n IH]; intros a s Hm Hn (i & Hi & HD); [lia|].
  cbn [seq forEach]. rewrite updateParticlePosition_cases.
  rewrite (moved_diverged a s Hm).
  destruct (hasDiverged a (driftAtom a st)) eqn:Ha.
  - by eexists.
  - destruct (driftAndBounce_returns a s Hm) as (s1 & -> & Hm1); [lia|done|].
    cbn [andThen]. apply IH; [done|lia|].
    exists i. split; [|done].
    assert (i ≠ a) by (intros ->; congruence). lia.
Qed.

End Loop.

Lemma bounded_cases (D : nat → bool) (n : nat) :
  (∀ i, i < n → D i = false) ∨ (∃ i, i < n ∧ D i = true).
Proof.
  induction n as [|n [IH|(i & Hi & HD)]].
  - left. intros i Hi. lia.
  - destruct (D n) eqn:Hn.
    + right. exists n. split; [lia|done].
    + left. intros i Hi. destruct (decide (i = n)) as [->|]; [done|].
      apply IH. lia.
  - right. exists i. split; [lia|done].
Qed.

(** The check of the source on the moved atom is the condition of the
    specification on the state before the move. *)
Lemma hasDiverged_as_specified i st :
  hasDiverged i (driftAtom i st) = divergedAsSpecified st i.
Proof.
  unfold hasDiverged, divergedAsSpecified, driftAtom. cbv zeta.
  change (size (aset "y" i ?v (aset "x" i ?u ?s))) with (size s).
  assert (Hdt : ∀ k j v (s : engine PB W), dt (aset k j v s) = dt s) by done.
  unfold gtb.
  rewrite (ltb_proper _ (Fin 100 * (size st).1)%js _ _ (mul_comm _ _)
             (reflexivity _)).
  rewrite (ltb_proper _ (Fin 100 * (size st).2)%js _ _ (mul_comm _ _)
             (reflexivity _)).
  rewrite !aget_aset, !length_field_aset, !Hdt.
  repeat case_decide; try (exfalso; intuition congruence).
  - done.
  - assert (Hy : aget "y" i st = NaN).
    { unfold aget, rd. rewrite lookup_ge_None_2; [done|]. intuition lia. }
    rewrite Hy. done.
  - assert (Hx : aget "x" i st = NaN).
    { unfold aget, rd. rewrite lookup_ge_None_2; [done|]. intuition lia. }
    rewrite Hx. done.
  - assert (Hx : aget "x" i st = NaN).
    { unfold aget, rd. rewrite lookup_ge_None_2; [done|]. intuition lia. }
    assert (Hy : aget "y" i st = NaN).
    { unfold aget, rd. rewrite lookup_ge_None_2; [done|]. intuition lia. }
    rewrite Hx, Hy. done.
Qed.

(** C5.  In the drift of [integrate] ([updateParticlesPosition]) on a
    domain of positive finite width and height, with atoms of finite
    radius, the loop over the atoms throws "Model has diverged!" exactly
    when for some atom the new coordinate [x + vx*dt] or [y + vy*dt] is
    [NaN] or larger in absolute value than 100 times the width,
    respectively the height; when there is no such atom, the loop returns,
    and it has, atom after atom, moved the atom, bounced it off the walls
    and then bounced it off the obstacles with the position before the move
    and with the update of the pressure probes switched on.  [fuel] bounds
    the number of turns of each loop of the bounce off the walls; 100 turns
    and the radius in widths (heights) are enough. *)
Theorem updateParticlesPosition_diverged_iff fuel st (w h : Q) :
  size st = (Fin w, Fin h) → (0 < w)%Q → (0 < h)%Q →
  (∀ i, i < N st →
     ∃ ρ, aget "radius" i st = Fin ρ
       ∧ (ρ + 100 * w <= inject_Z (Z.of_nat fuel) * w)%Q
       ∧ (ρ + 100 * h <= inject_Z (Z.of_nat fuel) * h)%Q) →
  ((∃ st', updateParticlesPosition fuel st = Threw "Model has diverged!" st')
   ↔ ∃ i, i < N st ∧ divergedAsSpecified st i = true)
  ∧ ((∀ i, i < N st → divergedAsSpecified st i = false) →
     ∃ st', updateParticlesPosition fuel st = Returned st'
          ∧ forEach (driftAndBounce fuel) (seq 0 (N st)) st = Returned st').
Proof.
  intros Hsize Hw Hh Hr.
  assert (H0 : moved st 0 st) by apply modifies_refl.
  assert (Hret : (∀ i, i < N st → divergedAsSpecified st i = false) →
     ∃ st', updateParticlesPosition fuel st = Returned st'
          ∧ forEach (driftAndBounce fuel) (seq 0 (N st)) st = Returned st').
  { intros HD.
    destruct (loop_returns fuel st w h Hsize Hw Hh Hr (N st) 0 st H0)
      as (s' & E1 & E2 & _); [lia| |].
    - intros i Hi. rewrite hasDiverged_as_specified. apply HD. lia.
    - by exists s'. }
  split; [|exact Hret]. split.
  - intros (st' & Hthrow).
    destruct (bounded_cases (divergedAsSpecified st) (N st))
      as [HD|HD]; [|done].
    destruct (Hret HD) as (s' & E & _). congruence.
  - intros (i & Hi & HD).
    apply (loop_throws fuel st w h Hsize Hw Hh Hr (N st) 0 st H0); [lia|].
    exists i. rewrite hasDiverged_as_specified. split; [lia|done].
Qed.

End Drift.

(** The atom of [oneDriftingAtom] moves from x = 6 to x = 7, well inside
    the domain: the drift returns. *)
Lemma updateParticlesPosition_diverged_iff_witness :
  hasReturned (updateParticlesPosition 101 oneDriftingAtom) = true.
Proof.
  assert (HN : N oneDriftingAtom = 1) by (vm_compute; reflexivity).
  destruct (updateParticlesPosition_diverged_iff 101 oneDriftingAtom 10 10)
    as [_ H].
  - vm_compute. reflexivity.
  - reflexivity.
  - reflexivity.
  - intros i Hi. rewrite HN in Hi. assert (i = 0) as -> by lia.
    exists (1 # 10)%Q. split_and!.
    + vm_compute. reflexivity.
    + vm_compute. discriminate.
    + vm_compute. discriminate.
  - destruct H as (st' & E & _).
    + intros i Hi. rewrite HN in Hi. assert (i = 0) as -> by lia.
      vm_compute. reflexivity.
    + rewrite E. reflexivity.
Defined.

(** The atom of [fastAtom] would be at x = 2005 after the first drift, more
    than 100 times the width of 10: [integrate] throws. *)
Example fastAtom_diverges :
  divergedAsSpecified (set_dt (Fin 1) fastAtom) 0 = true
  ∧ ∃ st', integrate plainExternals 101 (Some (Fin 1)) (Some (Fin 1)) fastAtom
           = Threw "Model has diverged!" st'.
Proof.
  split; [vm_compute; reflexivity|].
  eexists. vm_compute. reflexivity.
Qed.

(** Before the first call of [integrate] the time step is not set and every
    new coordinate is [NaN]: the drift alone throws. *)
Example drift_without_time_step_diverges :
  dt oneMovingAtom = NaN
  ∧ ∃ st', updateParticlesPosition 101 oneMovingAtom
           = Threw "Model has diverged!" st'.
Proof.
  split; [vm_compute; reflexivity|].
  eexists. vm_compute. reflexivity.
Qed.

(** ** The integration loop *)

Section Integrate.

Context {PB W : Type} (ext : externals PB W).
Implicit Types st : engine PB W.

Lemma andThen_ext {S : Type} (r : outcome S) (k1 k2 : S → outcome S) :
  (∀ s, k1 s = k2 s) → r >>> k1 = r >>> k2.
Proof. intros H. destruct r; simpl; auto. Qed.

(** The loop test [iloop <= steps] when [steps] is the natural number k. *)
Lemma loop_test_nat (steps : num) (k i : nat) :
  steps ≈ of_nat k → (of_nat i <=? steps)%js = bool_decide (i ≤ k).
Proof.
  destruct steps as [q| | |]; simpl; try done.
  intros Hq.
  destruct (Qle_bool (inject_Z (Z.of_nat i)) q) eqn:Hle.
  - apply Qle_bool_iff in Hle. rewrite Hq, <- Zle_Qle in Hle.
    symmetry. apply bool_decide_eq_true. lia.
  - symmetry. apply bool_decide_eq_false. intros Hik.
    assert (Htrue : Qle_bool (inject_Z (Z.of_nat i)) q = true).
    { apply Qle_bool_iff. rewrite Hq, <- Zle_Qle. lia. }
    congruence.
Qed.

(** A loop that counts up to the natural number k runs its body for the
    loop counters from [iloop] to k, in order, when it is given at least as
    many iterations. *)
Lemma integrationLoop_forEach (body : nat → engine PB W → outcome (engine PB W))
    (steps : num) (k : nat) :
  steps ≈ of_nat k →
  ∀ n iloop fuel st,
    iloop + n = S k → n ≤ fuel →
    integrationLoop fuel body steps iloop st = forEach body (seq iloop n) st.
Proof.
  intros Hsteps. induction n as [|n IH]; intros iloop fuel st Hsum Hfuel.
  - destruct fuel; cbn [integrationLoop seq forEach];
      rewrite (loop_test_nat steps k iloop Hsteps);
      rewrite bool_decide_eq_false_2 by lia; done.
  - destruct fuel as [|fuel]; [lia|]. cbn [integrationLoop seq forEach].
    rewrite (loop_test_nat steps k iloop Hsteps).
    rewrite bool_decide_eq_true_2 by lia.
    apply andThen_ext. intros s. apply IH; lia.
Qed.

Lemma updateParticlesAccelerations_modifies st :
  modifies (λ k _, k = "ax" ∨ k = "ay") (λ _ _, False) st
    (updateParticlesAccelerations ext st).
Proof.
  unfold updateParticlesAccelerations, updateGravitationalAccelerations,
    updateFrictionForces, updateSpringForces, applySpringForce, addTo.
  frame; auto.
Qed.



(** One step of the loop, written out: the sub-steps in the order of the
    source. *)
Lemma integrationStep_order fuel tStart iloop st :
  integrationStep ext fuel tStart iloop st
  = (updateParticlesPosition fuel
       (halfUpdateVelocity (set_time (tStart + of_nat iloop * dt st)%js st))
     >>> (λ st1,
       updateObstaclesPosition fuel
         (updateParticlesSpeed
            (halfUpdateVelocity
               (pinAtoms (updateParticlesAccelerations ext st1))))
       >>> adjustTemperature ext None false)).
Proof. reflexivity. Qed.

(** When [floor(duration/dt)] is negative, [-Infinity] or [NaN] the loop
    does not run at all. *)
Lemma integrationLoop_none fuel (body : nat → engine PB W → outcome (engine PB W))
    steps st :
  (steps <? Fin 1)%js = true ∨ isNaN steps = true →
  integrationLoop fuel body steps 1 st = Returned st.
Proof.
  intros H.
  assert (Hle : (of_nat 1 <=? steps)%js = false).
  { destruct steps as [q| | |]; simpl in *; destruct H as [H|H]; try done.
    unfold Qltb in H. destruct (q ?= 1)%Q eqn:Hc; try done.
    apply Qlt_alt in Hc.
    destruct (Qle_bool (inject_Z 1) q) eqn:Hq; [|done].
    apply Qle_bool_iff in Hq. change (inject_Z 1) with 1%Q in Hq.
    exfalso. apply (Qlt_not_le _ _ Hc Hq). }
  destruct fuel; cbn [integrationLoop]; by rewrite Hle.
Qed.

End Integrate.


(** The three steps of that call return, and leave the atom 3 nm further
    along x, the clock at 3 fs and the buffers advanced by 3 fs. *)
Example integrate_three_steps :
  let after :=
    stateOf oneMovingAtom
      (integrate plainExternals 10 (Some (Fin 3)) (Some (Fin 1)) oneMovingAtom) in
  hasReturned
    (integrate plainExternals 10 (Some (Fin 3)) (Some (Fin 1)) oneMovingAtom)
  = true
  ∧ aget "x" 0 oneMovingAtom = Fin 5
  ∧ aget "x" 0 after = Fin 8
  ∧ time after = Fin 3
  ∧ pressureBuffers after = Fin 3.
Proof. vm_compute. split_and!; reflexivity. Qed.

(** ** Van der Waals pairs *)

Section VdwPairs.

Context {PB W : Type}.
Implicit Types st : engine PB W.









(** [createVdwPairsArray] allocates the two index arrays with
    [N(N-1)/2] slots and then runs [updateVdwPairsArray]. *)
Lemma createVdwPairsArray_allocates st :
  createVdwPairsArray st
  = updateVdwPairsArray
      (set_vdwPairAtom2Index (Some (replicate (N st * (N st - 1) / 2) 0))
         (set_vdwPairAtom1Index (Some (replicate (N st * (N st - 1) / 2) 0))
            (set_vdwPairs_COUNT (N_vdwPairs st) st))).
Proof. reflexivity. Qed.

End VdwPairs.


(** Of the three atoms only the first two are close enough: one pair is
    recorded, in three slots of capacity. *)
Example threeWideAtoms_pairs :
  recordedVdwPairs threeWideAtomsPaired = [(0, 1)]
  ∧ length <$> vdwPairAtom1Index threeWideAtomsPaired = Some 3.
Proof. vm_compute. done. Qed.


(** ** Setting up: elements, atoms, target temperature *)

Section SetUp.
Context {PB W : Type} (ext : externals PB W).
Implicit Types st : engine PB W.

Lemma Qltb_false_le (p q : Q) : Qltb p q = false ↔ (q <= p)%Q.
Proof.
  unfold Qltb. destruct (p ?= q)%Q eqn:Hc.
  - apply Qeq_alt in Hc. split; [intros _; rewrite Hc; apply Qle_refl|done].
  - apply Qlt_alt in Hc. split; [done|]. intros H. exfalso.
    apply (Qlt_not_le _ _ Hc H).
  - apply Qgt_alt in Hc. split; [intros _; by apply Qlt_le_weak|done].
Qed.

Lemma validateTemperature_None (t : num) :
  validateTemperature t = None ↔ ∃ q, t = Fin q ∧ (0 <= q)%Q.
Proof.
  unfold validateTemperature. destruct t as [q| | |]; simpl.
  - destruct (Qltb q 0) eqn:Hq.
    + split; [done|]. intros (q' & [= <-] & Hle).
      apply Qltb_false_le in Hle. congruence.
    + split; [|done]. intros _. exists q. split; [done|].
      by apply Qltb_false_le.
  - split; [done|]. by intros (q & ? & _).
  - split; [done|]. by intros (q & ? & _).
  - split; [done|]. by intros (q & ? & _).
Qed.

(** The natural number a number denotes, if it is one. *)
Lemma to_index_of_nat (v : num) (n : nat) : v ≈ of_nat n → to_index v = Some n.
Proof.
  destruct v as [q| | |]; simpl; try done. intros Hq.
  assert (Hf : Qfloor q = Z.of_nat n).
  { rewrite Hq. apply Qfloor_Z. }
  rewrite Hf.
  replace (Qle_bool 0 q) with true.
  2:{ symmetry. apply Qle_bool_iff. rewrite Hq.
      change 0%Q with (inject_Z 0). rewrite <- Zle_Qle. lia. }
  replace (Qeq_bool (inject_Z (Z.of_nat n)) q) with true.
  2:{ symmetry. apply Qeq_bool_iff. by rewrite Hq. }
  simpl. by rewrite Nat2Z.id.
Qed.

Lemma to_index_Some (v : num) (n : nat) : to_index v = Some n → v ≈ of_nat n.
Proof.
  destruct v as [q| | |]; simpl; try done.
  destruct (Qle_bool 0 q) eqn:H0; [|done].
  destruct (Qeq_bool (inject_Z (Qfloor q)) q) eqn:Hf; [|done].
  simpl. intros [= <-].
  apply Qle_bool_iff in H0. apply Qeq_bool_iff in Hf.
  rewrite Z2Nat.id; [by symmetry|].
  assert (H : (0 <= inject_Z (Qfloor q))%Q) by (by rewrite Hf).
  change 0%Q with (inject_Z 0) in H. by rewrite <- Zle_Qle in H.
Qed.

Lemma field_createArrays (keys : list string) (n : nat) (k : string) :
  field (Some (createArrays keys n)) k
  = if decide (k ∈ keys) then replicate n (Fin 0) else [].
Proof.
  unfold field, createArrays.
  induction keys as [|k' keys IH].
  - simpl. rewrite lookup_empty. destruct (decide (k ∈ [])) as [H|H]; [|done].
    by apply elem_of_nil in H.
  - rewrite fmap_cons, list_to_map_cons.
    destruct (decide (k = k')) as [->|Hne].
    + rewrite lookup_insert_eq.
      rewrite decide_True by apply list_elem_of_here. done.
    + rewrite lookup_insert_ne by done. rewrite IH.
      destruct (decide (k ∈ keys)) as [H|H], (decide (k ∈ k' :: keys)) as [H0|H0];
        try done.
      * exfalso. apply H0. by apply list_elem_of_further.
      * exfalso. apply elem_of_cons in H0 as [?|?]; done.
Qed.

(** X1.  [createAtomsArray(num)] returns exactly when the elements have been
    set up, the atoms have not been created before, and [num] is given and
    is an integer between 1 and 1000 ([N_MIN] and [N_MAX]); in every other
    case it throws. *)
Theorem createAtomsArray_returns_iff st (num : option num) :
  hasReturned (createAtomsArray num st) = true
  ↔ elementsHaveBeenCreated st = true ∧ atomsHaveBeenCreated st = false
    ∧ ∃ (v : JS.num) (n : nat), num = Some v ∧ v ≈ of_nat n ∧ 1 ≤ n ≤ 1000.
Proof.
  unfold createAtomsArray.
  destruct (elementsHaveBeenCreated st); cbn [negb hasReturned];
    [|split; [intros [=]|intros [[=] _]]].
  destruct (atomsHaveBeenCreated st); cbn [negb hasReturned];
    [split; [intros [=]|intros (_ & [=] & _)]|].
  destruct num as [v|]; cbn [hasReturned];
    [|split; [intros [=]|intros (_ & _ & ? & ? & [=] & _)]].
  split.
  - destruct (v === Math_floor v)%js eqn:Hint; cbn [negb hasReturned].
    2:{ done. }
    destruct (v <? N_MIN)%js eqn:Hmin; cbn [hasReturned]; [done|].
    destruct (v >? N_MAX)%js eqn:Hmax; cbn [hasReturned]; [done|].
    unfold N_MIN, N_MAX in *.
    intros _. split_and!; try done.
    destruct v as [q| | |]; simpl in *; try done.
    apply Qeq_bool_iff in Hint.
    apply Qltb_false_le in Hmin, Hmax.
    exists (Fin q), (Z.to_nat (Qfloor q)).
    rewrite Hint in Hmin, Hmax.
    change 1%Q with (inject_Z 1) in Hmin.
    change 1000%Q with (inject_Z 1000) in Hmax.
    rewrite <- Zle_Qle in Hmin, Hmax.
    split_and!; [done| |lia|lia].
    simpl. rewrite Z2Nat.id by lia. done.
  - intros (_ & _ & v' & n & [= <-] & Hv & Hn).
    unfold N_MIN, N_MAX.
    destruct v as [q| | |]; simpl in *; try done.
    assert (Hf : Qfloor q = Z.of_nat n).
    { rewrite Hv. apply Qfloor_Z. }
    unfold N_MIN, N_MAX.
    replace (Qeq_bool q (inject_Z (Qfloor q))) with true.
    2:{ symmetry. apply Qeq_bool_iff. by rewrite Hf. }
    simpl.
    replace (Qltb q 1) with false.
    2:{ symmetry. apply Qltb_false_le. rewrite Hv.
        change 1%Q with (inject_Z 1). rewrite <- Zle_Qle. lia. }
    simpl.
    replace (Qltb 1000 q) with false.
    2:{ symmetry. apply Qltb_false_le. rewrite Hv.
        change 1000%Q with (inject_Z 1000). rewrite <- Zle_Qle. lia. }
    done.
Qed.

(** X2.  When [createAtomsArray(n)] returns, there are no atoms yet
    ([N] is 0), the engine records that the atoms have been created and
    that the size is settled, and every property array of the atoms holds
    exactly [n] zeros: a read at an index below [n] gives 0, a read at or
    beyond [n], or of a property that is not one of the atoms', gives
    [undefined] (here [NaN]). *)
Theorem createAtomsArray_allocates st (v : num) (n : nat) st' :
  createAtomsArray (Some v) st = Returned st' → v ≈ of_nat n →
  N st' = 0 ∧ atomsHaveBeenCreated st' = true
  ∧ sizeHasBeenInitialized st' = true
  ∧ (∀ k, k ∈ ATOM_PROPERTY_LIST → field (atoms st') k = replicate n (Fin 0))
  ∧ (∀ k i, k ∈ ATOM_PROPERTY_LIST → i < n → aget k i st' = Fin 0)
  ∧ (∀ k i, aget k i st' = NaN ↔ ¬ (k ∈ ATOM_PROPERTY_LIST ∧ i < n)).
Proof.
  intros Hret Hv. unfold createAtomsArray in Hret.
  destruct (elementsHaveBeenCreated st); cbn [negb] in Hret; [|done].
  destruct (atomsHaveBeenCreated st); cbn [negb] in Hret; [done|].
  destruct (v === Math_floor v)%js; cbn [negb] in Hret; [|done].
  destruct (v <? N_MIN)%js; [done|].
  destruct (v >? N_MAX)%js; [done|].
  rewrite (to_index_of_nat v n Hv) in Hret. cbn [default] in Hret.
  injection Hret as <-.
  assert (Hfield : ∀ k, field (atoms (set_N 0
       (set_atoms (Some (createArrays ATOM_PROPERTY_LIST n))
          (set_sizeHasBeenInitialized true (set_atomsHaveBeenCreated true st))))) k
       = if decide (k ∈ ATOM_PROPERTY_LIST) then replicate n (Fin 0) else []).
  { intros k. apply field_createArrays. }
  split_and!; try done.
  - intros k Hk. rewrite Hfield. by rewrite decide_True.
  - intros k i Hk Hi. unfold aget. rewrite Hfield, decide_True by done.
    unfold rd. by rewrite lookup_replicate_2.
  - intros k i. unfold aget. rewrite Hfield. unfold rd. case_decide as Hk.
    + destruct (decide (i < n)) as [Hi|Hi].
      * rewrite lookup_replicate_2 by done. simpl. split; [done|tauto].
      * rewrite lookup_ge_None_2 by (rewrite length_replicate; lia).
        simpl. split; [tauto|done].
    + simpl. split; [tauto|done].
Qed.

Lemma eget_eset st (k k' : string) (i j : nat) (v : num) :
  eget k' j (eset k i v st)
  = if decide (k = k' ∧ i = j ∧ i < length (field (elements st) k))
    then v else eget k' j st.
Proof.
  unfold eget, eset. simpl. rewrite field_store.
  destruct (decide (k = k')) as [->|Hk].
  - rewrite rd_insert. repeat case_decide; intuition congruence.
  - case_decide; intuition congruence.
Qed.

Lemma length_field_eset st (k k' : string) (i : nat) (v : num) :
  length (field (elements (eset k i v st)) k')
  = length (field (elements st) k').
Proof.
  unfold eset. simpl. rewrite field_store.
  case_decide; [by rewrite length_insert|done].
Qed.

Lemma is_Some_elements_eset st (k : string) (i : nat) (v : num) :
  is_Some (elements (eset k i v st)) ↔ is_Some (elements st).
Proof. unfold eset, store. simpl. by rewrite fmap_is_Some. Qed.

Lemma addElement_cases st (p : elementProps) (c : nat) :
  elementsCapacity st c →
  if decide (N_elements st < c) then
    ∃ st', addElement ext p st = Returned st'
      ∧ N_elements st' = S (N_elements st)
      ∧ elementsCapacity st' c
      ∧ elementsHaveBeenCreated st' = true
      ∧ eget "mass" (N_elements st) st' = orUndefined (ep_mass p)
      ∧ eget "epsilon" (N_elements st) st' = orUndefined (ep_epsilon p)
      ∧ eget "sigma" (N_elements st) st' = orUndefined (ep_sigma p)
      ∧ eget "radius" (N_elements st) st'
        = lennardJones_radius ext (orUndefined (ep_sigma p))
      ∧ ∀ k j, j ≠ N_elements st → eget k j st' = eget k j st
  else addElement ext p st
       = Threw "TypeError: assignShortcutReferences.N_elements is not a function"
           (set_elements (extendArrays (elements st) (N_elements st + 10)) st).
Proof.
  intros [[m Hm] Hlen]. unfold addElement. rewrite Hm.
  assert (He : length (field (Some m) "epsilon") = c).
  { rewrite <- Hm. apply Hlen. unfold ELEMENT_PROPERTY_LIST. set_solver. }
  rewrite He.
  case_decide as Hn.
  - destruct (Nat.leb_spec c (N_elements st)) as [?|_]; [lia|].
    eexists. split; [reflexivity|].
    assert (Hin : ∀ k, k ∈ ELEMENT_PROPERTY_LIST →
                       N_elements st < length (field (elements st) k)).
    { intros k Hk. by rewrite Hlen. }
    assert (Hmass := Hin "mass" ltac:(unfold ELEMENT_PROPERTY_LIST; set_solver)).
    assert (Heps := Hin "epsilon" ltac:(unfold ELEMENT_PROPERTY_LIST; set_solver)).
    assert (Hsig := Hin "sigma" ltac:(unfold ELEMENT_PROPERTY_LIST; set_solver)).
    assert (Hrad := Hin "radius" ltac:(unfold ELEMENT_PROPERTY_LIST; set_solver)).
    split_and!.
    + done.
    + split.
      * change (is_Some (elements (eset "radius" (N_elements st)
           (lennardJones_radius ext (orUndefined (ep_sigma p)))
           (eset "sigma" (N_elements st) (orUndefined (ep_sigma p))
           (eset "epsilon" (N_elements st) (orUndefined (ep_epsilon p))
           (eset "mass" (N_elements st) (orUndefined (ep_mass p)) st)))))).
        rewrite !is_Some_elements_eset. by rewrite Hm.
      * intros k Hk.
        change (length (field (elements (eset "radius" (N_elements st)
           (lennardJones_radius ext (orUndefined (ep_sigma p)))
           (eset "sigma" (N_elements st) (orUndefined (ep_sigma p))
           (eset "epsilon" (N_elements st) (orUndefined (ep_epsilon p))
           (eset "mass" (N_elements st) (orUndefined (ep_mass p)) st))))) k) = c).
        rewrite !length_field_eset. by apply Hlen.
    + done.
    + change (eget ?k ?j (set_N_elements _ (set_elementsHaveBeenCreated _ ?s)))
        with (eget k j s).
      rewrite !eget_eset, !length_field_eset.
      repeat case_decide; try done; exfalso; intuition congruence.
    + change (eget ?k ?j (set_N_elements _ (set_elementsHaveBeenCreated _ ?s)))
        with (eget k j s).
      rewrite !eget_eset, !length_field_eset.
      repeat case_decide; try done; exfalso; intuition congruence.
    + change (eget ?k ?j (set_N_elements _ (set_elementsHaveBeenCreated _ ?s)))
        with (eget k j s).
      rewrite !eget_eset, !length_field_eset.
      repeat case_decide; try done; exfalso; intuition congruence.
    + change (eget ?k ?j (set_N_elements _ (set_elementsHaveBeenCreated _ ?s)))
        with (eget k j s).
      rewrite !eget_eset, !length_field_eset.
      repeat case_decide; try done; exfalso; intuition congruence.
    + intros k j Hj.
      change (eget ?k ?j (set_N_elements _ (set_elementsHaveBeenCreated _ ?s)))
        with (eget k j s).
      rewrite !eget_eset.
      repeat case_decide; try done; exfalso; intuition congruence.
  - destruct (Nat.leb_spec c (N_elements st)) as [_|?]; [|lia].
    by rewrite <- Hm.
Qed.

(** The loop of [initializeElements] from a state with [a] elements and
    room for [c]. *)
Lemma addElements_returns (rest : list elementProps) : ∀ st (c : nat),
  elementsCapacity st c → N_elements st + length rest ≤ c →
  ∃ st', forEach (addElement ext) rest st = Returned st'
    ∧ N_elements st' = N_elements st + length rest
    ∧ elementsCapacity st' c
    ∧ (∀ i p, rest !! i = Some p →
         eget "mass" (N_elements st + i) st' = orUndefined (ep_mass p)
         ∧ eget "epsilon" (N_elements st + i) st' = orUndefined (ep_epsilon p)
         ∧ eget "sigma" (N_elements st + i) st' = orUndefined (ep_sigma p)
         ∧ eget "radius" (N_elements st + i) st'
           = lennardJones_radius ext (orUndefined (ep_sigma p)))
    ∧ ∀ k j, j < N_elements st → eget k j st' = eget k j st.
Proof.
  induction rest as [|p rest IH]; intros st c Hcap Hroom.
  - exists st. simpl. split_and!; try done; lia.
  - simpl in Hroom. cbn [forEach].
    pose proof (addElement_cases st p c Hcap) as Hadd.
    rewrite decide_True in Hadd by lia.
    destruct Hadd as (s1 & -> & HN1 & Hcap1 & _ & Hm & He & Hs & Hr & Hother).
    cbn [andThen].
    destruct (IH s1 c Hcap1) as (st' & Hret & HN' & Hcap' & Hst & Hkeep);
      [lia|].
    exists st'. split_and!; try done.
    + rewrite HN', HN1. simpl. lia.
    + intros [|i] q Hq.
      * injection Hq as <-. rewrite Nat.add_0_r.
        rewrite !Hkeep by lia. done.
      * simpl in Hq. specialize (Hst i q Hq).
        rewrite HN1 in Hst.
        replace (N_elements st + S i) with (S (N_elements st) + i) by lia.
        done.
    + intros k j Hj. rewrite Hkeep by lia. apply Hother. lia.
Qed.

Lemma addElements_throws (rest : list elementProps) : ∀ st (c : nat),
  elementsCapacity st c → rest ≠ [] → c < N_elements st + length rest →
  ∃ msg st', forEach (addElement ext) rest st = Threw msg st'.
Proof.
  induction rest as [|p rest IH]; intros st c Hcap Hne Hroom; [done|].
  simpl in Hroom. cbn [forEach].
  pose proof (addElement_cases st p c Hcap) as Hadd.
  case_decide as Hn.
  - destruct Hadd as (s1 & -> & HN1 & Hcap1 & _).
    cbn [andThen]. apply (IH s1 c Hcap1).
    + intros ->. simpl in Hroom. lia.
    + lia.
  - rewrite Hadd. by do 2 eexists.
Qed.

Lemma createElementsArray_capacity st (n : nat) :
  elementsCapacity (createElementsArray n st) n
  ∧ N_elements (createElementsArray n st) = N_elements st.
Proof.
  split; [|done]. split; [by eexists|].
  intros k Hk. unfold createElementsArray.
  change (elements (set_elements ?e st)) with e.
  rewrite field_createArrays, decide_True by done.
  apply length_replicate.
Qed.

(** X3.  On an engine that has no elements yet, [initializeElements(elems)]
    returns, sets [N_elements] to the number of elements given, and stores
    the mass, epsilon and sigma of element i of the list at index i,
    together with the radius [lennardJones.radius(sigma)]. *)
Theorem initializeElements_stores st (elems : list elementProps) :
  N_elements st = 0 →
  ∃ st', initializeElements ext elems st = Returned st'
    ∧ N_elements st' = length elems
    ∧ elementsHaveBeenCreated st' = true
    ∧ ∀ i p, elems !! i = Some p →
        eget "mass" i st' = orUndefined (ep_mass p)
        ∧ eget "epsilon" i st' = orUndefined (ep_epsilon p)
        ∧ eget "sigma" i st' = orUndefined (ep_sigma p)
        ∧ eget "radius" i st'
          = lennardJones_radius ext (orUndefined (ep_sigma p)).
Proof.
  intros H0. unfold initializeElements.
  destruct (createElementsArray_capacity st (length elems)) as [Hcap HN].
  destruct (addElements_returns elems _ _ Hcap) as (s1 & -> & HN1 & _ & Hst & _).
  { rewrite HN, H0. simpl. lia. }
  cbn [andThen]. eexists. split; [reflexivity|].
  rewrite HN, H0 in HN1. rewrite HN, H0 in Hst.
  split_and!; try done.
Qed.

(** X4.  [initializeElements(elems)] returns exactly when the engine has no
    elements yet or the list is empty: called with a non-empty list on an
    engine that already has an element, it throws. *)
Theorem initializeElements_returns_iff st (elems : list elementProps) :
  hasReturned (initializeElements ext elems st) = true
  ↔ N_elements st = 0 ∨ elems = [].
Proof.
  unfold initializeElements.
  destruct (createElementsArray_capacity st (length elems)) as [Hcap HN].
  split.
  - intros Hret.
    destruct (decide (N_elements st = 0)) as [?|Hn]; [by left|].
    destruct elems as [|p elems]; [by right|]. exfalso.
    destruct (addElements_throws (p :: elems) _ _ Hcap) as (msg & s' & Hthrow).
    + done.
    + rewrite HN. lia.
    + rewrite Hthrow in Hret. done.
  - intros [H0| ->].
    + destruct (addElements_returns elems _ _ Hcap) as (s1 & -> & _).
      { rewrite HN, H0. simpl. lia. }
      done.
    + done.
Qed.

(** X5.  After [initializeElements] has returned, the arrays of the
    elements are full, so a further [addElement] takes the branch that
    extends them and there calls [assignShortcutReferences.N_elements],
    which is not a function: the call throws a [TypeError] and the number
    of elements stays as it was. *)
Theorem addElement_after_initializeElements_throws st
    (elems : list elementProps) (p : elementProps) st' :
  initializeElements ext elems st = Returned st' →
  ∃ st'', addElement ext p st'
          = Threw "TypeError: assignShortcutReferences.N_elements is not a function" st''
    ∧ N_elements st'' = N_elements st'.
Proof.
  unfold initializeElements. intros Hret.
  destruct (createElementsArray_capacity st (length elems)) as [Hcap HN].
  assert (Hfull : ∃ s1, st' = set_elementsHaveBeenCreated true s1
                        ∧ elementsCapacity s1 (length elems)
                        ∧ length elems ≤ N_elements s1).
  { destruct (decide (N_elements st + length elems ≤ length elems)) as [Hle|Hgt].
    - destruct (addElements_returns elems _ _ Hcap) as (s1 & Hs1 & HN1 & Hc1 & _).
      { by rewrite HN. }
      rewrite Hs1 in Hret. injection Hret as <-.
      exists s1. split_and!; [done|done|lia].
    - destruct elems as [|q elems].
      + simpl in Hret. injection Hret as <-.
        eexists. split_and!; [done|done|simpl; lia].
      + destruct (addElements_throws (q :: elems) _ _ Hcap)
          as (msg & s' & Hthrow); [done|rewrite HN; lia|].
        rewrite Hthrow in Hret. done. }
  destruct Hfull as (s1 & -> & Hc1 & Hn1).
  assert (Hc : elementsCapacity (set_elementsHaveBeenCreated true s1)
                 (length elems)) by exact Hc1.
  pose proof (addElement_cases _ p _ Hc) as Hadd.
  rewrite decide_False in Hadd by (change (N_elements (set_elementsHaveBeenCreated true s1)) with (N_elements s1); lia).
  rewrite Hadd. by eexists.
Qed.

End SetUp.

Section TargetTemperature.
Context {PB W : Type}.
Implicit Types st : engine PB W.

(** X6.  [setTargetTemperature(v)] returns exactly for a finite [v] that is
    not negative, and then changes nothing but [T_target], which becomes
    [v]; for [NaN], a negative number or an infinity it throws and leaves
    the engine as it was. *)
Theorem setTargetTemperature_stores_or_rejects (v : num) st :
  match setTargetTemperature v st with
  | Returned st' => (∃ q, v = Fin q ∧ (0 <= q)%Q) ∧ st' = set_T_target v st
  | Threw _ st' => (¬ ∃ q, v = Fin q ∧ (0 <= q)%Q) ∧ st' = st
  | OutOfFuel => False
  end.
Proof.
  unfold setTargetTemperature.
  destruct (validateTemperature v) as [msg|] eqn:Hv.
  - split; [|done]. intros H. apply validateTemperature_None in H. congruence.
  - split; [|done]. by apply validateTemperature_None.
Qed.

End TargetTemperature.

(** Arrays for two atoms on the engine with one element. *)
Lemma createAtomsArray_allocates_witness :
  N twoAtomSlots = 0
  ∧ field (atoms twoAtomSlots) "x" = [Fin 0; Fin 0]
  ∧ aget "vx" 1 twoAtomSlots = Fin 0
  ∧ aget "vx" 2 twoAtomSlots = NaN.
Proof.
  destruct (createAtomsArray_allocates withElements (Fin 2) 2 twoAtomSlots)
    as (HN & _ & _ & Hfield & Hzero & Hnan).
  - vm_compute. reflexivity.
  - vm_compute. reflexivity.
  - split_and!.
    + exact HN.
    + apply (Hfield "x"). (apply list_elem_of_In; simpl; tauto).
    + apply (Hzero "vx" 1); [(apply list_elem_of_In; simpl; tauto)|lia].
    + apply (Hnan "vx" 2). intros [_ H]. lia.
Defined.

(** The one light element on the engine just created. *)
Lemma initializeElements_stores_witness :
  ∃ st', initializeElements plainExternals [lightElement] freshEngine
         = Returned st'
    ∧ N_elements st' = 1
    ∧ eget "mass" 0 st' = Fin 1
    ∧ eget "radius" 0 st' = (Fin (1 # 2) * Fin (2 # 10))%js.
Proof.
  destruct (initializeElements_stores plainExternals freshEngine [lightElement])
    as (st' & Hr & HN & _ & Hv).
  - reflexivity.
  - exists st'. destruct (Hv 0 lightElement eq_refl) as (Hm & _ & _ & Hrad).
    split_and!; [exact Hr|exact HN|exact Hm|exact Hrad].
Defined.

(** A second element on the engine with one element. *)
Lemma addElement_after_initializeElements_throws_witness :
  ∃ st'', addElement plainExternals lightElement withElements
          = Threw "TypeError: assignShortcutReferences.N_elements is not a function" st''
    ∧ N_elements st'' = N_elements withElements.
Proof.
  apply (addElement_after_initializeElements_throws plainExternals freshEngine
           [lightElement] lightElement withElements).
  vm_compute. reflexivity.
Defined.

(** ** Properties of atoms *)

Section Atoms.
Context {PB W : Type} (ext : externals PB W).
Implicit Types st : engine PB W.

(** *** Object literals *)

Lemma getProp_cons (k k' : string) (v : num) (props : list (string * num)) :
  getProp k ((k', v) :: props) = if decide (k = k') then Some v else getProp k props.
Proof.
  cbn [getProp]. destruct (String.eqb_spec k k'); by case_decide.
Qed.

Lemma getProp_None (k : string) (props : list (string * num)) :
  getProp k props = None ↔ k ∉ props.*1.
Proof.
  induction props as [|[k' v] props IH].
  - simpl. split; [intros _; apply not_elem_of_nil|done].
  - rewrite getProp_cons, fmap_cons, not_elem_of_cons. simpl.
    case_decide; [split; [done|tauto]|]. rewrite IH. tauto.
Qed.


Lemma setProp_keys (k : string) (v : num) (props : list (string * num)) :
  (setProp k v props).*1
  = if decide (k ∈ props.*1) then props.*1 else props.*1 ++ [k].
Proof.
  induction props as [|[k0 v0] props IH]; cbn [setProp].
  - by rewrite decide_False by apply not_elem_of_nil.
  - destruct (String.eqb_spec k k0) as [->|Hne].
    + rewrite decide_True by (rewrite fmap_cons; apply list_elem_of_here). done.
    + rewrite !fmap_cons, IH. simpl.
      destruct (decide (k ∈ props.*1)) as [Hin|Hin].
      * by rewrite decide_True by (by apply list_elem_of_further).
      * rewrite decide_False; [done|].
        rewrite not_elem_of_cons. done.
Qed.

Lemma setProp_NoDup (k : string) (v : num) (props : list (string * num)) :
  NoDup props.*1 → NoDup (setProp k v props).*1.
Proof.
  intros H. rewrite setProp_keys. case_decide; [done|].
  apply NoDup_app. split_and!; [done| |apply NoDup_singleton].
  intros x Hx Hx'. apply list_elem_of_singleton in Hx' as ->. done.
Qed.

(** *** The loop over the properties *)

Lemma setAtomProperty_returns i (kv : string * num) st st' :
  setAtomProperty i kv st = Returned st' → st' = aset kv.1 i kv.2 st.
Proof.
  unfold setAtomProperty. destruct (atoms st) as [m|]; [|done].
  case_bool_decide; [|done]. by intros [= <-].
Qed.

(** Atom i after the loop holds, for each property, the value given for it,
    and the other atoms are as before. *)
Lemma setAtomProperties_loop i (props : list (string * num)) : ∀ st st',
  forEach (setAtomProperty i) props st = Returned st' →
  modifies (λ k j, j = i ∧ k ∈ props.*1) (λ _ _, False) st st'
  ∧ st' = set_atoms (atoms st') st
  ∧ (NoDup props.*1 →
     ∀ k v, getProp k props = Some v →
            i < length (field (atoms st) k) → aget k i st' = v).
Proof.
  induction props as [|[k0 v0] props IH]; intros st st' Hret.
  - injection Hret as <-. split_and!; [apply modifies_refl|by destruct st|done].
  - cbn [forEach] in Hret.
    destruct (setAtomProperty i (k0, v0) st) as [s1| |] eqn:H1; try done.
    apply setAtomProperty_returns in H1. simpl in H1. subst s1.
    cbn [andThen] in Hret.
    destruct (IH _ _ Hret) as (Hm & Hset & Hget). split_and!.
    + eapply modifies_trans.
      * apply modifies_aset; [|apply modifies_refl].
        split; [done|]. apply list_elem_of_here.
      * eapply modifies_weaken; [| |exact Hm]; simpl; [|done].
        intros k j [-> Hk]. split; [done|].
        by apply list_elem_of_further.
    + rewrite Hset at 1. done.
    + intros Hnd k v Hk Hi. rewrite fmap_cons in Hnd.
      apply NoDup_cons in Hnd as [Hk0 Hnd]. simpl in Hk0.
      specialize (Hget Hnd). rewrite getProp_cons in Hk.
      case_decide as Hkk.
      * injection Hk as <-. subst k0.
        destruct Hm as (_ & Hsame & _). rewrite Hsame.
        -- rewrite aget_aset. rewrite decide_True; done.
        -- intros [_ Hin]. done.
      * apply Hget; [done|]. by rewrite length_field_aset.
Qed.

Lemma setAtomProperties_returns i (props : list (string * num)) st st' :
  setAtomProperties i props st = Returned st' →
  ∃ l s3,
    chargedAtomsAfter i (aget "charge" i st)
      (getProp "charge" (atomPropsWritten props st)) (chargedAtomsList st)
    = Some l
    ∧ forEach (setAtomProperty i) (atomPropsWritten props st)
        (set_hasChargedAtoms (negb (length l =? 0)%nat)
           (set_chargedAtomsList l
              (match getProp "element" props with
               | Some e => markElementUsed e st
               | None => st
               end)))
      = Returned s3
    ∧ st' = aset "speed" i
              (Math_sqrt (aget "vx" i s3 * aget "vx" i s3
                          + aget "vy" i s3 * aget "vy" i s3)%js)
              (aset "py" i (aget "vy" i s3 * aget "mass" i s3)%js
                 (aset "px" i (aget "vx" i s3 * aget "mass" i s3)%js s3)).
Proof.
  unfold setAtomProperties, atomPropsWritten, chargedAtomsAfter.
  set (s0 := match getProp "element" props with
             | Some e => markElementUsed e st
             | None => st
             end).
  assert (Hs0 : atoms s0 = atoms st ∧ elements s0 = elements st
                ∧ chargedAtomsList s0 = chargedAtomsList st).
  { unfold s0, markElementUsed. destruct (getProp "element" props) as [e|]; [|done].
    by destruct (to_index e). }
  destruct Hs0 as (Hat & Hel & Hcl).
  assert (Hep : ∀ k e, elementProperty k e s0 = elementProperty k e st).
  { intros k e. unfold elementProperty, eget. by rewrite Hel. }
  assert (Hc : aget "charge" i s0 = aget "charge" i st).
  { unfold aget. by rewrite Hat. }
  destruct (bool_decide (is_Some (getProp "element" props))
            && bool_decide (elements s0 = None)); [done|].
  cbv zeta. destruct (atoms s0) as [m|] eqn:Hm; [|done].
  rewrite Hc, Hcl.
  replace (match getProp "element" props with
           | Some e => setProp "radius" (elementProperty "radius" e s0)
                         (setProp "mass" (elementProperty "mass" e s0) props)
           | None => props
           end)
    with (match getProp "element" props with
          | Some e => setProp "radius" (elementProperty "radius" e st)
                        (setProp "mass" (elementProperty "mass" e st) props)
          | None => props
          end)
    by (destruct (getProp "element" props); [by rewrite !Hep|done]).
  set (props' := match getProp "element" props with
                 | Some e => _ | None => props end).
  match goal with
  | |- match ?c with Some _ => _ | None => _ end = _ → _ =>
      destruct c as [l|] eqn:Hl; [|done]
  end.
  intros Hret.
  destruct (forEach (setAtomProperty i) props' _) as [s3| |] eqn:H3; try done.
  cbn [andThen] in Hret. injection Hret as <-.
  exists l, s3. split_and!; [done|done|].
  by rewrite !aget_aset_other by (intros [? _]; done).
Qed.


Lemma atomPropsWritten_NoDup (props : list (string * num)) st :
  NoDup props.*1 → NoDup (atomPropsWritten props st).*1.
Proof.
  intros H. unfold atomPropsWritten.
  destruct (getProp "element" props); [|done].
  by do 2 apply setProp_NoDup.
Qed.

(** What a call of [setAtomProperties(i, props)] that returns has done. *)
Lemma setAtomProperties_spec i (props : list (string * num)) st st' :
  setAtomProperties i props st = Returned st' →
  ∃ l,
    chargedAtomsAfter i (aget "charge" i st)
      (getProp "charge" (atomPropsWritten props st)) (chargedAtomsList st)
    = Some l
    ∧ chargedAtomsList st' = l
    ∧ hasChargedAtoms st' = negb (length l =? 0)%nat
    ∧ N st' = N st ∧ elements st' = elements st
    ∧ obstacles st' = obstacles st
    ∧ is_Some (atoms st)
    ∧ (∀ k, length (field (atoms st') k) = length (field (atoms st) k))
    ∧ (∀ k j, j ≠ i → aget k j st' = aget k j st)
    ∧ (NoDup props.*1 → ∀ k, k ≠ "px" → k ≠ "py" → k ≠ "speed" →
         aget k i st'
         = match getProp k (atomPropsWritten props st) with
           | Some v => if decide (i < length (field (atoms st) k)) then v
                       else aget k i st
           | None => aget k i st
           end)
    ∧ (i < length (field (atoms st) "px") →
       aget "px" i st' = (aget "vx" i st' * aget "mass" i st')%js)
    ∧ (i < length (field (atoms st) "py") →
       aget "py" i st' = (aget "vy" i st' * aget "mass" i st')%js)
    ∧ (i < length (field (atoms st) "speed") →
       aget "speed" i st'
       = Math_sqrt (aget "vx" i st' * aget "vx" i st'
                    + aget "vy" i st' * aget "vy" i st')%js).
Proof.
  intros Hret.
  destruct (setAtomProperties_returns i props st st' Hret)
    as (l & s3 & Hl & H3 & ->).
  exists l. split; [exact Hl|].
  set (s0 := match getProp "element" props with
             | Some e => markElementUsed e st
             | None => st
             end) in *.
  assert (Hs0 : atoms s0 = atoms st ∧ elements s0 = elements st
                ∧ obstacles s0 = obstacles st ∧ N s0 = N st).
  { unfold s0, markElementUsed. destruct (getProp "element" props) as [e|]; [|done].
    by destruct (to_index e). }
  destruct Hs0 as (Hat & Hel & Hob & HN).
  set (s1 := set_hasChargedAtoms _ _) in H3.
  assert (Hget1 : ∀ k j, aget k j s1 = aget k j st).
  { intros k j. unfold aget. change (atoms s1) with (atoms s0). by rewrite Hat. }
  assert (Hlen1 : ∀ k, length (field (atoms s1) k) = length (field (atoms st) k)).
  { intros k. change (atoms s1) with (atoms s0). by rewrite Hat. }
  destruct (setAtomProperties_loop i _ _ _ H3) as (Hm & Heq & Hval).
  pose proof Hm as (_ & Hsame & Hobs & Hlen).
  assert (Hsome : is_Some (atoms st)).
  { destruct (atoms st) eqn:Ha; [by eexists|].
    unfold setAtomProperties in Hret. fold s0 in Hret.
    destruct (_ && _) in Hret; [done|]. cbv zeta in Hret.
    by rewrite Hat in Hret. }
  set (vpx := (aget "vx" i s3 * aget "mass" i s3)%js).
  set (vpy := (aget "vy" i s3 * aget "mass" i s3)%js).
  set (vsp := Math_sqrt _).
  assert (Hfin : ∀ k j,
    aget k j (aset "speed" i vsp (aset "py" i vpy (aset "px" i vpx s3)))
    = if decide (j = i ∧ k = "speed" ∧ i < length (field (atoms st) k)) then vsp
      else if decide (j = i ∧ k = "py" ∧ i < length (field (atoms st) k)) then vpy
      else if decide (j = i ∧ k = "px" ∧ i < length (field (atoms st) k)) then vpx
      else aget k j s3).
  { intros k j. rewrite !aget_aset, !length_field_aset, !Hlen, !Hlen1.
    repeat case_decide; try done; exfalso; destruct_and?; simplify_eq; tauto. }
  split_and!.
  - rewrite Heq. done.
  - rewrite Heq. done.
  - rewrite Heq. simpl. exact HN.
  - rewrite Heq. simpl. exact Hel.
  - rewrite Heq. simpl. exact Hob.
  - done.
  - intros k. rewrite !length_field_aset, Hlen, Hlen1. done.
  - intros k j Hj. rewrite Hfin.
    rewrite !decide_False by tauto.
    rewrite Hsame by tauto. apply Hget1.
  - intros Hnd k Hpx Hpy Hsp. rewrite Hfin.
    specialize (Hval (atomPropsWritten_NoDup props st Hnd)).
    rewrite !decide_False by tauto.
    destruct (getProp k (atomPropsWritten props st)) as [v|] eqn:Hk.
    + case_decide as Hi.
      * apply Hval; [done|]. by rewrite Hlen1.
      * rewrite aget_outside by (by rewrite Hlen, Hlen1).
        by rewrite aget_outside.
    + rewrite Hsame; [apply Hget1|].
      apply getProp_None in Hk. tauto.
  - intros Hi. rewrite !Hfin.
    rewrite !(decide_False (P := _ ∧ "px" = "speed" ∧ _)) by (intros (_ & ? & _); done).
    rewrite !(decide_False (P := _ ∧ "px" = "py" ∧ _)) by (intros (_ & ? & _); done).
    rewrite !(decide_False (P := _ ∧ "vx" = _ ∧ _)) by (intros (_ & ? & _); done).
    rewrite !(decide_False (P := _ ∧ "mass" = _ ∧ _)) by (intros (_ & ? & _); done).
    by rewrite decide_True.
  - intros Hi. rewrite !Hfin.
    rewrite !(decide_False (P := _ ∧ "py" = "speed" ∧ _)) by (intros (_ & ? & _); done).
    rewrite !(decide_False (P := _ ∧ "vy" = _ ∧ _)) by (intros (_ & ? & _); done).
    rewrite !(decide_False (P := _ ∧ "mass" = _ ∧ _)) by (intros (_ & ? & _); done).
    by rewrite decide_True.
  - intros Hi. rewrite !Hfin.
    rewrite !(decide_False (P := _ ∧ "vx" = _ ∧ _)) by (intros (_ & ? & _); done).
    rewrite !(decide_False (P := _ ∧ "vy" = _ ∧ _)) by (intros (_ & ? & _); done).
    by rewrite decide_True.
Qed.



Lemma indexOf_Some (i idx : nat) (l : list nat) :
  indexOf i l = Some idx → l !! idx = Some i.
Proof.
  unfold indexOf. destruct (list_find _ l) as [[n x]|] eqn:Hf; [|done].
  simpl. intros [= ->]. apply list_find_Some in Hf as (Hl & -> & _). done.
Qed.


Lemma remove_at (i idx : nat) (l : list nat) :
  NoDup l → l !! idx = Some i →
  NoDup (take idx l ++ drop (S idx) l)
  ∧ ∀ j, j ∈ take idx l ++ drop (S idx) l ↔ j ∈ l ∧ j ≠ i.
Proof.
  intros Hnd Hl. rewrite <- (take_drop_middle l idx i Hl) in Hnd.
  apply NoDup_app in Hnd as (Ht & Hmid & Hd).
  apply NoDup_cons in Hd as [Hid Hd].
  split.
  - apply NoDup_app. split_and!; [done| |done].
    intros x Hx Hx'. apply (Hmid x Hx). by apply list_elem_of_further.
  - intros j. rewrite <- (take_drop_middle l idx i Hl) at 3.
    rewrite !elem_of_app, elem_of_cons. split.
    + intros [Hj|Hj].
      * split; [by left|]. intros ->. apply (Hmid i Hj). apply list_elem_of_here.
      * split; [by right; right|]. by intros ->.
    + intros [[Hj|[->|Hj]] Hne]; [by left|done|by right].
Qed.

Lemma setAtomProperties_charged i (props : list (string * num)) st st' :
  setAtomProperties i props st = Returned st' →
  NoDup props.*1 →
  chargedAtomsListed st →
  chargedAtomsListed st'
  ∧ hasChargedAtoms st' = negb (bool_decide (chargedAtomsList st' = [])).
Proof.
  intros Hret Hnd [HndL Hinv].
  destruct (setAtomProperties_spec i props st st' Hret)
    as (l & Hl & HL' & Hhas & _ & _ & _ & _ & Hlen & Hother & Hval & _).
  specialize (Hval Hnd "charge" ltac:(done) ltac:(done) ltac:(done)).
  split.
  2:{ rewrite Hhas, HL'. destruct l; done. }
  unfold chargedAtomsListed. rewrite HL', Hlen.
  set (L := chargedAtomsList st) in *.
  set (len := length (field (atoms st) "charge")) in *.
  set (c := aget "charge" i st) in *.
  set (pc := getProp "charge" (atomPropsWritten props st)) in *.
  assert (Hout : ¬ i < len → (c === Fin 0)%js = false).
  { intros Hi. unfold c. by rewrite aget_outside. }
  assert (Hiff : ∀ (l0 : list nat) (b : bool),
            (∀ j, j ≠ i → j ∈ l0 ↔ j ∈ L) →
            (i ∈ l0 ↔ i < len ∧ b = false) →
            (aget "charge" i st' === Fin 0)%js = b ∨ ¬ i < len →
            ∀ j, j ∈ l0 ↔ j < len ∧ (aget "charge" j st' === Fin 0)%js = false).
  { intros l0 b Hrest Hi Hb j. destruct (decide (j = i)) as [->|Hj].
    - rewrite Hi. destruct Hb as [<-|Hb]; [done|tauto].
    - rewrite (Hrest j Hj), (Hother "charge" j Hj). apply Hinv. }
  unfold chargedAtomsAfter in Hl.
  destruct (c === Fin 0)%js eqn:Hc.
  - assert (Hi : i < len).
    { destruct (decide (i < len)) as [|Hi]; [done|].
      specialize (Hout Hi). congruence. }
    assert (HiL : i ∉ L).
    { intros HiL. apply Hinv in HiL as [_ HiL]. fold c in HiL. congruence. }
    destruct pc as [v|] eqn:Hpc; cbn [andb negb] in Hl.
    + rewrite decide_True in Hval by done.
      destruct (v === Fin 0)%js eqn:Hv; cbn [negb] in Hl; injection Hl as <-.
      * split; [done|]. apply (Hiff L true); [done| |left; by rewrite Hval].
        split; [done|]. by intros [_ ?].
      * split.
        -- apply NoDup_app. split_and!; [done| |apply NoDup_singleton].
           intros x Hx Hx'. apply list_elem_of_singleton in Hx' as ->. done.
        -- apply (Hiff _ false); [| |left; by rewrite Hval].
           ++ intros j Hj. rewrite elem_of_app, list_elem_of_singleton. tauto.
           ++ rewrite elem_of_app, list_elem_of_singleton. tauto.
    + injection Hl as <-. split; [done|].
      apply (Hiff L true); [done| |left; by rewrite Hval].
      split; [done|]. by intros [_ ?].
  - cbn [andb negb] in Hl.
    destruct pc as [v|] eqn:Hpc.
    + destruct (v === Fin 0)%js eqn:Hv.
      * destruct (indexOf i L) as [idx|] eqn:Hidx; [|done].
        injection Hl as <-. apply indexOf_Some in Hidx.
        destruct (remove_at i idx L HndL Hidx) as [Hnd' Hmem].
        assert (Hi : i < len).
        { apply (Hinv i). by eapply list_elem_of_lookup_2. }
        rewrite decide_True in Hval by done.
        split; [done|].
        apply (Hiff _ true); [| |left; by rewrite Hval].
        -- intros j Hj. rewrite Hmem. tauto.
        -- rewrite Hmem. split; [tauto|]. by intros [_ ?].
      * injection Hl as <-. split; [done|].
        destruct (decide (i < len)) as [Hi|Hi].
        -- apply (Hiff L false); [done| |left; by rewrite Hval].
           rewrite (Hinv i). fold c. rewrite Hc. done.
        -- apply (Hiff L false); [done| |by right].
           rewrite (Hinv i). tauto.
    + injection Hl as <-. split; [done|].
      apply (Hiff L false); [done| |left; by rewrite Hval].
      rewrite (Hinv i). fold c. rewrite Hc. done.
Qed.

(** *** Adding an atom *)





(** X9.  [setAtomProperties] keeps the list of charged atoms in step
    with the charges: if [chargedAtomsList] listed, without repetition,
    exactly the atoms of non-zero charge before the call, it does so after
    it, and [hasChargedAtoms] tells whether the list is non-empty. *)
Theorem setAtomProperties_keeps_charged_list i (props : list (string * num))
    st st' :
  setAtomProperties i props st = Returned st' →
  NoDup props.*1 →
  chargedAtomsListed st →
  chargedAtomsListed st'
  ∧ hasChargedAtoms st' = negb (bool_decide (chargedAtomsList st' = [])).
Proof. apply setAtomProperties_charged. Qed.

Lemma atom_key (k : string) :
  k ∈ ["radius"; "px"; "py"; "x"; "y"; "vx"; "vy"; "speed"; "ax"; "ay";
       "charge"; "friction"; "element"; "pinned"; "mass"; "marked"; "visible";
       "draggable"] →
  k ∈ ATOM_PROPERTY_LIST.
Proof. done. Qed.

Ltac atom_key := apply atom_key, list_elem_of_In; simpl; tauto.




End Atoms.

Ltac atom_key := apply atom_key, list_elem_of_In; simpl; tauto.

(** The two invariants of the atom arrays, as tests that can be computed
    on an engine. *)
Lemma atomArrays_check {PB W : Type} (st : engine PB W) (c : nat) :
  0 < c →
  forallb (λ k, length (field (atoms st) k) =? c) ATOM_PROPERTY_LIST = true →
  atomArrays st c.
Proof.
  intros Hc H. split; [done|]. intros k Hk.
  rewrite forallb_forall in H. apply Nat.eqb_eq, H. by apply list_elem_of_In.
Qed.

Lemma chargedAtomsListed_check {PB W : Type} (st : engine PB W) :
  bool_decide (NoDup (chargedAtomsList st)) = true →
  forallb (λ j, (j <? length (field (atoms st) "charge"))
                && negb (aget "charge" j st === Fin 0)%js)
          (chargedAtomsList st) = true →
  forallb (λ j, (aget "charge" j st === Fin 0)%js
                || bool_decide (j ∈ chargedAtomsList st))
          (seq 0 (length (field (atoms st) "charge"))) = true →
  chargedAtomsListed st.
Proof.
  intros Hnd Hin Hall. split; [by apply bool_decide_eq_true in Hnd|].
  rewrite forallb_forall in Hin. rewrite forallb_forall in Hall.
  intros j. split.
  - intros Hj. apply list_elem_of_In, Hin in Hj.
    apply andb_true_iff in Hj as [Hlt Hc].
    apply Nat.ltb_lt in Hlt. apply negb_true_iff in Hc. done.
  - intros [Hlt Hc]. specialize (Hall j). rewrite Hc in Hall.
    simpl in Hall. eapply bool_decide_eq_true_1, Hall. apply in_seq. lia.
Qed.



(** The moving atom given a charge. *)
Lemma setAtomProperties_keeps_charged_list_witness :
  let st' := stateOf oneMovingAtom
               (setAtomProperties 0 [("charge", Fin 1)] oneMovingAtom) in
  chargedAtomsListed st'
  ∧ hasChargedAtoms st' = negb (bool_decide (chargedAtomsList st' = [])).
Proof.
  cbv zeta.
  apply (setAtomProperties_keeps_charged_list 0 [("charge", Fin 1)]
           oneMovingAtom).
  - vm_compute. reflexivity.
  - apply (bool_decide_unpack _). vm_compute. exact I.
  - apply chargedAtomsListed_check; vm_compute; reflexivity.
Defined.


(** ** Properties of elements *)

Section Elements.
Context {PB W : Type} (ext : externals PB W).
Implicit Types st : engine PB W.

Lemma modifies_elements (P Q : string → nat → Prop) st st' :
  modifies P Q st st' → elements st' = elements st.
Proof. intros (E & _). rewrite E. done. Qed.

Lemma propagate_fold (k : string) (i : nat) (v : num) st (n : nat) :
  let s := foldl (λ s j,
                    if (aget "element" j s === of_nat i)%js
                    then aset k j v s else s) st (seq 0 n) in
  modifies (λ k' j, k' = k ∧ j < n) (λ _ _, False) st s
  ∧ (k ≠ "element" → ∀ j, j < n → j < length (field (atoms st) k) →
       aget k j s = if (aget "element" j st === of_nat i)%js then v
                    else aget k j st).
Proof.
  induction n as [|n [IHm IHv]]; cbv zeta.
  - split; [apply modifies_refl|lia].
  - rewrite seq_S, foldl_snoc. simpl.
    set (s := foldl _ st (seq 0 n)) in *.
    split.
    + destruct (aget "element" n s === of_nat i)%js.
      * apply modifies_aset; [split; [done|lia]|].
        eapply modifies_weaken; [| |exact IHm]; simpl; [|done].
        intros ? ? [? ?]. split; [done|lia].
      * eapply modifies_weaken; [| |exact IHm]; simpl; [|done].
        intros ? ? [? ?]. split; [done|lia].
    + intros Hk j Hj Hlen.
      assert (Hel : ∀ j', aget "element" j' s = aget "element" j' st).
      { intros j'. destruct IHm as (_ & Hsame & _). apply Hsame.
        intros [? _]. congruence. }
      assert (Hl : length (field (atoms s) k) = length (field (atoms st) k)).
      { by destruct IHm as (_ & _ & _ & ?). }
      destruct (decide (j = n)) as [->|Hne].
      * rewrite Hel.
        destruct (aget "element" n st === of_nat i)%js.
        -- rewrite aget_aset, decide_True; [done|]. by rewrite Hl.
        -- destruct IHm as (_ & Hsame & _). apply Hsame. intros [_ ?]. lia.
      * destruct (aget "element" n s === of_nat i)%js.
        -- rewrite aget_aset_other by (intros [_ ?]; lia). apply IHv; [done|lia|done].
        -- apply IHv; [done|lia|done].
Qed.

Lemma propagateToAtoms_spec (k : string) (i : nat) (v : num) st :
  modifies (λ k' j, k' = k ∧ j < N st) (λ _ _, False) st
    (propagateToAtoms k i v st)
  ∧ (k ≠ "element" → ∀ j, j < N st → j < length (field (atoms st) k) →
       aget k j (propagateToAtoms k i v st)
       = if (aget "element" j st === of_nat i)%js then v else aget k j st).
Proof. apply (propagate_fold k i v st (N st)). Qed.

Lemma aget_eset st (k k' : string) (i j : nat) (v : num) :
  aget k' j (eset k i v st) = aget k' j st.
Proof. done. Qed.

Lemma N_eset st (k : string) (i : nat) (v : num) : N (eset k i v st) = N st.
Proof. done. Qed.

Lemma atoms_eset st (k : string) (i : nat) (v : num) :
  atoms (eset k i v st) = atoms st.
Proof. done. Qed.

Lemma eget_atoms_only (P Q : string → nat → Prop) st st' (k : string) (i : nat) :
  modifies P Q st st' → eget k i st' = eget k i st.
Proof. intros H. unfold eget. by rewrite (modifies_elements _ _ _ _ H). Qed.

(** X11.  When [setElementProperties(i, props)] returns, the number of
    atoms and every property of every atom other than [mass] and [radius]
    are unchanged; a new mass that differs from the stored one is written
    to every atom of element i and to no other atom, and so is the radius
    computed from a new sigma when it differs from the stored radius. *)
Theorem setElementProperties_propagates i (props : elementProps) st st' :
  setElementProperties ext i props st = Returned st' →
  N st' = N st
  ∧ (∀ k j, k ≠ "mass" → k ≠ "radius" → aget k j st' = aget k j st)
  ∧ (∀ m, ep_mass props = Some m → (m === eget "mass" i st)%js = false →
       ∀ j, j < N st → j < length (field (atoms st) "mass") →
         aget "mass" j st'
         = if (aget "element" j st === of_nat i)%js then m
           else aget "mass" j st)
  ∧ (∀ s, ep_sigma props = Some s →
       (eget "radius" i st === lennardJones_radius ext s)%js = false →
       ∀ j, j < N st → j < length (field (atoms st) "radius") →
         aget "radius" j st'
         = if (aget "element" j st === of_nat i)%js
           then lennardJones_radius ext s
           else aget "radius" j st).
Proof.
  unfold setElementProperties.
  destruct (elements st) as [els|] eqn:Hels.
  2:{ destruct (ep_mass props), (ep_sigma props), (ep_epsilon props); try done.
      intros [= <-]. split_and!; done. }
  set (s1 := match ep_mass props with
             | Some m => if negb (m === eget "mass" i st)%js
                         then propagateToAtoms "mass" i m (eset "mass" i m st)
                         else st
             | None => st
             end).
  set (s2 := match ep_sigma props with
             | Some s =>
                 if negb (eget "radius" i (eset "sigma" i s s1)
                          === lennardJones_radius ext s)%js
                 then propagateToAtoms "radius" i (lennardJones_radius ext s)
                        (eset "radius" i (lennardJones_radius ext s)
                           (eset "sigma" i s s1))
                 else eset "sigma" i s s1
             | None => s1
             end).
  intros Hret.
  assert (Hst' : st' = match ep_epsilon props with
                       | Some e => eset "epsilon" i e s2
                       | None => s2
                       end).
  { cbv zeta in Hret. injection Hret as Hret. rewrite <- Hret. reflexivity. }
  clear Hret.
  (* the mass part *)
  assert (H1 : N s1 = N st
    ∧ (∀ k j, k ≠ "mass" → aget k j s1 = aget k j st)
    ∧ (∀ k, length (field (atoms s1) k) = length (field (atoms st) k))
    ∧ (∀ k, k ≠ "mass" → eget k i s1 = eget k i st)
    ∧ (∀ m, ep_mass props = Some m → (m === eget "mass" i st)%js = false →
         ∀ j, j < N st → j < length (field (atoms st) "mass") →
           aget "mass" j s1
           = if (aget "element" j st === of_nat i)%js then m
             else aget "mass" j st)).
  { unfold s1. destruct (ep_mass props) as [m|]; [|by split_and!].
    destruct (m === eget "mass" i st)%js eqn:Hm; cbn [negb];
      [split_and!; try done; intros m' [= <-] Hf; congruence|].
    destruct (propagateToAtoms_spec "mass" i m (eset "mass" i m st))
      as [Hmod Hv].
    pose proof (modifies_scalars _ _ _ _ Hmod) as (_ & _ & _ & HN & _).
    pose proof Hmod as (_ & Hsame & _ & Hlen).
    split_and!.
    - by rewrite HN.
    - intros k j Hk. rewrite Hsame by (intros [? _]; done). done.
    - intros k. by rewrite Hlen.
    - intros k Hk. rewrite (eget_atoms_only _ _ _ _ _ _ Hmod).
      rewrite eget_eset. rewrite decide_False; [done|]. intros [? _]. done.
    - intros m' [= <-] _ j Hj Hlenj. by apply Hv. }
  destruct H1 as (HN1 & Hsame1 & Hlen1 & Heg1 & Hmass1).
  (* the sigma part *)
  assert (H2 : N s2 = N st
    ∧ (∀ k j, k ≠ "radius" → aget k j s2 = aget k j s1)
    ∧ (∀ s, ep_sigma props = Some s →
         (eget "radius" i st === lennardJones_radius ext s)%js = false →
         ∀ j, j < N st → j < length (field (atoms st) "radius") →
           aget "radius" j s2
           = if (aget "element" j st === of_nat i)%js
             then lennardJones_radius ext s
             else aget "radius" j st)).
  { unfold s2. destruct (ep_sigma props) as [s|]; [|by split_and!].
    assert (Hr : eget "radius" i (eset "sigma" i s s1) = eget "radius" i st).
    { rewrite eget_eset, decide_False by (intros [? _]; done).
      by apply Heg1. }
    rewrite Hr.
    destruct (eget "radius" i st === lennardJones_radius ext s)%js eqn:Hrad;
      cbn [negb]; [split_and!; try done; intros s' [= <-] Hf; congruence|].
    set (r := lennardJones_radius ext s).
    destruct (propagateToAtoms_spec "radius" i r
                (eset "radius" i r (eset "sigma" i s s1))) as [Hmod Hv].
    pose proof (modifies_scalars _ _ _ _ Hmod) as (_ & _ & _ & HN & _).
    pose proof Hmod as (_ & Hsame & _ & Hlen).
    split_and!.
    - rewrite HN. done.
    - intros k j Hk. rewrite Hsame by (intros [? _]; done). done.
    - intros s' [= <-] _ j Hj Hlenj.
      rewrite Hv; [| done | by rewrite !N_eset, HN1
                   | by rewrite !atoms_eset, Hlen1].
      rewrite !aget_eset. rewrite !Hsame1 by done. done. }
  destruct H2 as (HN2 & Hsame2 & Hrad2).
  assert (Hfin : N st' = N s2 ∧ ∀ k j, aget k j st' = aget k j s2).
  { rewrite Hst'. by destruct (ep_epsilon props). }
  destruct Hfin as [HNf Hf].
  split_and!.
  - by rewrite HNf.
  - intros k j Hm Hr. by rewrite Hf, Hsame2, Hsame1.
  - intros m Hm Hne j Hj Hlenj. rewrite Hf, Hsame2 by done. by apply Hmass1.
  - intros s Hs Hne j Hj Hlenj. rewrite Hf. by apply Hrad2.
Qed.

End Elements.

(** The mass of the element of the moving atom doubled. *)
Lemma setElementProperties_propagates_witness :
  let st' := stateOf oneMovingAtom
               (setElementProperties plainExternals 0
                  (mkElementProps (Some (Fin 2)) None None) oneMovingAtom) in
  N st' = 1 ∧ aget "mass" 0 st' = Fin 2 ∧ aget "x" 0 st' = Fin 5.
Proof.
  cbv zeta.
  destruct (setElementProperties_propagates plainExternals 0
              (mkElementProps (Some (Fin 2)) None None) oneMovingAtom
              (stateOf oneMovingAtom
                 (setElementProperties plainExternals 0
                    (mkElementProps (Some (Fin 2)) None None) oneMovingAtom)))
    as (HN & Hother & Hmass & _).
  - vm_compute. reflexivity.
  - split_and!.
    + rewrite HN. reflexivity.
    + rewrite (Hmass (Fin 2)); [reflexivity|reflexivity|reflexivity|..];
        vm_compute; lia.
    + rewrite Hother by done. reflexivity.
Defined.

(** ** What the integrator keeps *)

Section IntegratorFrames.
Context {PB W : Type} (ext : externals PB W).
Implicit Types st s : engine PB W.

Lemma setupKept_refl st : setupKept st st.
Proof. by split_and!. Qed.

Lemma setupKept_trans st1 st2 st3 :
  setupKept st1 st2 → setupKept st2 st3 → setupKept st1 st3.
Proof.
  intros (N1 & O1 & S1 & E1 & L1 & A1) (N2 & O2 & S2 & E2 & L2 & A2).
  split_and!.
  - by rewrite N2.
  - by rewrite O2.
  - by rewrite S2.
  - by rewrite E2.
  - intros k. by rewrite L2, L1.
  - intros k j H. by rewrite A2, A1.
Qed.

Lemma modifies_setupKept (P Q : string → nat → Prop) st s :
  (∀ k j, P k j → isDynamicKey k) → modifies P Q st s → setupKept st s.
Proof.
  intros HP Hm.
  pose proof (modifies_scalars _ _ _ _ Hm)
    as (Hs & _ & _ & HN & HO & _ & _ & _ & _ & _ & _ & _ & _ & He & _).
  destruct Hm as (_ & Ha & _ & Hl).
  split_and!; try done. intros k j Hk. apply Ha. intros HPk. eauto.
Qed.

Lemma modifies_forEach {I : Type} (P Q : string → nat → Prop) st
    (body : I → engine PB W → outcome (engine PB W)) (l : list I) :
  (∀ i s s', modifies P Q st s → body i s = Returned s' → modifies P Q st s') →
  ∀ s s', modifies P Q st s → forEach body l s = Returned s' →
          modifies P Q st s'.
Proof.
  intros Hbody. induction l as [|i l IH]; intros s s' Hs Hret.
  - by injection Hret as <-.
  - cbn [forEach] in Hret. destruct (body i s) as [s1| |] eqn:H1; try done.
    cbn [andThen] in Hret. eapply IH; [|exact Hret]. eauto.
Qed.

Lemma bounceAxis_modifies fuel i (pos vel mom : string) (r e : num) st0 st st' :
  modifies (λ k j, j = i ∧ (k = pos ∨ k = vel ∨ k = mom)) (λ _ _, False) st0 st →
  bounceAxis fuel i pos vel mom r e st = Returned st' →
  modifies (λ k j, j = i ∧ (k = pos ∨ k = vel ∨ k = mom)) (λ _ _, False)
    st0 st'.
Proof.
  set (P := λ (k : string) (j : nat), j = i ∧ (k = pos ∨ k = vel ∨ k = mom)).
  set (Q := λ (_ : string) (_ : nat), False).
  assert (HP : ∀ k, k = pos ∨ k = vel ∨ k = mom → P k i) by (by split).
  intros H0. unfold bounceAxis.
  destruct (aget pos i st <? r)%js.
  - destruct (while _ _ _ st) as [s1| |] eqn:Hw; try done.
    cbn [andThen]. intros [= <-].
    apply (modifies_while P Q st0) in Hw; [|intros; frame; auto|done].
    frame; auto.
  - destruct (aget pos i st >? e - r)%js; [|by intros [= <-]].
    destruct (while _ _ _ st) as [s1| |] eqn:Hw; try done.
    cbn [andThen]. intros [= <-].
    apply (modifies_while P Q st0) in Hw; [|intros; frame; auto|done].
    frame; auto.
Qed.

Lemma updateParticlePosition_modifies fuel i st st' :
  updateParticlePosition fuel i st = Returned st' →
  modifies (λ k j, j = i ∧ isMotionKey k) (λ _ _, True) st st'.
Proof.
  rewrite updateParticlePosition_cases.
  destruct (hasDiverged i (driftAtom i st)); [done|].
  unfold driftAndBounce. rewrite bounceParticleOffWalls_axes.
  destruct (bounceAxis fuel i "x" "vx" "px" _ _ _) as [s1| |] eqn:H1; try done.
  cbn [andThen].
  destruct (bounceAxis fuel i "y" "vy" "py" _ _ s1) as [s2| |] eqn:H2; try done.
  cbn [andThen]. intros [= <-].
  apply (bounceAxis_modifies _ _ _ _ _ _ _ (driftAtom i st)) in H1;
    [|apply modifies_refl].
  apply (bounceAxis_modifies _ _ _ _ _ _ _ s1) in H2; [|apply modifies_refl].
  eapply modifies_trans; [apply driftAtom_modifies|].
  eapply modifies_trans.
  { eapply modifies_weaken; [| |exact H1]; simpl; [|done].
    unfold isMotionKey. intuition. }
  eapply modifies_trans.
  { eapply modifies_weaken; [| |exact H2]; simpl; [|done].
    unfold isMotionKey. intuition. }
  apply bounceParticleOffObstacles_modifies.
Qed.

Lemma updateParticlesPosition_modifies fuel st st' :
  updateParticlesPosition fuel st = Returned st' →
  modifies (λ k j, isMotionKey k) (λ _ _, True) st st'.
Proof.
  unfold updateParticlesPosition.
  apply (modifies_forEach _ _ st); [|apply modifies_refl].
  intros i s s' Hs Hi. eapply modifies_trans; [exact Hs|].
  eapply modifies_weaken; [| |exact (updateParticlePosition_modifies _ _ _ _ Hi)];
    simpl; [|done].
  by intros k j [_ ?].
Qed.

Lemma bounceObstacleOffWalls_modifies fuel i st st' :
  bounceObstacleOffWalls fuel i st = Returned st' →
  modifies (λ _ _, False) (λ k j, j = i ∧ k ≠ "mass") st st'.
Proof.
  unfold bounceObstacleOffWalls. cbv zeta.
  set (P := λ (_ : string) (_ : nat), False).
  set (Q := λ (k : string) (j : nat), j = i ∧ k ≠ "mass").
  match goal with
  | |- ?a >>> ?f = _ → _ =>
      destruct a as [s1| |] eqn:H1; try done; cbn [andThen]
  end.
  assert (M1 : modifies P Q st s1).
  { revert H1. destruct (oget "x" i st <? Fin 0)%js.
    - destruct (while _ _ _ st) as [s0| |] eqn:Hw; try done.
      cbn [andThen]. intros [= <-].
      apply (modifies_while P Q st) in Hw;
        [|intros; frame; done|apply modifies_refl].
      frame; done.
    - destruct (oget "x" i st >? _)%js; [|intros [= <-]; apply modifies_refl].
      destruct (while _ _ _ st) as [s0| |] eqn:Hw; try done.
      cbn [andThen]. intros [= <-].
      apply (modifies_while P Q st) in Hw;
        [|intros; frame; done|apply modifies_refl].
      frame; done. }
  destruct (oget "y" i s1 <? Fin 0)%js.
  - destruct (while _ _ _ s1) as [s0| |] eqn:Hw; try done.
    cbn [andThen]. intros [= <-].
    apply (modifies_while P Q st) in Hw; [|intros; frame; done|done].
    frame; done.
  - destruct (oget "y" i s1 >? _)%js; [|by intros [= <-]].
    destruct (while _ _ _ s1) as [s0| |] eqn:Hw; try done.
    cbn [andThen]. intros [= <-].
    apply (modifies_while P Q st) in Hw; [|intros; frame; done|done].
    frame; done.
Qed.

Lemma updateObstaclePosition_modifies fuel i st st' :
  updateObstaclePosition fuel i st = Returned st' →
  modifies (λ _ _, False)
    (λ k j, j = i ∧ k ≠ "mass" ∧ (oget "mass" i st === PInf)%js = false) st st'.
Proof.
  unfold updateObstaclePosition.
  destruct (oget "mass" i st === PInf)%js; [intros [= <-]; apply modifies_refl|].
  cbv zeta.
  destruct (_ || _); [|intros [= <-]; apply modifies_refl].
  intros H. apply bounceObstacleOffWalls_modifies in H.
  eapply modifies_trans;
    [|eapply modifies_weaken; [| |exact H]; simpl;
      [done|intros k j [? ?]; done]].
  frame; done.
Qed.

(** The obstacles of infinite mass and the masses are not written. *)
Lemma updateObstaclesPosition_modifies fuel st st' :
  updateObstaclesPosition fuel st = Returned st' →
  modifies (λ _ _, False)
    (λ k j, k ≠ "mass" ∧ (oget "mass" j st === PInf)%js = false) st st'.
Proof.
  unfold updateObstaclesPosition.
  apply (modifies_forEach _ _ st); [|apply modifies_refl].
  intros i s s' Hs Hi. eapply modifies_trans; [exact Hs|].
  eapply modifies_weaken;
    [| |exact (updateObstaclePosition_modifies _ _ _ _ Hi)]; simpl; [done|].
  intros k j (-> & Hk & Hm). split; [done|].
  destruct Hs as (_ & _ & Ho & _).
  rewrite <- (Ho "mass" i); [exact Hm|]. intros [? _]. done.
Qed.

(** *** The velocity updates *)

Lemma halfUpdateAtom_spec s i :
  modifies (λ k j, j = i ∧ isVelocityKey k) (λ _ _, False) s (halfUpdateAtom s i)
  ∧ (i < length (field (atoms s) "vx") →
     aget "vx" i (halfUpdateAtom s i)
     = (aget "vx" i s + Fin (1 # 2) * aget "ax" i s * dt s)%js)
  ∧ (i < length (field (atoms s) "vy") →
     aget "vy" i (halfUpdateAtom s i)
     = (aget "vy" i s + Fin (1 # 2) * aget "ay" i s * dt s)%js)
  ∧ (i < length (field (atoms s) "px") →
     aget "px" i (halfUpdateAtom s i)
     = (aget "mass" i s * aget "vx" i (halfUpdateAtom s i))%js)
  ∧ (i < length (field (atoms s) "py") →
     aget "py" i (halfUpdateAtom s i)
     = (aget "mass" i s * aget "vy" i (halfUpdateAtom s i))%js).
Proof.
  unfold halfUpdateAtom. cbv zeta.
  split_and!; [unfold isVelocityKey; frame; auto|..].
  all: intros Hi; rewrite !aget_aset, !length_field_aset;
    repeat case_decide; destruct_and?; simplify_eq; try done; exfalso; tauto.
Qed.

Lemma halfUpdate_fold st (n : nat) :
  let s := foldl halfUpdateAtom st (seq 0 n) in
  modifies (λ k j, j < n ∧ isVelocityKey k) (λ _ _, False) st s
  ∧ ∀ i, i < n →
      (i < length (field (atoms st) "vx") →
       aget "vx" i s = (aget "vx" i st + Fin (1 # 2) * aget "ax" i st * dt st)%js)
      ∧ (i < length (field (atoms st) "vy") →
         aget "vy" i s = (aget "vy" i st + Fin (1 # 2) * aget "ay" i st * dt st)%js)
      ∧ (i < length (field (atoms st) "px") →
         aget "px" i s = (aget "mass" i st * aget "vx" i s)%js)
      ∧ (i < length (field (atoms st) "py") →
         aget "py" i s = (aget "mass" i st * aget "vy" i s)%js).
Proof.
  induction n as [|n [IHm IHv]]; cbv zeta.
  - split; [apply modifies_refl|lia].
  - rewrite seq_S, foldl_snoc. simpl.
    set (s := foldl halfUpdateAtom st (seq 0 n)) in *.
    destruct (halfUpdateAtom_spec s n) as (Hm & Hvx & Hvy & Hpx & Hpy).
    pose proof IHm as (_ & Hsame & _ & Hlen).
    pose proof (modifies_scalars _ _ _ _ IHm) as (_ & Hdt & _).
    assert (Hn : ∀ k, aget k n s = aget k n st).
    { intros k. apply Hsame. intros [? _]. lia. }
    split.
    + eapply modifies_trans.
      * eapply modifies_weaken; [| |exact IHm]; simpl; [|done].
        intros ? ? [? ?]. split; [lia|done].
      * eapply modifies_weaken; [| |exact Hm]; simpl; [|done].
        intros ? ? [? ?]. split; [lia|done].
    + intros i Hi. destruct (decide (i = n)) as [->|Hne].
      * rewrite !Hlen, !Hn, Hdt in *. done.
      * destruct Hm as (_ & Hs & _).
        rewrite !Hs by (intros [? _]; done).
        apply IHv. lia.
Qed.

Lemma halfUpdateVelocity_fold st :
  halfUpdateVelocity st = foldl halfUpdateAtom st (seq 0 (N st)).
Proof. reflexivity. Qed.

Lemma halfUpdateVelocity_modifies st :
  modifies (λ k j, j < N st ∧ isVelocityKey k) (λ _ _, False) st
    (halfUpdateVelocity st).
Proof. rewrite halfUpdateVelocity_fold. apply (halfUpdate_fold st (N st)). Qed.

Lemma pinAtoms_modifies st :
  modifies (λ k j, k = "vx" ∨ k = "vy" ∨ k = "ax" ∨ k = "ay") (λ _ _, False)
    st (pinAtoms st).
Proof. unfold pinAtoms. frame; auto. Qed.

Lemma updateParticlesSpeed_modifies st :
  modifies (λ k j, k = "speed") (λ _ _, False) st (updateParticlesSpeed st).
Proof. unfold updateParticlesSpeed. frame; auto. Qed.

(** *** Momenta *)

Lemma momentaConsistent_frame (P Q : string → nat → Prop) s s' :
  (∀ k j, P k j → k ≠ "mass" ∧ k ≠ "vx" ∧ k ≠ "vy" ∧ k ≠ "px" ∧ k ≠ "py") →
  modifies P Q s s' → momentaConsistent s → momentaConsistent s'.
Proof.
  intros HP Hm Hc i Hi.
  pose proof (modifies_scalars _ _ _ _ Hm) as (_ & _ & _ & HN & _).
  destruct Hm as (_ & Ha & _). rewrite HN in Hi.
  unfold momentumConsistent.
  rewrite !Ha by (intros H%HP; tauto). by apply Hc.
Qed.

Lemma halfUpdateVelocity_momenta st (c : nat) :
  atomArrays st c → N st ≤ c → momentaConsistent (halfUpdateVelocity st).
Proof.
  intros [_ Hlen] HN i Hi.
  pose proof (halfUpdateVelocity_modifies st) as Hm.
  pose proof (modifies_scalars _ _ _ _ Hm) as (_ & _ & _ & HN' & _).
  rewrite HN' in Hi.
  rewrite halfUpdateVelocity_fold in *.
  destruct (halfUpdate_fold st (N st)) as [_ Hv]. cbv zeta in Hv.
  destruct (Hv i Hi) as (_ & _ & Hpx & Hpy).
  destruct Hm as (_ & Ha & _).
  split.
  - rewrite Hpx by (rewrite (Hlen "px") by atom_key; lia).
    rewrite (Ha "mass") by (intros [_ [?|[?|[?|?]]]]; done). reflexivity.
  - rewrite Hpy by (rewrite (Hlen "py") by atom_key; lia).
    rewrite (Ha "mass") by (intros [_ [?|[?|[?|?]]]]; done). reflexivity.
Qed.

Lemma momentaConsistent_scaled (f : num) s s' :
  velocitiesScaled f s s' → momentaConsistent s → momentaConsistent s'.
Proof.
  intros (HN & _ & Hat & _) Hc i Hi. rewrite HN in Hi.
  unfold momentumConsistent.
  destruct (Hat i Hi) as (-> & -> & -> & -> & ->).
  destruct (Hc i Hi) as [Hx Hy]. split.
  - etrans; [apply mul_proper; [exact Hx|reflexivity]|].
    symmetry. apply mul_assoc.
  - etrans; [apply mul_proper; [exact Hy|reflexivity]|].
    symmetry. apply mul_assoc.
Qed.

Lemma rescaleVelocities_keeps st (target : num) :
  setupKept st (rescaleVelocities target st).
Proof.
  unfold rescaleVelocities. cbv zeta.
  set (f := Math_sqrt (target / T st)%js).
  destruct (scaleParticles_fold st f (N st)) as [Hm1 _]. cbv zeta in Hm1.
  set (s1 := foldl (λ s i, scaleParticleVelocity i f s) st (seq 0 (N st))) in *.
  destruct (scaleObstacles_fold s1 f (N_obstacles s1)) as [Hm2 _].
  cbv zeta in Hm2.
  set (s2 := foldl _ s1 (seq 0 (N_obstacles s1))) in *.
  eapply setupKept_trans.
  { eapply (modifies_setupKept _ _ _ _ _ Hm1). }
  eapply setupKept_trans.
  { eapply (modifies_setupKept _ _ _ _ _ Hm2). }
  by split_and!.
  Unshelve.
  - intros k j [_ Hk]. unfold isVelocityKey in Hk. unfold isDynamicKey. tauto.
  - intros k j [].
Qed.

Lemma rescaleVelocities_time st (target : num) :
  time (rescaleVelocities target st) = time st
  ∧ dt (rescaleVelocities target st) = dt st.
Proof.
  unfold rescaleVelocities. cbv zeta.
  set (f := Math_sqrt (target / T st)%js).
  destruct (scaleParticles_fold st f (N st)) as [Hm1 _]. cbv zeta in Hm1.
  set (s1 := foldl (λ s i, scaleParticleVelocity i f s) st (seq 0 (N st))) in *.
  destruct (scaleObstacles_fold s1 f (N_obstacles s1)) as [Hm2 _].
  cbv zeta in Hm2.
  set (s2 := foldl _ s1 (seq 0 (N_obstacles s1))) in *.
  destruct (modifies_scalars _ _ _ _ Hm1) as (_ & Hd1 & _ & _ & _ & Ht1 & _).
  destruct (modifies_scalars _ _ _ _ Hm2) as (_ & Hd2 & _ & _ & _ & Ht2 & _).
  split.
  - change (time (set_T target s2)) with (time s2). congruence.
  - change (dt (set_T target s2)) with (dt s2). congruence.
Qed.

Lemma adjustTemperature_keeps st (target : option num) (force : bool) st' :
  adjustTemperature ext target force st = Returned st' →
  setupKept st st' ∧ (momentaConsistent st → momentaConsistent st')
  ∧ time st' = time st ∧ dt st' = dt st.
Proof.
  unfold adjustTemperature. cbv zeta.
  set (st1 := set_T (computeTemperature ext st) st).
  assert (Hfin : ∀ st2 : engine PB W,
            atoms st2 = atoms st → N st2 = N st →
            time st2 = time st → dt st2 = dt st →
            setupKept st st2 →
            ∀ c : bool,
            (if c then Returned (rescaleVelocities (default (T_target st) target) st2)
             else Returned st2) = Returned st' →
            setupKept st st' ∧ (momentaConsistent st → momentaConsistent st')
            ∧ time st' = time st ∧ dt st' = dt st).
  { intros st2 Hat HN Ht Hdt Hk c Hc.
    assert (Hc2 : momentaConsistent st → momentaConsistent st2).
    { intros H i Hi. rewrite HN in Hi. specialize (H i Hi).
      unfold momentumConsistent, aget in *. by rewrite Hat. }
    destruct c; injection Hc as <-.
    - split_and!.
      + eapply setupKept_trans; [exact Hk|apply rescaleVelocities_keeps].
      + intros H. eapply momentaConsistent_scaled;
          [apply rescaleVelocities_scaled|auto].
      + rewrite <- Ht. apply rescaleVelocities_time.
      + rewrite <- Hdt. apply rescaleVelocities_time.
    - done. }
  destruct (temperatureChangeInProgress st1) eqn:Hflag.
  - destruct (T_windowed st1) as [w|]; [|done].
    destruct (windowedAverage ext w (T st1)) as [avg w'].
    destruct (Math_abs (avg - default (T_target st) target)
              <=? default (T_target st) target * tempTolerance)%js; simpl.
    + apply Hfin; try done; by split_and!.
    + apply Hfin; try done; by split_and!.
  - simpl. apply Hfin; try done; by split_and!.
Qed.

Lemma atomArrays_kept st s (c : nat) :
  setupKept st s → atomArrays st c → atomArrays s c.
Proof.
  intros (_ & _ & _ & _ & Hl & _) [Hc Hlen]. split; [done|].
  intros k Hk. rewrite Hl. by apply Hlen.
Qed.

(** One turn of the loop of [integrate]. *)
Lemma integrationStep_keeps fuel (tStart : num) (iloop : nat) st st' :
  integrationStep ext fuel tStart iloop st = Returned st' →
  setupKept st st'
  ∧ time st' = (tStart + of_nat iloop * dt st)%js ∧ dt st' = dt st
  ∧ ∀ c, atomArrays st c → N st ≤ c → momentaConsistent st'.
Proof.
  rewrite integrationStep_order.
  set (sa := set_time (tStart + of_nat iloop * dt st)%js st).
  set (sb := halfUpdateVelocity sa).
  destruct (updateParticlesPosition fuel sb) as [sc| |] eqn:Hc; try done.
  cbn [andThen].
  set (sd := updateParticlesAccelerations ext sc).
  set (se := pinAtoms sd).
  set (sf := halfUpdateVelocity se).
  set (sg := updateParticlesSpeed sf).
  destruct (updateObstaclesPosition fuel sg) as [sh| |] eqn:Hh; try done.
  cbn [andThen]. intros Hadj.
  pose proof (halfUpdateVelocity_modifies sa) as Mb. fold sb in Mb.
  pose proof (updateParticlesPosition_modifies _ _ _ Hc) as Mc.
  pose proof (updateParticlesAccelerations_modifies ext sc) as Md. fold sd in Md.
  pose proof (pinAtoms_modifies sd) as Me. fold se in Me.
  pose proof (halfUpdateVelocity_modifies se) as Mf. fold sf in Mf.
  pose proof (updateParticlesSpeed_modifies sf) as Mg. fold sg in Mg.
  pose proof (updateObstaclesPosition_modifies _ _ _ Hh) as Mh.
  destruct (adjustTemperature_keeps _ _ _ _ Hadj) as (Kadj & Cadj & Tadj & Dadj).
  assert (Ka : setupKept st sa) by (by split_and!).
  assert (Kb : setupKept sa sb).
  { eapply modifies_setupKept; [|exact Mb]. unfold isVelocityKey, isDynamicKey.
    intros k j [_ H]. tauto. }
  assert (Kc : setupKept sb sc).
  { eapply modifies_setupKept; [|exact Mc]. unfold isMotionKey, isDynamicKey.
    intros k j H. tauto. }
  assert (Kd : setupKept sc sd).
  { eapply modifies_setupKept; [|exact Md]. unfold isDynamicKey.
    intros k j H. tauto. }
  assert (Ke : setupKept sd se).
  { eapply modifies_setupKept; [|exact Me]. unfold isDynamicKey.
    intros k j H. tauto. }
  assert (Kf : setupKept se sf).
  { eapply modifies_setupKept; [|exact Mf]. unfold isVelocityKey, isDynamicKey.
    intros k j [_ H]. tauto. }
  assert (Kg : setupKept sf sg).
  { eapply modifies_setupKept; [|exact Mg]. unfold isDynamicKey.
    intros k j H. tauto. }
  assert (Kh : setupKept sg sh).
  { eapply modifies_setupKept; [|exact Mh]. by intros k j []. }
  assert (Kse : setupKept st se).
  { eapply setupKept_trans; [exact Ka|].
    eapply setupKept_trans; [exact Kb|].
    eapply setupKept_trans; [exact Kc|].
    eapply setupKept_trans; [exact Kd|exact Ke]. }
  split_and!.
  - eapply setupKept_trans; [exact Kse|].
    eapply setupKept_trans; [exact Kf|].
    eapply setupKept_trans; [exact Kg|].
    eapply setupKept_trans; [exact Kh|exact Kadj].
  - rewrite Tadj.
    destruct (modifies_scalars _ _ _ _ Mh) as (_ & _ & _ & _ & _ & -> & _).
    destruct (modifies_scalars _ _ _ _ Mg) as (_ & _ & _ & _ & _ & -> & _).
    destruct (modifies_scalars _ _ _ _ Mf) as (_ & _ & _ & _ & _ & -> & _).
    destruct (modifies_scalars _ _ _ _ Me) as (_ & _ & _ & _ & _ & -> & _).
    destruct (modifies_scalars _ _ _ _ Md) as (_ & _ & _ & _ & _ & -> & _).
    destruct (modifies_scalars _ _ _ _ Mc) as (_ & _ & _ & _ & _ & -> & _).
    destruct (modifies_scalars _ _ _ _ Mb) as (_ & _ & _ & _ & _ & -> & _).
    done.
  - rewrite Dadj.
    destruct (modifies_scalars _ _ _ _ Mh) as (_ & -> & _).
    destruct (modifies_scalars _ _ _ _ Mg) as (_ & -> & _).
    destruct (modifies_scalars _ _ _ _ Mf) as (_ & -> & _).
    destruct (modifies_scalars _ _ _ _ Me) as (_ & -> & _).
    destruct (modifies_scalars _ _ _ _ Md) as (_ & -> & _).
    destruct (modifies_scalars _ _ _ _ Mc) as (_ & -> & _).
    destruct (modifies_scalars _ _ _ _ Mb) as (_ & -> & _).
    done.
  - intros c Harr HN. apply Cadj.
    assert (Harre : atomArrays se c) by (by eapply atomArrays_kept).
    assert (HNe : N se ≤ c) by (destruct Kse as (-> & _); done).
    pose proof (halfUpdateVelocity_momenta se c Harre HNe) as Cf. fold sf in Cf.
    eapply momentaConsistent_frame; [|exact Mh|]; [by intros k j []|].
    eapply momentaConsistent_frame; [|exact Mg|exact Cf].
    intros k j ->. done.
Qed.

End IntegratorFrames.

Section Pinning.
Context {PB W : Type} (ext : externals PB W).
Implicit Types st : engine PB W.

(** X12.  On an engine whose atom arrays hold its [N] atoms,
    [halfUpdateVelocity] gives every atom i below [N] the velocity
    [v + 0.5*a*dt], computed from the velocity and acceleration atom i had
    before the call, and the momentum [mass * v'] of that new velocity; it
    writes nothing but [vx], [vy], [px] and [py] of these atoms. *)
Theorem halfUpdateVelocity_updates st (c : nat) :
  atomArrays st c → N st ≤ c →
  let st' := halfUpdateVelocity st in
  (∀ i, i < N st →
     aget "vx" i st' = (aget "vx" i st + Fin (1 # 2) * aget "ax" i st * dt st)%js
     ∧ aget "vy" i st' = (aget "vy" i st + Fin (1 # 2) * aget "ay" i st * dt st)%js
     ∧ aget "px" i st' = (aget "mass" i st * aget "vx" i st')%js
     ∧ aget "py" i st' = (aget "mass" i st * aget "vy" i st')%js)
  ∧ modifies (λ k j, j < N st ∧ isVelocityKey k) (λ _ _, False) st st'.
Proof.
  intros [_ Hlen] HN. cbv zeta. rewrite halfUpdateVelocity_fold.
  destruct (halfUpdate_fold st (N st)) as [Hm Hv]. cbv zeta in Hv.
  split; [|exact Hm].
  intros i Hi. destruct (Hv i Hi) as (Hvx & Hvy & Hpx & Hpy).
  split_and!.
  - apply Hvx. rewrite (Hlen "vx") by atom_key. lia.
  - apply Hvy. rewrite (Hlen "vy") by atom_key. lia.
  - apply Hpx. rewrite (Hlen "px") by atom_key. lia.
  - apply Hpy. rewrite (Hlen "py") by atom_key. lia.
Qed.

Lemma pinAtoms_fold st : pinAtoms st = foldl pinAtom st (seq 0 (N st)).
Proof. reflexivity. Qed.

Lemma pinAtom_modifies st i :
  modifies (λ k j, j = i ∧ truthy (aget "pinned" i st) = true ∧ isPinKey k)
    (λ _ _, False) st (pinAtom st i).
Proof.
  unfold pinAtom, isPinKey. destruct (truthy _); [|apply modifies_refl].
  frame; try (split_and!; auto; tauto).
Qed.

Lemma pin_fold st (n : nat) :
  let s := foldl pinAtom st (seq 0 n) in
  modifies (λ k j, j < n ∧ truthy (aget "pinned" j st) = true ∧ isPinKey k)
    (λ _ _, False) st s
  ∧ ∀ i k, i < n → truthy (aget "pinned" i st) = true → isPinKey k →
      i < length (field (atoms st) k) → aget k i s = Fin 0.
Proof.
  induction n as [|n [IHm IHv]]; cbv zeta.
  - split; [apply modifies_refl|lia].
  - rewrite seq_S, foldl_snoc. simpl.
    set (s := foldl pinAtom st (seq 0 n)) in *.
    pose proof (pinAtom_modifies s n) as Hm.
    pose proof IHm as (_ & Hsame & _ & Hlen).
    assert (Hn : ∀ k, aget k n s = aget k n st).
    { intros k. apply Hsame. intros [? _]. lia. }
    rewrite Hn in Hm.
    split.
    + eapply modifies_trans.
      * eapply modifies_weaken; [| |exact IHm]; simpl; [|done].
        intros ? ? [? ?]. split; [lia|done].
      * eapply modifies_weaken; [| |exact Hm]; simpl; [|done].
        intros ? ? [-> ?]. split; [lia|done].
    + intros i k Hi Hp Hk Hl. destruct (decide (i = n)) as [->|Hne].
      * unfold pinAtom. rewrite Hn, Hp.
        rewrite !aget_aset, !length_field_aset, !Hlen.
        destruct Hk as [->|[->|[->| ->]]];
          repeat case_decide; destruct_and?; simplify_eq; try done; exfalso;
          tauto.
      * destruct Hm as (_ & Hs & _).
        rewrite Hs by (intros [? _]; done).
        apply IHv; [lia|done..].
Qed.

(** X13.  On an engine whose atom arrays hold its [N] atoms, [pinAtoms]
    sets the velocity and the acceleration of every pinned atom to zero and writes nothing else: atoms that are not pinned keep
    everything, and pinned atoms keep their position and their momentum
    [px], [py] (which is therefore stale until the next
    [halfUpdateVelocity]). *)
Theorem pinAtoms_freezes_pinned st (c : nat) :
  atomArrays st c → N st ≤ c →
  let st' := pinAtoms st in
  (∀ i, i < N st → truthy (aget "pinned" i st) = true →
     aget "vx" i st' = Fin 0 ∧ aget "vy" i st' = Fin 0
     ∧ aget "ax" i st' = Fin 0 ∧ aget "ay" i st' = Fin 0)
  ∧ modifies (λ k j, j < N st ∧ truthy (aget "pinned" j st) = true ∧ isPinKey k)
      (λ _ _, False) st st'.
Proof.
  intros [_ Hlen] HN. cbv zeta. rewrite pinAtoms_fold.
  destruct (pin_fold st (N st)) as [Hm Hv]. cbv zeta in Hv.
  split; [|exact Hm].
  intros i Hi Hp.
  split_and!; apply Hv; try done; unfold isPinKey; try tauto.
  - rewrite (Hlen "vx") by atom_key. lia.
  - rewrite (Hlen "vy") by atom_key. lia.
  - rewrite (Hlen "ax") by atom_key. lia.
  - rewrite (Hlen "ay") by atom_key. lia.
Qed.

End Pinning.

(** The moving atom after one step. *)
Lemma halfUpdateVelocity_updates_witness :
  let st' := halfUpdateVelocity oneDriftingAtom in
  aget "vx" 0 st'
  = (aget "vx" 0 oneDriftingAtom
     + Fin (1 # 2) * aget "ax" 0 oneDriftingAtom * dt oneDriftingAtom)%js
  ∧ aget "px" 0 st' = (aget "mass" 0 oneDriftingAtom * aget "vx" 0 st')%js
  ∧ aget "x" 0 st' = aget "x" 0 oneDriftingAtom.
Proof.
  cbv zeta.
  destruct (halfUpdateVelocity_updates oneDriftingAtom 1) as [Hv Hm].
  - apply atomArrays_check; [lia|vm_compute; reflexivity].
  - vm_compute. lia.
  - destruct (Hv 0) as (Hvx & _ & Hpx & _); [vm_compute; lia|].
    destruct Hm as (_ & Hsame & _).
    split_and!; [exact Hvx|exact Hpx|].
    apply Hsame. intros [_ [H|[H|[H|H]]]]; discriminate H.
Defined.

(** A pinned atom that was given a velocity: it loses the velocity and
    keeps the momentum. *)
Lemma pinAtoms_freezes_pinned_witness :
  let st' := pinAtoms onePinnedAtom in
  aget "vx" 0 onePinnedAtom = Fin 1
  ∧ aget "vx" 0 st' = Fin 0
  ∧ aget "px" 0 st' = aget "px" 0 onePinnedAtom.
Proof.
  cbv zeta.
  destruct (pinAtoms_freezes_pinned onePinnedAtom 1) as [Hv Hm].
  - apply atomArrays_check; [lia|vm_compute; reflexivity].
  - vm_compute. lia.
  - destruct (Hv 0) as (Hvx & _); [vm_compute; lia|vm_compute; reflexivity|].
    destruct Hm as (_ & Hsame & _).
    split_and!; [reflexivity|exact Hvx|].
    apply Hsame. intros (_ & _ & [H|[H|[H|H]]]); discriminate H.
Defined.

Section IntegrateInvariants.
Context {PB W : Type} (ext : externals PB W).
Implicit Types st : engine PB W.

Lemma integrationLoop_inv (Inv Post : engine PB W → Prop)
    (body : nat → engine PB W → outcome (engine PB W)) (steps : num) :
  (∀ j s s', Inv s → body j s = Returned s' → Inv s' ∧ Post s') →
  ∀ fuel i st st',
    Inv st → integrationLoop fuel body steps i st = Returned st' →
    Inv st' ∧ (st' = st ∨ Post st').
Proof.
  intros Hbody. induction fuel as [|fuel IH]; intros i st st' HI; cbn [integrationLoop].
  - destruct (of_nat i <=? steps)%js; [done|]. intros [= <-]. auto.
  - destruct (of_nat i <=? steps)%js; [|intros [= <-]; auto].
    destruct (body i st) as [s1| |] eqn:H1; try done. cbn [andThen].
    destruct (Hbody _ _ _ HI H1) as [HI1 HP1]. intros Hrest.
    destruct (IH _ _ _ HI1 Hrest) as [HI' [->|HP']]; auto.
Qed.

(** What a call of [integrate] that returns has done. *)
Lemma integrate_returns fuel (duration _dt : option num) st st' :
  integrate ext fuel duration _dt st = Returned st' →
  ∃ st1 s,
    atomsHaveBeenCreated st = true
    ∧ st1 = (let st0 := set_dt_sq (default (Fin 1) _dt * default (Fin 1) _dt)%js
                          (set_dt (default (Fin 1) _dt) st) in
             if (time st === Fin 0)%js
             then updateParticlesAccelerations ext st0 else st0)
    ∧ integrationLoop fuel (integrationStep ext fuel (time st))
        (Math_floor (default (Fin 100) duration / dt st1)%js) 1 st1
      = Returned s
    ∧ st' = set_pressureBuffers
              (updateBuffers ext (default (Fin 100) duration) (pressureBuffers s)) s.
Proof.
  unfold integrate. destruct (atomsHaveBeenCreated st); [|done].
  cbn [negb]. cbv zeta.
  match goal with
  | |- integrationLoop ?f ?b ?n ?i ?s >>> _ = _ → _ =>
      destruct (integrationLoop f b n i s) as [s1| |] eqn:Hl; try done
  end.
  cbn [andThen]. intros [= <-]. do 2 eexists. split_and!; [done|reflexivity|exact Hl|done].
Qed.

Lemma integrate_start_keeps (_dt : option num) st :
  let st0 := set_dt_sq (default (Fin 1) _dt * default (Fin 1) _dt)%js
               (set_dt (default (Fin 1) _dt) st) in
  let st1 := if (time st === Fin 0)%js
             then updateParticlesAccelerations ext st0 else st0 in
  setupKept st st1 ∧ dt st1 = default (Fin 1) _dt ∧ time st1 = time st
  ∧ (momentaConsistent st → momentaConsistent st1)
  ∧ ∀ k j, k ≠ "ax" → k ≠ "ay" → aget k j st1 = aget k j st.
Proof.
  cbv zeta.
  set (st0 := set_dt_sq _ (set_dt _ st)).
  destruct (time st === Fin 0)%js.
  - pose proof (updateParticlesAccelerations_modifies ext st0) as Hm.
    destruct (modifies_scalars _ _ _ _ Hm) as (_ & Hd & _ & _ & _ & Ht & _).
    split_and!.
    + eapply (setupKept_trans _ st0); [by split_and!|].
      eapply modifies_setupKept; [|exact Hm]. unfold isDynamicKey.
      intros k j H. tauto.
    + by rewrite Hd.
    + by rewrite Ht.
    + intros H. eapply momentaConsistent_frame; [|exact Hm|exact H].
      intros k j [-> | ->]; done.
    + intros k j Hx Hy. destruct Hm as (_ & Ha & _). rewrite Ha; [done|].
      intros [?|?]; done.
  - by split_and!.
Qed.

(** X14.  When [integrate] returns, however many steps it ran, the set-up
    of the model is as before: the number of atoms and of obstacles, the
    size of the domain, the elements, the lengths of the atom arrays, and
    every property of every atom other than position, velocity, momentum,
    acceleration and speed; the time step is the one passed, or 1 fs. *)
Theorem integrate_keeps_setup fuel (duration _dt : option num) st st' :
  integrate ext fuel duration _dt st = Returned st' →
  setupKept st st' ∧ dt st' = default (Fin 1) _dt.
Proof.
  intros Hret.
  destruct (integrate_returns _ _ _ _ _ Hret) as (st1 & s & _ & Hst1 & Hloop & ->).
  destruct (integrate_start_keeps _dt st) as (K1 & Hdt & _). cbv zeta in *.
  rewrite <- Hst1 in *.
  destruct (integrationLoop_inv
              (λ s, setupKept st s ∧ dt s = default (Fin 1) _dt) (λ _, True)
              (integrationStep ext fuel (time st))
              (Math_floor (default (Fin 100) duration / dt st1)%js)) with
    (fuel := fuel) (i := 1) (st := st1) (st' := s) as [[Ks Ds] _]; try done.
  intros j s0 s' [K0 D0] Hstep.
  destruct (integrationStep_keeps ext _ _ _ _ _ Hstep) as (K & _ & D & _).
  split; [|done]. split; [by eapply setupKept_trans|congruence].
Qed.


Lemma integrationSteps_time fuel (t0 : num) (n : nat) : ∀ a s s',
  forEach (integrationStep ext fuel t0) (seq a n) s = Returned s' →
  dt s' = dt s
  ∧ (n = 0 → s' = s)
  ∧ (0 < n → time s' = (t0 + of_nat (a + n - 1) * dt s)%js).
Proof.
  induction n as [|n IH]; intros a s s' Hret.
  - injection Hret as <-. split_and!; [done|done|lia].
  - cbn [seq forEach] in Hret.
    destruct (integrationStep ext fuel t0 a s) as [s1| |] eqn:H1; try done.
    cbn [andThen] in Hret.
    destruct (integrationStep_keeps ext _ _ _ _ _ H1) as (_ & Ht1 & Hd1 & _).
    destruct (IH _ _ _ Hret) as (Hd & H0 & Hpos).
    split_and!; [congruence|lia|]. intros _.
    destruct n as [|n].
    + rewrite (H0 eq_refl), Ht1. by replace (a + 1 - 1) with a by lia.
    + rewrite Hpos by lia. rewrite Hd1.
      by replace (S a + S n - 1) with (a + S (S n) - 1) by lia.
Qed.

(** X16.  When [integrate(duration, dt)] returns, having been given fuel
    for its [k = floor(duration/dt)] steps, the clock stands at
    [time + k*dt]; when [k] is 0 the clock is untouched. *)
Theorem integrate_advances_time fuel (duration _dt : option num) st st'
    (k : nat) :
  integrate ext fuel duration _dt st = Returned st' →
  Math_floor (default (Fin 100) duration / default (Fin 1) _dt)%js ≈ of_nat k →
  k ≤ fuel →
  time st' = (if decide (k = 0) then time st
              else (time st + of_nat k * default (Fin 1) _dt)%js).
Proof.
  intros Hret Hk Hfuel.
  destruct (integrate_returns _ _ _ _ _ Hret) as (st1 & s & _ & Hst1 & Hloop & ->).
  destruct (integrate_start_keeps _dt st) as (_ & Hdt & Ht & _).
  cbv zeta in *. rewrite <- Hst1 in *. rewrite Hdt in Hloop.
  rewrite (integrationLoop_forEach _ _ k Hk k 1 fuel st1) in Hloop by lia.
  destruct (integrationSteps_time _ _ _ _ _ _ Hloop) as (_ & H0 & Hpos).
  change (time (set_pressureBuffers ?p s)) with (time s).
  case_decide as Hz.
  - rewrite (H0 Hz). done.
  - rewrite Hpos by lia. rewrite Hdt.
    by replace (1 + k - 1) with k by lia.
Qed.

End IntegrateInvariants.

(** Three steps of 1 fs on the moving atom. *)
Lemma integrate_keeps_setup_witness :
  let st' := stateOf oneMovingAtom
               (integrate plainExternals 10 (Some (Fin 3)) (Some (Fin 1))
                  oneMovingAtom) in
  setupKept oneMovingAtom st' ∧ dt st' = Fin 1.
Proof.
  cbv zeta.
  apply (integrate_keeps_setup plainExternals 10 (Some (Fin 3)) (Some (Fin 1))
           oneMovingAtom).
  vm_compute. reflexivity.
Defined.


(** Three steps of 1 fs on the moving atom. *)
Lemma integrate_advances_time_witness :
  time (stateOf oneMovingAtom
          (integrate plainExternals 10 (Some (Fin 3)) (Some (Fin 1))
             oneMovingAtom))
  = (time oneMovingAtom + of_nat 3 * Fin 1)%js.
Proof.
  apply (integrate_advances_time plainExternals 10 (Some (Fin 3)) (Some (Fin 1))
           oneMovingAtom _ 3).
  - vm_compute. reflexivity.
  - vm_compute. reflexivity.
  - lia.
Defined.

(** ** Walls and bounds *)

Section Walls.
Context {PB W : Type} (ext : externals PB W).
Implicit Types st : engine PB W.

Lemma while_skip {S : Type} fuel (cond : S → bool) (body : S → S) (s : S) :
  cond s = false → while fuel cond body s = Returned s.
Proof. intros H. destruct fuel; simpl; by rewrite H. Qed.

(** One reflection on one axis. *)
Lemma bounceAxis_single fuel i (pos vel mom : string) (ρ w q : Q) st :
  pos ≠ vel → pos ≠ mom → vel ≠ mom →
  aget pos i st = Fin q →
  (0 <= ρ)%Q → (3 * ρ - w <= q)%Q → (q <= 2 * w - 3 * ρ)%Q →
  ∃ st' q',
    bounceAxis fuel i pos vel mom (Fin ρ) (Fin w) st = Returned st'
    ∧ aget pos i st' = Fin q'
    ∧ (ρ <= q')%Q ∧ (q' <= w - ρ)%Q
    ∧ ((ρ <= q)%Q → (q <= w - ρ)%Q → st' = st)
    ∧ ((q < ρ)%Q →
       (q' == 2 * ρ - q)%Q
       ∧ aget vel i st' = (aget vel i st * Fin (-1))%js
       ∧ aget mom i st' = (aget mom i st * Fin (-1))%js)
    ∧ ((w - ρ < q)%Q →
       (q' == 2 * (w - ρ) - q)%Q
       ∧ aget vel i st' = (aget vel i st * Fin (-1))%js
       ∧ aget mom i st' = (aget mom i st * Fin (-1))%js)
    ∧ modifies (λ k j, j = i ∧ (k = pos ∨ k = vel ∨ k = mom)) (λ _ _, False)
        st st'.
Proof.
  intros Hpv Hpm Hvm Hq Hρ Hlo Hhi.
  assert (Hin : i < length (field (atoms st) pos)).
  { apply aget_inside. by rewrite Hq. }
  unfold bounceAxis. rewrite Hq. simpl (Fin q <? Fin ρ)%js.
  destruct (Qltb q ρ) eqn:Hleft.
  - apply Qltb_lt in Hleft.
    rewrite while_skip.
    2:{ rewrite Hq. simpl. apply Qltb_false_le. rewrite Qred_correct. lra. }
    cbn [andThen]. rewrite Hq.
    eexists _, (Qred (ρ + Qred (ρ + - q))). split; [reflexivity|].
    assert (Hpos : aget pos i
       (aset mom i (aget mom i (aset vel i (aget vel i (aset pos i (Fin ρ + (Fin ρ - Fin q))%js st) * Fin (-1))%js (aset pos i (Fin ρ + (Fin ρ - Fin q))%js st)) * Fin (-1))%js
          (aset vel i (aget vel i (aset pos i (Fin ρ + (Fin ρ - Fin q))%js st) * Fin (-1))%js (aset pos i (Fin ρ + (Fin ρ - Fin q))%js st)))
       = Fin (Qred (ρ + Qred (ρ + - q)))).
    { rewrite !aget_aset, !length_field_aset.
      rewrite !decide_False by (intros (? & _); congruence).
      rewrite decide_True by done. done. }
    split_and!.
    + exact Hpos.
    + rewrite !Qred_correct. lra.
    + rewrite !Qred_correct. lra.
    + intros. lra.
    + intros _. split_and!.
      * rewrite !Qred_correct. ring.
      * rewrite (aget_aset_other _ mom vel) by (intros [? _]; congruence).
        apply aget_aset_scaled.
        by rewrite aget_aset_other by (intros [? _]; congruence).
      * apply aget_aset_scaled.
        by rewrite !aget_aset_other by (intros [? _]; congruence).
    + intros. lra.
    + frame; auto.
  - apply Qltb_false_le in Hleft.
    simpl (Fin q >? Fin w - Fin ρ)%js.
    destruct (Qltb (Qred (w + - ρ)) q) eqn:Hright.
    + apply Qltb_lt in Hright. rewrite Qred_correct in Hright.
      rewrite while_skip.
      2:{ rewrite Hq. simpl. apply Qltb_false_le. rewrite !Qred_correct. lra. }
      cbn [andThen]. rewrite Hq.
      eexists _, _. split; [reflexivity|].
      split_and!.
      * rewrite !aget_aset, !length_field_aset.
        rewrite !decide_False by (intros (? & _); congruence).
        rewrite decide_True by done. simpl. reflexivity.
      * rewrite !Qred_correct. lra.
      * rewrite !Qred_correct. lra.
      * intros. lra.
      * intros. lra.
      * intros _. split_and!.
        -- rewrite !Qred_correct. ring.
        -- rewrite (aget_aset_other _ mom vel) by (intros [? _]; congruence).
           apply aget_aset_scaled.
           by rewrite aget_aset_other by (intros [? _]; congruence).
        -- apply aget_aset_scaled.
           by rewrite !aget_aset_other by (intros [? _]; congruence).
      * frame; auto.
    + apply Qltb_false_le in Hright. rewrite Qred_correct in Hright.
      exists st, q. split_and!; try done; try lra.
      apply modifies_refl.
Qed.

Lemma bounceAxis_reflects fuel i (pos vel mom : string) (ρ w q : Q) st :
  pos ≠ vel → pos ≠ mom → vel ≠ mom →
  aget pos i st = Fin q →
  (0 <= ρ)%Q → (3 * ρ - w <= q)%Q → (q <= 2 * w - 3 * ρ)%Q →
  ∃ st' q',
    bounceAxis fuel i pos vel mom (Fin ρ) (Fin w) st = Returned st'
    ∧ aget pos i st' = Fin q' ∧ (q' == reflected ρ w q)%Q
    ∧ (ρ <= q')%Q ∧ (q' <= w - ρ)%Q
    ∧ aget vel i st' = flipped ρ w q (aget vel i st)
    ∧ aget mom i st' = flipped ρ w q (aget mom i st)
    ∧ modifies (λ k j, j = i ∧ (k = pos ∨ k = vel ∨ k = mom)) (λ _ _, False)
        st st'.
Proof.
  intros Hpv Hpm Hvm Hq Hρ Hlo Hhi.
  destruct (bounceAxis_single fuel i pos vel mom ρ w q st)
    as (st' & q' & Hret & Hq' & Hge & Hle & Hin & Hl & Hr & Hm); try done.
  exists st', q'. unfold reflected, flipped.
  destruct (Qltb q ρ) eqn:Hleft.
  - apply Qltb_lt in Hleft. destruct (Hl Hleft) as (? & ? & ?).
    cbn [orb]. split_and!; done.
  - apply Qltb_false_le in Hleft. destruct (Qltb (w - ρ) q) eqn:Hright.
    + apply Qltb_lt in Hright. destruct (Hr Hright) as (? & ? & ?).
      cbn [orb]. split_and!; done.
    + apply Qltb_false_le in Hright. rewrite (Hin Hleft Hright) in *.
      cbn [orb]. split_and!; try done. rewrite Hq in Hq'. by injection Hq' as <-.
Qed.

(** X17.  For an atom of radius [ρ] whose centre lies no farther beyond a
    wall than the two walls are apart (the extent of the domain less two
    radii), [bounceParticleOffWalls] returns whatever the fuel, leaves the
    centre between the walls, at the mirror image of where it was about
    the wall it had crossed, and changes the sign of the velocity and of
    the momentum along each axis on which it reflected; nothing else
    changes. *)
Theorem bounceParticleOffWalls_reflects_once fuel i st (ρ w h x y : Q) :
  aget "radius" i st = Fin ρ → size st = (Fin w, Fin h) →
  aget "x" i st = Fin x → aget "y" i st = Fin y →
  (0 <= ρ)%Q →
  (3 * ρ - w <= x)%Q → (x <= 2 * w - 3 * ρ)%Q →
  (3 * ρ - h <= y)%Q → (y <= 2 * h - 3 * ρ)%Q →
  ∃ st' x' y',
    bounceParticleOffWalls fuel i st = Returned st'
    ∧ aget "x" i st' = Fin x' ∧ (x' == reflected ρ w x)%Q
    ∧ aget "y" i st' = Fin y' ∧ (y' == reflected ρ h y)%Q
    ∧ (ρ <= x')%Q ∧ (x' <= w - ρ)%Q ∧ (ρ <= y')%Q ∧ (y' <= h - ρ)%Q
    ∧ aget "vx" i st' = flipped ρ w x (aget "vx" i st)
    ∧ aget "px" i st' = flipped ρ w x (aget "px" i st)
    ∧ aget "vy" i st' = flipped ρ h y (aget "vy" i st)
    ∧ aget "py" i st' = flipped ρ h y (aget "py" i st)
    ∧ ∀ k j, ¬ (j = i ∧ isMotionKey k) → aget k j st' = aget k j st.
Proof.
  intros Hr Hsize Hx Hy Hρ Hxl Hxh Hyl Hyh.
  rewrite bounceParticleOffWalls_axes, Hr, Hsize. cbn [fst snd].
  destruct (bounceAxis_reflects fuel i "x" "vx" "px" ρ w x st)
    as (s1 & x' & -> & Hx' & Hxr & Hx1 & Hx2 & Hvx & Hpx & M1); try done.
  cbn [andThen].
  pose proof M1 as (_ & A1 & _).
  assert (Hy1 : aget "y" i s1 = Fin y).
  { rewrite A1; [done|]. intros [_ [?|[?|?]]]; done. }
  destruct (bounceAxis_reflects fuel i "y" "vy" "py" ρ h y s1)
    as (s2 & y' & -> & Hy' & Hyr & Hy2 & Hy3 & Hvy & Hpy & M2); try done.
  pose proof M2 as (_ & A2 & _).
  exists s2, x', y'. split_and!; try done.
  - rewrite A2; [done|]. intros [_ [?|[?|?]]]; done.
  - rewrite A2; [done|]. intros [_ [?|[?|?]]]; done.
  - rewrite A2; [done|]. intros [_ [?|[?|?]]]; done.
  - rewrite Hvy. f_equal. apply A1. intros [_ [?|[?|?]]]; done.
  - rewrite Hpy. f_equal. apply A1. intros [_ [?|[?|?]]]; done.
  - intros k j Hkj. rewrite A2, A1; [done| |].
    + intros [-> H]. apply Hkj. split; [done|]. unfold isMotionKey. tauto.
    + intros [-> H]. apply Hkj. split; [done|]. unfold isMotionKey. tauto.
Qed.

End Walls.

Section Bounds.

Context {PB W : Type}.
Implicit Types st : engine PB W.

Lemma bounceOffObstacle_outside i (r xi yi xp yp : num) (up : bool) st loc j :
  negb ((xi >? oget "x" j st - r)%js
        && (xi <? oget "x" j st + oget "width" j st + r)%js
        && (yi >? oget "y" j st - r)%js
        && (yi <? oget "y" j st + oget "height" j st + r)%js) = true →
  bounceOffObstacle i r xi yi xp yp up (st, loc) j = (st, loc).
Proof.
  intros H. apply negb_true_iff in H. unfold bounceOffObstacle.
  by rewrite H.
Qed.

(** X18.  A position that [atomInBounds] accepts is one the bounces leave
    alone: if [atomInBounds(x[i], y[i], i)] is true, then
    [bounceParticleOffWalls(i)] and [bounceParticleOffObstacles(i, ...)]
    change nothing. *)
Theorem atomInBounds_no_bounce st (i : nat) :
  atomInBounds (aget "x" i st) (aget "y" i st) i st = true →
  ∀ fuel x_prev y_prev updatePressure,
    bounceParticleOffWalls fuel i st = Returned st
    ∧ bounceParticleOffObstacles i x_prev y_prev updatePressure st = st.
Proof.
  unfold atomInBounds. cbv zeta.
  destruct (_ || _) eqn:Hwalls; [done|].
  repeat (apply orb_false_iff in Hwalls as [Hwalls ?]).
  intros Hobs fuel xp yp up. split.
  - rewrite bounceParticleOffWalls_axes. unfold bounceAxis.
    rewrite Hwalls. cbn [andThen].
    match goal with H : (_ >? fst _ - _)%js = false |- _ => rewrite H end.
    cbn [andThen].
    match goal with H : (_ <? _)%js = false |- _ => rewrite H end.
    match goal with H : (_ >? snd _ - _)%js = false |- _ => rewrite H end.
    done.
  - unfold bounceParticleOffObstacles.
    destruct (N_obstacles st <? 1)%nat; [done|].
    generalize (mkBounceLocals None None) as loc.
    rewrite forallb_forall in Hobs.
    revert Hobs. generalize (seq 0 (N_obstacles st)) as l.
    induction l as [|j l IH]; intros Hobs loc; [done|].
    cbn [foldl]. rewrite bounceOffObstacle_outside.
    + apply IH. intros k Hk. apply Hobs. by right.
    + apply Hobs. by left.
Qed.

End Bounds.

(** The atom a quarter of a nanometre beyond the west wall comes back to
    x = 0.45, its velocity along x reversed. *)
Lemma bounceParticleOffWalls_reflects_once_witness :
  ∃ st' x' y',
    bounceParticleOffWalls 0 0 atomBeyondWall = Returned st'
    ∧ aget "x" 0 st' = Fin x' ∧ (x' == 9 # 20)%Q
    ∧ aget "y" 0 st' = Fin y' ∧ (y' == 5)%Q
    ∧ aget "vx" 0 st' = (aget "vx" 0 atomBeyondWall * Fin (-1))%js
    ∧ aget "px" 0 st' = (aget "px" 0 atomBeyondWall * Fin (-1))%js
    ∧ aget "vy" 0 st' = aget "vy" 0 atomBeyondWall.
Proof.
  destruct (bounceParticleOffWalls_reflects_once 0 0 atomBeyondWall
              (1 # 10) 10 10 (-1 # 4) 5)
    as (st' & x' & y' & Hr & Hx & Hx' & Hy & Hy' & _ & _ & _ & _
        & Hvx & Hpx & Hvy & _).
  - vm_compute. reflexivity.
  - vm_compute. reflexivity.
  - vm_compute. reflexivity.
  - vm_compute. reflexivity.
  - lra.
  - lra.
  - lra.
  - lra.
  - lra.
  - exists st', x', y'.
    split_and!; [exact Hr|exact Hx| |exact Hy| |exact Hvx|exact Hpx|exact Hvy].
    + rewrite Hx'. reflexivity.
    + rewrite Hy'. reflexivity.
Defined.

(** The atom in front of the obstacle is in bounds. *)
Lemma atomInBounds_no_bounce_witness :
  bounceParticleOffWalls 0 0 atomInFrontOfObstacle = Returned atomInFrontOfObstacle
  ∧ bounceParticleOffObstacles 0 (Fin 0) (Fin 0) true atomInFrontOfObstacle
    = atomInFrontOfObstacle.
Proof.
  apply (atomInBounds_no_bounce atomInFrontOfObstacle 0).
  vm_compute. reflexivity.
Defined.

(** ** Obstacles *)

Section Obstacles.
Context {PB W : Type} (ext : externals PB W).
Implicit Types st : engine PB W.

Lemma bounceOffObstacle_touches st0 i (r xi yi xp yp : num) (up : bool)
    (sl : engine PB W * bounceLocals) (j : nat) :
  let P := λ (k : string) (a : nat),
             a = i ∧ (k = "x" ∨ k = "y" ∨ k = "vx" ∨ k = "vy") in
  let Q := λ (k : string) (_ : nat),
             k = "vx" ∨ k = "vy" ∨ (up = true ∧ isProbeValueKey k) in
  modifies P Q st0 sl.1 →
  modifies P Q st0 (bounceOffObstacle i r xi yi xp yp up sl j).1.
Proof.
  destruct sl as [s loc]. simpl. intros H.
  unfold bounceOffObstacle, isProbeValueKey.
  destruct up;
  repeat match goal with
         | |- context [if ?b then _ else _] => destruct b; simpl
         end;
    frame; auto 10.
Qed.

Lemma bounceParticleOffObstacles_touches st i (xp yp : num) (up : bool) :
  modifies (λ k a, a = i ∧ (k = "x" ∨ k = "y" ∨ k = "vx" ∨ k = "vy"))
    (λ k _, k = "vx" ∨ k = "vy" ∨ (up = true ∧ isProbeValueKey k))
    st (bounceParticleOffObstacles i xp yp up st).
Proof.
  unfold bounceParticleOffObstacles.
  destruct (N_obstacles st <? 1); [apply modifies_refl|].
  cbv zeta.
  generalize (seq 0 (N_obstacles st)).
  generalize (aget "radius" i st) (aget "x" i st) (aget "y" i st).
  intros r xi yi l.
  generalize (mkBounceLocals None None). intros loc.
  assert (Hgen : ∀ sl : engine PB W * bounceLocals,
    modifies (λ k a, a = i ∧ (k = "x" ∨ k = "y" ∨ k = "vx" ∨ k = "vy"))
      (λ k _, k = "vx" ∨ k = "vy" ∨ (up = true ∧ isProbeValueKey k)) st sl.1 →
    modifies (λ k a, a = i ∧ (k = "x" ∨ k = "y" ∨ k = "vx" ∨ k = "vy"))
      (λ k _, k = "vx" ∨ k = "vy" ∨ (up = true ∧ isProbeValueKey k)) st
      (foldl (bounceOffObstacle i r xi yi xp yp up) sl l).1).
  { induction l as [|j l IH]; intros sl Hsl; simpl; [done|].
    apply IH. by apply bounceOffObstacle_touches. }
  apply Hgen. apply modifies_refl.
Qed.

(** X19.  [bounceParticleOffObstacles(i, ...)] changes, of the atoms, only
    [x], [y], [vx] and [vy] of atom i (its momentum [px], [py] is not
    updated), and, of the obstacles, only [vx], [vy] and, when
    [updatePressure] is set, the values of the pressure probes; the numbers
    of atoms and of obstacles are unchanged. *)
Theorem bounceParticleOffObstacles_touches_only st i (xp yp : num) (up : bool) :
  let st' := bounceParticleOffObstacles i xp yp up st in
  N st' = N st ∧ N_obstacles st' = N_obstacles st
  ∧ (∀ k j, ¬ (j = i ∧ (k = "x" ∨ k = "y" ∨ k = "vx" ∨ k = "vy")) →
       aget k j st' = aget k j st)
  ∧ (∀ k j, k ≠ "vx" → k ≠ "vy" → ¬ (up = true ∧ isProbeValueKey k) →
       oget k j st' = oget k j st).
Proof.
  cbv zeta. pose proof (bounceParticleOffObstacles_touches st i xp yp up) as Hm.
  destruct (modifies_scalars _ _ _ _ Hm) as (_ & _ & _ & HN & HNo & _).
  destruct Hm as (_ & Ha & Ho & _).
  split_and!; try done.
  intros k j Hvx Hvy Hp. apply Ho. tauto.
Qed.

(** X21.  When [updateObstaclesPosition] returns, no atom has been
    touched, no obstacle has changed its mass, and an obstacle of infinite
    mass is exactly as it was. *)
Theorem updateObstaclesPosition_spares_immovable fuel st st' :
  updateObstaclesPosition fuel st = Returned st' →
  N_obstacles st' = N_obstacles st
  ∧ (∀ k j, aget k j st' = aget k j st)
  ∧ (∀ j, oget "mass" j st' = oget "mass" j st)
  ∧ (∀ k j, (oget "mass" j st === PInf)%js = true →
       oget k j st' = oget k j st).
Proof.
  intros Hret. pose proof (updateObstaclesPosition_modifies _ _ _ Hret) as Hm.
  destruct (modifies_scalars _ _ _ _ Hm) as (_ & _ & _ & _ & HNo & _).
  destruct Hm as (_ & Ha & Ho & _).
  split_and!; try done.
  - intros k j. apply Ha. tauto.
  - intros j. apply Ho. intros [? _]. done.
  - intros k j Hj. apply Ho. intros [_ ?]. congruence.
Qed.

Lemma elastic_conserves (m M v V : Q) :
  ¬ (m + M == 0)%Q →
  let v' := ((v * (m - M) + 2 * M * V) / (m + M))%Q in
  let V' := ((V * (M - m) + 2 * (m * v)) / (m + M))%Q in
  (m * v' + M * V' == m * v + M * V)%Q
  ∧ (m * (v' * v') + M * (V' * V') == m * (v * v) + M * (V * V))%Q.
Proof. intros H. cbv zeta. split; field; done. Qed.

End Obstacles.

Section Collisions.
Context {PB W : Type} (ext : externals PB W).
Implicit Types st : engine PB W.

Lemma bounceOffObstacle_parts i (r xi yi xp yp : num) (up : bool) st
    (loc : bounceLocals) (j : nat) :
  bounceOffObstacle i r xi yi xp yp up (st, loc) j
  = let '(st, bounceDirection) := obstacleHit i r xi yi xp yp j st in
    if (bounceDirection =? 0)%Z then (st, loc)
    else
      let '(st, loc) := exchangeVelocities i j bounceDirection st loc in
      if up then updateProbes i j bounceDirection st loc else (st, loc).
Proof. reflexivity. Qed.

Lemma obstacleHit_modifies i (r xi yi xp yp : num) (j : nat) st :
  modifies (λ k a, a = i ∧ (k = "x" ∨ k = "y")) (λ _ _, False) st
    (obstacleHit i r xi yi xp yp j st).1.
Proof.
  unfold obstacleHit. cbv zeta.
  repeat match goal with
         | |- context [if ?b then _ else _] => destruct b; cbn [fst]
         end; frame; auto.
Qed.

Lemma updateProbes_modifies i j (dir : Z) st (loc : bounceLocals) :
  modifies (λ _ _, False) (λ k a, a = j ∧ isProbeValueKey k) st
    (updateProbes i j dir st loc).1.
Proof.
  unfold updateProbes, isProbeValueKey.
  repeat match goal with
         | |- context [if ?b then _ else _] => destruct b; cbn [fst]
         end; frame; auto 10.
Qed.

Lemma aget_oset st (k k' : string) (i j : nat) (v : num) :
  aget k' j (oset k i v st) = aget k' j st.
Proof. done. Qed.

Lemma oget_aset st (k k' : string) (i j : nat) (v : num) :
  oget k' j (aset k i v st) = oget k' j st.
Proof. done. Qed.

Lemma oget_inside st (k : string) (i : nat) :
  oget k i st ≠ NaN → i < length (field (obstacles st) k).
Proof.
  unfold oget, rd. intros H.
  destruct (field (obstacles st) k !! i) eqn:Hl; [|done].
  by eapply lookup_lt_Some.
Qed.

Lemma oget_oset_same st (k : string) (i : nat) (v : num) :
  oget k i st ≠ NaN → oget k i (oset k i v st) = v.
Proof.
  intros H. rewrite oget_oset. apply oget_inside in H.
  case_decide; intuition congruence.
Qed.

(** The velocities after the exchange with an obstacle of finite mass. *)
Lemma exchangeVelocities_elastic i j (dir : Z) st (loc : bounceLocals)
    (m M vx vy VX VY px py : Q) :
  aget "mass" i st = Fin m → oget "mass" j st = Fin M →
  ¬ (m + M == 0)%Q →
  aget "vx" i st = Fin vx → aget "vy" i st = Fin vy →
  oget "vx" j st = Fin VX → oget "vy" j st = Fin VY →
  aget "px" i st = Fin px → aget "py" i st = Fin py →
  (px == m * vx)%Q → (py == m * vy)%Q →
  let st' := (exchangeVelocities i j dir st loc).1 in
  ∃ vx' vy' VX' VY',
    aget "vx" i st' = Fin vx' ∧ aget "vy" i st' = Fin vy'
    ∧ oget "vx" j st' = Fin VX' ∧ oget "vy" j st' = Fin VY'
    ∧ (m * vx' + M * VX' == m * vx + M * VX)%Q
    ∧ (m * vy' + M * VY' == m * vy + M * VY)%Q
    ∧ (m * (vx' * vx' + vy' * vy') + M * (VX' * VX' + VY' * VY')
       == m * (vx * vx + vy * vy) + M * (VX * VX + VY * VY))%Q
    ∧ modifies (λ k a, a = i ∧ (k = "vx" ∨ k = "vy"))
        (λ k a, a = j ∧ (k = "vx" ∨ k = "vy")) st st'.
Proof.
  intros Hm HM HmM Hvx Hvy HVX HVY Hpx Hpy Hpxc Hpyc. cbv zeta.
  assert (HMm : ¬ (M + m == 0)%Q) by (intros E; apply HmM; rewrite <- E; ring).
  unfold exchangeVelocities. rewrite HM. cbn [strict_eq negb]. cbv zeta.
  destruct (0 <? dir)%Z; cbn [fst].
  - repeat (rewrite aget_oset || rewrite oget_aset).
    rewrite aget_aset_same by (by rewrite Hvx).
    rewrite oget_oset_same by (by rewrite ?oget_aset, HVX).
    rewrite (aget_aset_other _ "vx" "vy") by (intros [? _]; done).
    rewrite (aget_aset_other _ "vx" "px") by (intros [? _]; done).
    rewrite (oget_oset_other _ "vx" "vy") by (intros [? _]; done).
    repeat (rewrite aget_oset || rewrite oget_aset).
    rewrite Hm, Hvx, Hvy, HVX, HVY, Hpx.
    cbn [add sub mul neg]. rewrite !div_Fin by (by rewrite Qred_correct).
    do 4 eexists.
    split_and!; try reflexivity; try (by frame; auto);
      rewrite !Qred_correct, Hpxc; field; done.
  - repeat (rewrite aget_oset || rewrite oget_aset).
    rewrite aget_aset_same by (by rewrite Hvy).
    rewrite oget_oset_same by (by rewrite ?oget_aset, HVY).
    rewrite (aget_aset_other _ "vy" "vx") by (intros [? _]; done).
    rewrite (aget_aset_other _ "vy" "py") by (intros [? _]; done).
    rewrite (oget_oset_other _ "vy" "vx") by (intros [? _]; done).
    repeat (rewrite aget_oset || rewrite oget_aset).
    rewrite Hm, Hvx, Hvy, HVX, HVY, Hpy.
    cbn [add sub mul neg]. rewrite !div_Fin by (by rewrite Qred_correct).
    do 4 eexists.
    split_and!; try reflexivity; try (by frame; auto);
      rewrite !Qred_correct, Hpyc; field; done.
Qed.

(** X20.  With one obstacle of finite mass and an atom whose momentum is
    consistent with its velocity, [bounceParticleOffObstacles] conserves
    the total momentum along x and along y and the total kinetic energy of
    the atom and the obstacle, whether or not they collide. *)
Theorem bounceParticleOffObstacles_elastic st i (xp yp : num) (up : bool)
    (m M vx vy VX VY px py : Q) :
  N_obstacles st = 1 →
  aget "mass" i st = Fin m → oget "mass" 0 st = Fin M →
  ¬ (m + M == 0)%Q →
  aget "vx" i st = Fin vx → aget "vy" i st = Fin vy →
  oget "vx" 0 st = Fin VX → oget "vy" 0 st = Fin VY →
  aget "px" i st = Fin px → aget "py" i st = Fin py →
  (px == m * vx)%Q → (py == m * vy)%Q →
  let st' := bounceParticleOffObstacles i xp yp up st in
  ∃ vx' vy' VX' VY',
    aget "vx" i st' = Fin vx' ∧ aget "vy" i st' = Fin vy'
    ∧ oget "vx" 0 st' = Fin VX' ∧ oget "vy" 0 st' = Fin VY'
    ∧ (m * vx' + M * VX' == m * vx + M * VX)%Q
    ∧ (m * vy' + M * VY' == m * vy + M * VY)%Q
    ∧ (m * (vx' * vx' + vy' * vy') + M * (VX' * VX' + VY' * VY')
       == m * (vx * vx + vy * vy) + M * (VX * VX + VY * VY))%Q.
Proof.
  intros HN Hm HM HmM Hvx Hvy HVX HVY Hpx Hpy Hpxc Hpyc. cbv zeta.
  unfold bounceParticleOffObstacles. rewrite HN. cbn [Nat.ltb Nat.leb seq foldl].
  cbv zeta. rewrite bounceOffObstacle_parts.
  pose proof (obstacleHit_modifies i (aget "radius" i st) (aget "x" i st)
                (aget "y" i st) xp yp 0 st) as Hhit.
  destruct (obstacleHit i _ _ _ xp yp 0 st) as [st1 dir]. cbn [fst] in Hhit.
  destruct Hhit as (_ & A1 & O1 & _).
  assert (Ha : ∀ k, k ≠ "x" → k ≠ "y" → aget k i st1 = aget k i st).
  { intros k ? ?. apply A1. intros [_ [?|?]]; done. }
  assert (Ho : ∀ k, oget k 0 st1 = oget k 0 st) by (intros k; apply O1; tauto).
  destruct (dir =? 0)%Z.
  - cbn [fst]. exists vx, vy, VX, VY.
    rewrite !Ha, !Ho by done. split_and!; done.
  - destruct (exchangeVelocities_elastic i 0 dir st1 (mkBounceLocals None None)
                m M vx vy VX VY px py)
      as (vx' & vy' & VX' & VY' & E1 & E2 & E3 & E4 & C1 & C2 & C3 & _);
      rewrite ?Ha, ?Ho by done; try done.
    destruct (exchangeVelocities i 0 dir st1 _) as [st2 loc2]. cbn [fst] in *.
    exists vx', vy', VX', VY'.
    destruct up; [|by split_and!].
    pose proof (updateProbes_modifies i 0 dir st2 loc2) as (_ & A3 & O3 & _).
    rewrite !A3 by tauto.
    rewrite !O3 by (unfold isProbeValueKey; intros [_ [?|[?|[?|?]]]]; done).
    by split_and!.
Qed.

End Collisions.

(** The atom in front of the movable obstacle is not touched. *)
Lemma updateObstaclesPosition_spares_immovable_witness :
  let st' := stateOf atomInFrontOfObstacle
               (updateObstaclesPosition 10 atomInFrontOfObstacle) in
  N_obstacles st' = 1
  ∧ aget "x" 0 st' = aget "x" 0 atomInFrontOfObstacle
  ∧ oget "mass" 0 st' = Fin 1.
Proof.
  cbv zeta.
  destruct (updateObstaclesPosition_spares_immovable 10 atomInFrontOfObstacle
              (stateOf atomInFrontOfObstacle
                 (updateObstaclesPosition 10 atomInFrontOfObstacle)))
    as (HN & Ha & Hm & _).
  - vm_compute. reflexivity.
  - split_and!.
    + rewrite HN. reflexivity.
    + apply Ha.
    + rewrite Hm. reflexivity.
Defined.

(** The obstacle that has moved onto the atom at rest. *)
Lemma bounceParticleOffObstacles_elastic_witness :
  let st' := bounceParticleOffObstacles 0 (Fin (485 # 100)) (Fin 5) true
               obstacleOverAtom in
  ∃ vx' vy' VX' VY',
    aget "vx" 0 st' = Fin vx' ∧ aget "vy" 0 st' = Fin vy'
    ∧ oget "vx" 0 st' = Fin VX' ∧ oget "vy" 0 st' = Fin VY'
    ∧ (1 * vx' + 1 * VX' == 1 * 0 + 1 * (-1 # 10))%Q
    ∧ (1 * vy' + 1 * VY' == 1 * 0 + 1 * 0)%Q
    ∧ (1 * (vx' * vx' + vy' * vy') + 1 * (VX' * VX' + VY' * VY')
       == 1 * (0 * 0 + 0 * 0) + 1 * ((-1 # 10) * (-1 # 10) + 0 * 0))%Q.
Proof.
  apply (bounceParticleOffObstacles_elastic obstacleOverAtom 0
           (Fin (485 # 100)) (Fin 5) true 1 1 0 0 (-1 # 10) 0 0 0).
  - vm_compute. reflexivity.
  - vm_compute. reflexivity.
  - vm_compute. reflexivity.
  - intros H. vm_compute in H. discriminate H.
  - vm_compute. reflexivity.
  - vm_compute. reflexivity.
  - vm_compute. reflexivity.
  - vm_compute. reflexivity.
  - vm_compute. reflexivity.
  - vm_compute. reflexivity.
  - reflexivity.
  - reflexivity.
Defined.

(** ** Adding, moving and applying spring forces *)

Section SpringForces.
Context {PB W : Type} (ext : externals PB W).
Implicit Types st : engine PB W.

Lemma sget_sset st (k k' i i' : nat) (v : num) :
  sget k' i' (sset k i v st)
  = if decide (k = k' ∧ i = i' ∧ i < springLength k st) then v
    else sget k' i' st.
Proof.
  unfold sget, sset, springLength. simpl.
  destruct (springForces st) as [l|]; simpl.
  2:{ case_decide as H; [|done]. destruct H as (_ & _ & H). simpl in H. lia. }
  rewrite list_lookup_alter.
  destruct (decide (k = k')) as [->|Hne].
  - destruct (l !! k') as [a|] eqn:Ha; simpl.
    + rewrite rd_insert. repeat case_decide; try done; exfalso; intuition.
    + case_decide as H; [|done]. destruct H as (_ & _ & H). simpl in H. lia.
  - rewrite decide_False by (intros [? _]; done). done.
Qed.

Lemma springLength_sset st (k k' i : nat) (v : num) :
  springLength k' (sset k i v st) = springLength k' st.
Proof.
  unfold sset, springLength. simpl.
  destruct (springForces st) as [l|]; simpl; [|done].
  rewrite list_lookup_alter.
  destruct (decide (k = k')) as [->|Hne]; [|done].
  destruct (l !! k'); simpl; [by rewrite length_insert|done].
Qed.

Lemma springArrays_length st (c k : nat) :
  springArrays st c → k < 4 → springLength k st = c.
Proof.
  intros (l & Hl & H4 & Hc) Hk. unfold springLength. rewrite Hl. simpl.
  destruct (l !! k) as [a|] eqn:Ha.
  - simpl. apply Hc. by eapply list_elem_of_lookup_2.
  - apply lookup_ge_None in Ha. lia.
Qed.





(** X23.  [updateSpringForce(i, x, y)] changes nothing but the anchor of
    spring force i, which becomes (x, y) when i lies within the arrays:
    the atom and the strength of spring force i, the other spring forces,
    the count and the atoms are unchanged. *)
Theorem updateSpringForce_moves_anchor st (i : nat) (x y : num) (c : nat) :
  springArrays st c →
  let st' := updateSpringForce i x y st in
  N_springForces st' = N_springForces st
  ∧ atoms st' = atoms st
  ∧ (i < c → sget 1 i st' = x ∧ sget 2 i st' = y)
  ∧ (∀ k j, ¬ (j = i ∧ (k = 1 ∨ k = 2)) → sget k j st' = sget k j st).
Proof.
  intros Harr. cbv zeta. unfold updateSpringForce. split_and!.
  - done.
  - done.
  - intros Hi. rewrite !sget_sset, !springLength_sset.
    rewrite !(springArrays_length st c) by (done || lia).
    repeat case_decide; destruct_and?; simplify_eq; try done; exfalso; tauto.
  - intros k j Hn. rewrite !sget_sset.
    repeat case_decide; destruct_and?; simplify_eq; try done; exfalso; tauto.
Qed.

Lemma Math_sqrt_pos (q : Q) :
  (0 < q)%Q → ∃ r, Math_sqrt (Fin q) = Fin r ∧ (0 < r)%Q.
Proof.
  intros Hq. unfold Math_sqrt.
  destruct (Qltb q 0) eqn:E.
  { apply Qltb_lt in E. lra. }
  eexists. split; [reflexivity|].
  rewrite Qred_correct. destruct q as [n d]. unfold Qlt in *. simpl in *.
  assert (0 < n)%Z by lia.
  assert (1 <= Z.sqrt (n * Z.pos d))%Z; [|lia].
  change 1%Z with (Z.sqrt 1). apply Z.sqrt_le_mono. nia.
Qed.

(** X24.  With a single spring force of strength [k] between atom j and
    the anchor (sx, sy), [updateSpringForces] adds
    [k * u * (sx - x[j])] to [ax[j]] and [k * u * (sy - y[j])] to [ay[j]],
    where [u] converts eV/nm to the force unit of the engine: the distance
    cancels, the force is linear in the displacement (and nothing is added
    when the atom sits on the anchor); no other cell of the atoms is
    written. *)
Theorem updateSpringForces_hooke st (j : nat) (sx sy k xa ya u : Q) :
  N_springForces st = 1 →
  sget 0 0 st = of_nat j →
  sget 1 0 st = Fin sx → sget 2 0 st = Fin sy → sget 3 0 st = Fin k →
  aget "x" j st = Fin xa → aget "y" j st = Fin ya →
  MW_FORCE_UNITS_PER_EV_PER_NM ext = Fin u →
  let st' := updateSpringForces ext st in
  aget "ax" j st' ≈ (aget "ax" j st + Fin (k * u * (sx - xa)))%js
  ∧ aget "ay" j st' ≈ (aget "ay" j st + Fin (k * u * (sy - ya)))%js
  ∧ modifies (λ key a, a = j ∧ (key = "ax" ∨ key = "ay")) (λ _ _, False) st st'.
Proof.
  intros HN Ha Hsx Hsy Hk Hx Hy Hu. cbv zeta.
  unfold updateSpringForces, appliedSpringForces. rewrite HN.
  cbn [Nat.ltb Nat.leb seq foldl].
  unfold applySpringForce, atNum, addTo.
  rewrite Ha, (to_index_of_nat (of_nat j) j) by done.
  rewrite Hsx, Hsy, Hk, Hx, Hy, Hu.
  cbn [sub neg add mul strict_eq].
  destruct (Qeq_bool (Qred (sx + - xa)) 0 && Qeq_bool (Qred (sy + - ya)) 0)
    eqn:Hz.
  - apply andb_true_iff in Hz as [Zx Zy].
    apply Qeq_bool_eq in Zx, Zy. rewrite Qred_correct in Zx, Zy.
    split_and!; [| |apply modifies_refl].
    + destruct (aget "ax" j st); try done. simpl. rewrite Qred_correct.
      unfold Qminus. rewrite Zx. ring.
    + destruct (aget "ay" j st); try done. simpl. rewrite Qred_correct.
      unfold Qminus. rewrite Zy. ring.
  - set (dx := Qred (sx + - xa)) in *. set (dy := Qred (sy + - ya)) in *.
    assert (Hpos : (0 < Qred (Qred (dx * dx) + Qred (dy * dy)))%Q).
    { rewrite !Qred_correct.
      apply andb_false_iff in Hz.
      assert (0 <= dx * dx)%Q by nra. assert (0 <= dy * dy)%Q by nra.
      destruct Hz as [Hz|Hz].
      - assert (¬ dx == 0)%Q by (intros E; apply Qeq_eq_bool in E; congruence).
        assert (0 < dx * dx)%Q by nra. lra.
      - assert (¬ dy == 0)%Q by (intros E; apply Qeq_eq_bool in E; congruence).
        assert (0 < dy * dy)%Q by nra. lra. }
    destruct (Math_sqrt_pos _ Hpos) as (r & -> & Hr).
    cbn [mul]. rewrite div_Fin by lra. cbn [mul].
    rewrite (aget_aset_other _ "ax" "ay") by (intros [? _]; done).
    rewrite !aget_aset.
    split_and!.
    + rewrite decide_False by (intros [? _]; done).
      case_decide as Hd.
      * destruct (aget "ax" j st); try done. simpl.
        unfold dx. rewrite !Qred_correct. field. lra.
      * assert (aget "ax" j st = NaN) as ->; [|done].
        unfold aget, rd. rewrite lookup_ge_None_2; [done|]. 
        apply Nat.nlt_ge. intros ?. apply Hd. done.
    + case_decide as Hd.
      * destruct (aget "ay" j st); try done. simpl.
        unfold dy. rewrite !Qred_correct. field. lra.
      * assert (aget "ay" j st = NaN) as ->; [|done].
        unfold aget, rd. rewrite lookup_ge_None_2; [done|].
        apply Nat.nlt_ge. intros ?. apply Hd.
        rewrite length_field_aset. done.
    + frame; auto.
Qed.

End SpringForces.

(** [springArrays] as a test that can be computed on an engine. *)
Lemma springArrays_check {PB W : Type} (st : engine PB W) (c : nat) :
  match springForces st with
  | Some l => (length l =? 4) && forallb (λ a, length a =? c) l
  | None => false
  end = true →
  springArrays st c.
Proof.
  destruct (springForces st) as [l|] eqn:Hl; [|done].
  intros [H4 Hc]%andb_true_iff. exists l. split_and!; [done|by apply Nat.eqb_eq|].
  intros a Ha. rewrite forallb_forall in Hc.
  apply Nat.eqb_eq, Hc. by apply list_elem_of_In.
Qed.


(** The anchor of the one spring force moved to (6, 7). *)
Lemma updateSpringForce_moves_anchor_witness :
  let st' := updateSpringForce 0 (Fin 6) (Fin 7) oneSpring in
  N_springForces st' = 1
  ∧ sget 1 0 st' = Fin 6 ∧ sget 2 0 st' = Fin 7
  ∧ sget 3 0 st' = Fin 2 ∧ sget 0 0 st' = Fin 0.
Proof.
  cbv zeta.
  destruct (updateSpringForce_moves_anchor oneSpring 0 (Fin 6) (Fin 7) 1)
    as (HN & _ & Hxy & Hother).
  - apply springArrays_check. vm_compute. reflexivity.
  - destruct Hxy as [Hx Hy]; [lia|].
    split_and!; [|exact Hx|exact Hy| |].
    + rewrite HN. reflexivity.
    + rewrite (Hother 3 0) by lia. reflexivity.
    + rewrite (Hother 0 0) by lia. reflexivity.
Defined.

(** The spring of strength 2 from (5, 5) to (8, 9) gives the force (6, 8). *)
Lemma updateSpringForces_hooke_witness :
  let st' := updateSpringForces plainExternals oneSpring in
  aget "ax" 0 st' ≈ (aget "ax" 0 oneSpring + Fin (2 * 1 * (8 - 5)))%js
  ∧ aget "ay" 0 st' ≈ (aget "ay" 0 oneSpring + Fin (2 * 1 * (9 - 5)))%js
  ∧ modifies (λ key a, a = 0 ∧ (key = "ax" ∨ key = "ay")) (λ _ _, False)
      oneSpring st'.
Proof.
  apply (updateSpringForces_hooke plainExternals oneSpring 0 8 9 2 5 5 1);
    vm_compute; reflexivity.
Defined.
